(** * Enrichment core of the part-time jobs scripts

    A shallow embedding of the pure transformations of
    - [scripts/add_internal_links_simple.py]  (keyword-cluster link insertion),
    - [scripts/fetch_brand_data_branddev.py]  (Brand.dev normaliser),
    - [scripts/fetch_brand_data.py]           (Brandfetch normaliser),
    and of the batch runs that apply them ([process_jobs] and [main] of
    these scripts, [process_jobs] of [scripts/add_internal_links.py]),
    followed by the properties proved about them.

    Python [str] values are sequences of Unicode code points and are modelled
    as [list N].  The behaviour of the interpreter on ASCII code points is
    written out; its Unicode tables for the other code points (word
    characters, case folding of the [re] module, [str.upper], [str.lower])
    are parameters of the development. *)

From Stdlib Require Import ZArith QArith Ascii String Sorting.Sorted.
From stdpp Require Import base option list gmap.

Abbreviation text := (list N).

(** ** Python strings *)

(** A string literal of the source, as code points. *)
Definition cp (s : string) : text :=
  (λ a, N_of_ascii a) <$> list_ascii_of_string s.

Definition chr (a : ascii) : N := N_of_ascii a.

Fixpoint startswith (p s : text) : bool :=
  match p, s with
  | [], _ => true
  | _ :: _, [] => false
  | a :: p', b :: s' => (a =? b)%N && startswith p' s'
  end.

(** [needle in hay] for two [str] values. *)
Fixpoint py_in (needle hay : text) : bool :=
  startswith needle hay ||
  match hay with
  | [] => false
  | _ :: hay' => py_in needle hay'
  end.

Definition is_ascii (c : N) : bool := (c <? 128)%N.
Definition ascii_upper_letter (c : N) : bool := (65 <=? c)%N && (c <=? 90)%N.
Definition ascii_lower_letter (c : N) : bool := (97 <=? c)%N && (c <=? 122)%N.
Definition ascii_letter (c : N) : bool :=
  ascii_upper_letter c || ascii_lower_letter c.
Definition ascii_digit (c : N) : bool := (48 <=? c)%N && (c <=? 57)%N.
Definition ascii_tolower (c : N) : N :=
  if ascii_upper_letter c then (c + 32)%N else c.
Definition ascii_toupper (c : N) : N :=
  if ascii_lower_letter c then (c - 32)%N else c.
(** [\w] on ASCII: letters, digits and the underscore. *)
Definition ascii_word (c : N) : bool :=
  ascii_letter c || ascii_digit c || (c =? 95)%N.

(** ** scripts/add_internal_links_simple.py *)

Module Links.

(** The fragment of [re] syntax used by [KEYWORD_CLUSTERS]. *)
Inductive regex : Type :=
  | Eps
  | Chr (c : N)
  | WordB
  | Cat (r1 r2 : regex)
  | Alt (r1 r2 : regex)
  | Opt (r : regex)
  | Grp (n : nat) (r : regex).

(** A replacement template: literal text and group references. *)
Inductive titem : Type :=
  | TLit (t : text)
  | TGroup (n : nat).

Abbreviation template := (list titem).
Abbreviation groups := (gmap nat (nat * nat)).

Fixpoint lits (l : text) : regex :=
  match l with
  | [] => Eps
  | c :: l' => Cat (Chr c) (lits l')
  end.

(** [\b(LIT)s?\b], [\b(LIT)(y|ies)\b] and [\b(LIT)\b]. *)
Definition re_plural (l : string) : regex :=
  Cat WordB (Cat (Grp 1 (lits (cp l))) (Cat (Opt (Chr (chr "s"))) WordB)).
Definition re_y_ies (l : string) : regex :=
  Cat WordB (Cat (Grp 1 (lits (cp l)))
    (Cat (Grp 2 (Alt (lits (cp "y")) (lits (cp "ies")))) WordB)).
Definition re_plain (l : string) : regex :=
  Cat WordB (Cat (Grp 1 (lits (cp l))) WordB).

(** [[\1](URL)] and [[\1\2](URL)]. *)
Definition link1 (u : string) : template :=
  [TLit (cp "["); TGroup 1; TLit (cp "]("); TLit (cp u); TLit (cp ")")].
Definition link12 (u : string) : template :=
  [TLit (cp "["); TGroup 1; TGroup 2; TLit (cp "]("); TLit (cp u); TLit (cp ")")].

Record cluster : Type := {
  url : text;
  patterns : list (regex * template)
}.

Definition KEYWORD_CLUSTERS : list (text * cluster) :=
  [ (cp "CFO",
     {| url := cp "/fractional-jobs?role=CFO";
        patterns :=
          [ (re_plural "Fractional CFO", link1 "/fractional-jobs?role=CFO");
            (re_plural "fractional CFO", link1 "/fractional-jobs?role=CFO");
            (re_plural "Fractional Finance Director", link1 "/fractional-jobs?role=CFO");
            (re_plural "fractional finance director", link1 "/fractional-jobs?role=CFO");
            (re_plural "CFO role", link1 "/fractional-jobs?role=CFO");
            (re_plural "part-time CFO", link1 "/fractional-jobs?role=CFO");
            (re_y_ies "CFO opportunit", link12 "/fractional-jobs?role=CFO");
            (re_plain "finance leadership", link1 "/fractional-jobs?role=CFO");
            (re_plural "senior finance leader", link1 "/fractional-jobs?role=CFO");
            (re_plain "strategic financial", link1 "/fractional-jobs?role=CFO") ] |});
    (cp "CMO",
     {| url := cp "/fractional-jobs?role=CMO";
        patterns :=
          [ (re_plural "Fractional CMO", link1 "/fractional-jobs?role=CMO");
            (re_plural "fractional CMO", link1 "/fractional-jobs?role=CMO");
            (re_plural "Fractional Marketing Director", link1 "/fractional-jobs?role=CMO");
            (re_plural "fractional marketing director", link1 "/fractional-jobs?role=CMO");
            (re_plural "CMO role", link1 "/fractional-jobs?role=CMO");
            (re_plural "part-time CMO", link1 "/fractional-jobs?role=CMO");
            (re_y_ies "CMO opportunit", link12 "/fractional-jobs?role=CMO");
            (re_plain "marketing leadership", link1 "/fractional-jobs?role=CMO") ] |});
    (cp "CTO",
     {| url := cp "/fractional-jobs?role=CTO";
        patterns :=
          [ (re_plural "Fractional CTO", link1 "/fractional-jobs?role=CTO");
            (re_plural "fractional CTO", link1 "/fractional-jobs?role=CTO");
            (re_plural "Fractional Tech Director", link1 "/fractional-jobs?role=CTO");
            (re_plural "fractional tech director", link1 "/fractional-jobs?role=CTO");
            (re_plural "CTO role", link1 "/fractional-jobs?role=CTO");
            (re_plural "part-time CTO", link1 "/fractional-jobs?role=CTO");
            (re_y_ies "CTO opportunit", link12 "/fractional-jobs?role=CTO");
            (re_plain "technology leadership", link1 "/fractional-jobs?role=CTO");
            (re_plain "technical leadership", link1 "/fractional-jobs?role=CTO") ] |});
    (cp "COO",
     {| url := cp "/fractional-jobs?role=COO";
        patterns :=
          [ (re_plural "Fractional COO", link1 "/fractional-jobs?role=COO");
            (re_plural "fractional COO", link1 "/fractional-jobs?role=COO");
            (re_plural "Fractional Operations Director", link1 "/fractional-jobs?role=COO");
            (re_plural "fractional operations director", link1 "/fractional-jobs?role=COO");
            (re_plural "COO role", link1 "/fractional-jobs?role=COO");
            (re_plural "part-time COO", link1 "/fractional-jobs?role=COO");
            (re_y_ies "COO opportunit", link12 "/fractional-jobs?role=COO");
            (re_plain "operations leadership", link1 "/fractional-jobs?role=COO") ] |});
    (cp "general",
     {| url := cp "/fractional-jobs";
        patterns :=
          [ (re_plural "fractional role", link1 "/fractional-jobs");
            (re_plural "fractional job", link1 "/fractional-jobs");
            (re_plural "fractional executive", link1 "/fractional-jobs");
            (re_plural "fractional leader", link1 "/fractional-jobs");
            (re_plural "fractional position", link1 "/fractional-jobs");
            (re_plural "part-time executive", link1 "/fractional-jobs");
            (re_plural "portfolio career", link1 "/fractional-jobs");
            (re_y_ies "fractional opportunit", link12 "/fractional-jobs");
            (re_plain "fractional work", link1 "/fractional-jobs");
            (re_plural "fractional engagement", link1 "/fractional-jobs") ] |}) ].

(** [KEYWORD_CLUSTERS.get(name)] and [name in KEYWORD_CLUSTERS]. *)
Fixpoint clusters_get (d : list (text * cluster)) (name : text) : option cluster :=
  match d with
  | [] => None
  | (k, v) :: d' => if bool_decide (k = name) then Some v else clusters_get d' name
  end.

Definition clusters_has (d : list (text * cluster)) (name : text) : bool :=
  bool_decide (is_Some (clusters_get d name)).

Section LinkClusterMatcher.

(** Unicode tables of the interpreter for the code points from 128 on:
    [\w], the case folding applied by [re.IGNORECASE] to a character of
    the subject, and the expansion [str.upper] gives a character. *)
Variable uni_word : N → bool.
Variable uni_fold : N → N.
Variable uni_upper : N → text.

Definition is_word (c : N) : bool :=
  if is_ascii c then ascii_word c else uni_word c.

Definition fold_case (c : N) : N :=
  if is_ascii c then ascii_tolower c else uni_fold c.

(** A pattern character [p] against a subject character [c] under
    [re.IGNORECASE]: an uncased pattern character is compared as it is,
    a letter through the folding of the subject character. *)
Definition ci_eq (p c : N) : bool :=
  if ascii_letter p then (fold_case c =? ascii_tolower p)%N else (c =? p)%N.

Definition str_upper (s : text) : text :=
  s ≫= (λ c, if is_ascii c then [ascii_toupper c] else uni_upper c).

Definition word_at (s : text) (i : nat) : bool :=
  match s !! i with
  | Some c => is_word c
  | None => false
  end.

(** [\b] at position [i] of [s]. *)
Definition at_boundary (s : text) (i : nat) : bool :=
  xorb (match i with 0 => false | S j => word_at s j end) (word_at s i).

(** Backtracking matcher: [bt r s i g k] matches [r] at position [i] and
    hands the end position and the groups to the continuation [k]; the
    alternatives are tried in the order of the [re] module (greedy [?],
    left branch of [|] first). *)
Fixpoint bt {A} (r : regex) (s : text) (i : nat) (g : groups)
  (k : nat → groups → option A) : option A :=
  match r with
  | Eps => k i g
  | Chr p =>
    match s !! i with
    | Some c => if ci_eq p c then k (S i) g else None
    | None => None
    end
  | WordB => if at_boundary s i then k i g else None
  | Cat r1 r2 => bt r1 s i g (λ j g', bt r2 s j g' k)
  | Alt r1 r2 =>
    match bt r1 s i g k with
    | Some x => Some x
    | None => bt r2 s i g k
    end
  | Opt r1 =>
    match bt r1 s i g k with
    | Some x => Some x
    | None => k i g
    end
  | Grp n r1 => bt r1 s i g (λ j g', k j (<[n := (i, j)]> g'))
  end.

Definition match_at (r : regex) (s : text) (i : nat) : option (nat * groups) :=
  bt r s i ∅ (λ j g, Some (j, g)).

Fixpoint search_from (r : regex) (s : text) (fuel i : nat)
  : option (nat * nat * groups) :=
  match fuel with
  | 0 => None
  | S fuel' =>
    match match_at r s i with
    | Some (j, g) => Some (i, j, g)
    | None => search_from r s fuel' (S i)
    end
  end.

(** [re.search(pattern, s, re.IGNORECASE)]: the leftmost start position
    with a match, among [0 .. len(s)]. *)
Definition re_search (r : regex) (s : text) : option (nat * nat * groups) :=
  search_from r s (S (length s)) 0.

Definition group_text (s : text) (g : groups) (n : nat) : text :=
  match g !! n with
  | Some (i, j) => take (j - i) (drop i s)
  | None => []
  end.

Definition expand (t : template) (s : text) (g : groups) : text :=
  t ≫= (λ it, match it with TLit l => l | TGroup n => group_text s g n end).

(** [re.sub(pattern, replacement, s, count=1, flags=re.IGNORECASE)]. *)
Definition re_sub1 (r : regex) (t : template) (s : text) : text :=
  match re_search r s with
  | Some (i, j, g) => take i s ++ expand t s g ++ drop j s
  | None => s
  end.

Definition link_state : Type := text * nat * list text.

(** The inner [for pattern, replacement in cluster['patterns']] loop. *)
Fixpoint try_patterns (cluster_name : text) (ps : list (regex * template))
  (st : link_state) : link_state :=
  match ps with
  | [] => st
  | (pattern, replacement) :: ps' =>
    let '(result, links_added, clusters_used) := st in
    if bool_decide (is_Some (re_search pattern result)) then
      (re_sub1 pattern replacement result,
       links_added + 1,
       clusters_used ++ [cluster_name])
    else try_patterns cluster_name ps' st
  end.

Definition max_links : nat := 3.

(** The outer [for cluster_name in cluster_order] loop. *)
Fixpoint link_loop (order : list text) (st : link_state) : link_state :=
  match order with
  | [] => st
  | cluster_name :: order' =>
    let '(_, links_added, _) := st in
    if bool_decide (max_links ≤ links_added) then st
    else
      match clusters_get KEYWORD_CLUSTERS cluster_name with
      | None => link_loop order' st
      | Some c => link_loop order' (try_patterns cluster_name (patterns c) st)
      end
  end.

Definition cluster_order (role_category : option text) : list text :=
  let cluster_order := [cp "general"] in
  let cluster_order :=
    match role_category with
    | Some ((_ :: _) as rc) =>
        let role_upper := str_upper rc in
        if clusters_has KEYWORD_CLUSTERS role_upper
        then role_upper :: cluster_order
        else if py_in (cp "CFO") role_upper || py_in (cp "FINANCE") role_upper
        then cp "CFO" :: cluster_order
        else if py_in (cp "CMO") role_upper || py_in (cp "MARKET") role_upper
        then cp "CMO" :: cluster_order
        else if py_in (cp "CTO") role_upper || py_in (cp "TECH") role_upper
        then cp "CTO" :: cluster_order
        else if py_in (cp "COO") role_upper || py_in (cp "OPERATION") role_upper
        then cp "COO" :: cluster_order
        else cluster_order
    | _ => cluster_order
    end in
  foldl (λ acc cluster, if bool_decide (cluster ∈ acc) then acc else acc ++ [cluster])
    cluster_order [cp "CFO"; cp "CMO"; cp "CTO"; cp "COO"].

Definition link_marker : text := cp "](/fractional-jobs".

Definition add_links_to_description (txt : text) (role_category : option text)
  : link_state :=
  match txt with
  | [] => (txt, 0, [])
  | _ :: _ =>
    if py_in link_marker txt then (txt, 0, [])
    else link_loop (cluster_order role_category) (txt, 0, [])
  end.

End LinkClusterMatcher.

(** *** The shape of the patterns of the table

    Every pattern of [KEYWORD_CLUSTERS] is a phrase between two [\b], in a
    group, followed by [s?], by [(y|ies)] or by nothing, and its template
    links the group to the URL of the cluster. *)

#[export] Instance regex_eq_dec : EqDecision regex.
Proof. solve_decision. Defined.

#[export] Instance titem_eq_dec : EqDecision titem.
Proof. solve_decision. Defined.

Inductive suffix : Type := SPlural | SYIes | SPlain.

Definition suffix_re (sf : suffix) : regex :=
  match sf with
  | SPlural => Cat (Opt (Chr (chr "s"))) WordB
  | SYIes => Cat (Grp 2 (Alt (lits (cp "y")) (lits (cp "ies")))) WordB
  | SPlain => WordB
  end.

Definition phrase_re (l : text) (sf : suffix) : regex :=
  Cat WordB (Cat (Grp 1 (lits l)) (suffix_re sf)).

Definition phrase_template (sf : suffix) (u : text) : template :=
  match sf with
  | SYIes => [TLit (cp "["); TGroup 1; TGroup 2; TLit (cp "]("); TLit u; TLit (cp ")")]
  | _ => [TLit (cp "["); TGroup 1; TLit (cp "]("); TLit u; TLit (cp ")")]
  end.

(** The ends a phrase can take, in the order the matcher tries them. *)
Definition suffixes (sf : suffix) : list text :=
  match sf with
  | SPlural => [cp "s"; []]
  | SYIes => [cp "y"; cp "ies"]
  | SPlain => [[]]
  end.

Definition phrase_groups (sf : suffix) (i e j : nat) : groups :=
  match sf with
  | SYIes => <[2 := (e, j)]> (<[1 := (i, e)]> ∅)
  | _ => <[1 := (i, e)]> ∅
  end.

Fixpoint unlits (r : regex) : option text :=
  match r with
  | Eps => Some []
  | Cat (Chr c) r' => (c ::.) <$> unlits r'
  | _ => None
  end.

Definition as_suffix (r : regex) : option suffix :=
  if decide (r = suffix_re SPlural) then Some SPlural
  else if decide (r = suffix_re SYIes) then Some SYIes
  else if decide (r = suffix_re SPlain) then Some SPlain
  else None.

Definition as_phrase (r : regex) : option (text * suffix) :=
  match r with
  | Cat WordB (Cat (Grp 1 body) suf) =>
      l ← unlits body; sf ← as_suffix suf; Some (l, sf)
  | _ => None
  end.

(** A phrase of ASCII characters that starts and ends with a letter. *)
Definition good_lit (l : text) : bool :=
  forallb is_ascii l &&
  match head l, last l with
  | Some a, Some b => ascii_letter a && ascii_letter b
  | _, _ => false
  end.

Definition pattern_ok (u : text) (pt : regex * template) : bool :=
  match as_phrase pt.1 with
  | Some (l, sf) => bool_decide (pt.2 = phrase_template sf u) && good_lit l
  | None => false
  end.

(** The strings a phrase pattern can match, up to case. *)
Definition alternatives (l : text) (sf : suffix) : list text :=
  (λ x, l ++ x) <$> suffixes sf.

Definition cluster_alternatives (name : text) : list text :=
  match clusters_get KEYWORD_CLUSTERS name with
  | Some c =>
      patterns c ≫= (λ pt, match as_phrase pt.1 with
                            | Some (l, sf) => alternatives l sf
                            | None => []
                            end)
  | None => []
  end.

(** Can an occurrence of [mq] start [d] characters into an occurrence of
    [mp]?  Not when the character before it would be a letter of [mp], nor
    when the two strings disagree, up to case, where they overlap. *)
Definition compatible_at (mp mq : text) (d : nat) : bool :=
  match d with
  | 0 => true
  | S d' => match mp !! d' with
            | Some c => negb (ascii_letter c)
            | None => true
            end
  end &&
  forallb (λ k, match mp !! (d + k), mq !! k with
                | Some p, Some q => (ascii_tolower p =? ascii_tolower q)%N
                | _, _ => true
                end)
          (seq 0 (length mq)).

Definition never_overlap (mp mq : text) : bool :=
  forallb is_ascii mp && forallb is_ascii mq &&
  forallb (λ d, negb (compatible_at mp mq d)) (seq 0 (length mp)) &&
  forallb (λ d, negb (compatible_at mq mp d)) (seq 0 (length mq)).

(** No occurrence of a phrase of the first cluster overlaps one of a phrase
    of the second. *)
Definition clusters_apart (name1 name2 : text) : bool :=
  forallb (λ mp, forallb (never_overlap mp) (cluster_alternatives name2))
          (cluster_alternatives name1).

(** Assumptions on the Unicode tables of the interpreter: a character that
    [re.IGNORECASE] folds to an ASCII letter is a word character, and
    [str.upper] produces no ASCII lower-case letter. *)
Definition folded_letters_are_words (uni_word : N → bool) (uni_fold : N → N) : Prop :=
  ∀ c, is_ascii c = false → ascii_lower_letter (uni_fold c) = true →
       uni_word c = true.

Definition upper_never_lower (uni_upper : N → text) : Prop :=
  ∀ c, is_ascii c = false → ∀ y, y ∈ uni_upper c → ascii_lower_letter y = false.

Section PhraseMatching.

Variable uni_word : N → bool.
Variable uni_fold : N → N.

(** The characters of [l] against the start of [s], up to case. *)
Fixpoint lit_match (l s : text) : bool :=
  match l, s with
  | [], _ => true
  | _ :: _, [] => false
  | p :: l', c :: s' => ci_eq uni_fold p c && lit_match l' s'
  end.

Fixpoint suffix_end (alts : list text) (s : text) (e : nat) : option nat :=
  match alts with
  | [] => None
  | x :: alts' =>
      if lit_match x (drop e s) && at_boundary uni_word s (e + length x)
      then Some (e + length x)
      else suffix_end alts' s e
  end.

(** What [match_at] computes on a phrase pattern. *)
Definition phrase_match (l : text) (sf : suffix) (s : text) (i : nat)
    : option (nat * groups) :=
  if at_boundary uni_word s i && lit_match l (drop i s)
  then (λ j, (j, phrase_groups sf i (i + length l) j))
         <$> suffix_end (suffixes sf) s (i + length l)
  else None.

Definition left_free (s : text) (a : nat) : bool :=
  match a with
  | 0 => true
  | S a' => negb (word_at uni_word s a')
  end.

Definition right_free (s : text) (e : nat) : bool := negb (word_at uni_word s e).

(** [m] occurs in [s] at position [a], up to case, as whole words. *)
Definition occurs_at (m s : text) (a : nat) : bool :=
  left_free s a && lit_match m (drop a s) && right_free s (a + length m).

(** Some pattern of the list matches the text somewhere. *)
Definition any_match (ps : list (regex * template)) (s : text) : bool :=
  existsb (λ pt, bool_decide (is_Some (re_search uni_word uni_fold pt.1 s))) ps.

Definition any_cluster_matches (s : text) : bool :=
  existsb (λ kv : text * cluster, any_match (patterns kv.2) s) KEYWORD_CLUSTERS.

Definition cluster_matches (name : text) (s : text) : bool :=
  match clusters_get KEYWORD_CLUSTERS name with
  | Some c => any_match (patterns c) s
  | None => false
  end.

End PhraseMatching.

(** A template of the form [[\1](URL)] or [[\1\2](URL)] whose closing
    bracket and URL start with the link marker. *)
Definition is_link_template (t : template) : bool :=
  match t with
  | [TLit _; TGroup _; TLit b; TLit u; TLit _]
  | [TLit _; TGroup _; TGroup _; TLit b; TLit u; TLit _] =>
      startswith link_marker (b ++ u)
  | _ => false
  end.

(** The names of the four role clusters, in the order of the source. *)
Definition role_clusters : list text := [cp "CFO"; cp "CMO"; cp "CTO"; cp "COO"].

(** The evaluation order in the words of the specification: the cluster
    matching the role hint (exact cluster name, else the keyword fallback),
    then [general], then the remaining role clusters in their fixed order,
    skipping any already placed. *)
Definition spec_hint_cluster (role_upper : text) : list text :=
  if bool_decide (role_upper ∈ KEYWORD_CLUSTERS.*1) then [role_upper]
  else if py_in (cp "CFO") role_upper || py_in (cp "FINANCE") role_upper
  then [cp "CFO"]
  else if py_in (cp "CMO") role_upper || py_in (cp "MARKET") role_upper
  then [cp "CMO"]
  else if py_in (cp "CTO") role_upper || py_in (cp "TECH") role_upper
  then [cp "CTO"]
  else if py_in (cp "COO") role_upper || py_in (cp "OPERATION") role_upper
  then [cp "COO"]
  else [].

Definition spec_cluster_order (uni_upper : N → text) (role_hint : option text)
    : list text :=
  let first :=
    match role_hint with
    | Some h => spec_hint_cluster (str_upper uni_upper h)
    | None => []
    end in
  let placed := first ++ [cp "general"] in
  placed ++ filter (λ c, c ∉ placed) role_clusters.

(** The tables restricted to ASCII: no code point from 128 on is a word
    character, is folded or is changed by [upper]. *)
Definition ascii_only_word (c : N) : bool := false.
Definition ascii_only_fold (c : N) : N := c.
Definition ascii_only_upper (c : N) : text := [c].

Definition add_links_ascii (txt : string) (role : option string) : link_state :=
  add_links_to_description ascii_only_word ascii_only_fold ascii_only_upper
    (cp txt) (cp <$> role).

(** *** The links of a result, one at a time *)

Section LinkTrace.

Variable uni_word : N → bool.
Variable uni_fold : N → N.

(** [r'] is [r] with the link of the cluster [name]: the pattern applied is
    the first of the cluster, in the order of the table, that [r] matches;
    the span replaced, from [i] to [j], is its leftmost match, an
    occurrence up to case of the phrase [l] and of an end [x] of the
    pattern between two word boundaries; the text before and after the
    span is kept, and the span becomes the phrase as it was written in
    [[...](URL)] with the URL of the cluster. *)
Definition link_step (name : text) (r r' : text) : Prop :=
  ∃ c ps1 p t ps2 i j g l sf x,
    clusters_get KEYWORD_CLUSTERS name = Some c ∧
    patterns c = ps1 ++ (p, t) :: ps2 ∧
    any_match uni_word uni_fold ps1 r = false ∧
    re_search uni_word uni_fold p r = Some (i, j, g) ∧
    p = phrase_re l sf ∧ x ∈ suffixes sf ∧
    j = i + length l + length x ∧ j ≤ length r ∧
    at_boundary uni_word r i = true ∧
    lit_match uni_fold (l ++ x) (drop i r) = true ∧
    at_boundary uni_word r j = true ∧
    (∀ i', i' < i → match_at uni_word uni_fold p r i' = None) ∧
    r' = take i r
           ++ (cp "[" ++ take (length l) (drop i r)
                 ++ match sf with
                    | SYIes => take (length x) (drop (i + length l) r)
                    | _ => []
                    end
                 ++ cp "](" ++ url c ++ cp ")")
           ++ drop j r.

(** [links_inserted r names r'']: [r''] is [r] after one [link_step] for
    each cluster of [names], in that order, each on the text the steps
    before it left. *)
Inductive links_inserted : text → list text → text → Prop :=
  | links_none r : links_inserted r [] r
  | links_cons name names r r' r'' :
      link_step name r r' →
      links_inserted r' names r'' →
      links_inserted r (name :: names) r''.

End LinkTrace.

(** *** The argument as the caller passes it

    [process_jobs] passes [job['full_description']], which is a [str] or,
    for a NULL column, [None].  On [None] the test [marker in text] raises
    a [TypeError], as [re.search] would; a raised exception is [None] in
    the result. *)

Inductive pyval : Type :=
  | PyNone
  | PyStr (s : text).

(** [bool(v)]. *)
Definition py_truthy (v : pyval) : bool :=
  match v with
  | PyStr (_ :: _) => true
  | _ => false
  end.

(** [needle in v]. *)
Definition py_contains (needle : text) (v : pyval) : option bool :=
  match v with
  | PyNone => None
  | PyStr s => Some (py_in needle s)
  end.

Section LinkValues.

Variable uni_word : N → bool.
Variable uni_fold : N → N.
Variable uni_upper : N → text.

(** [add_links_to_description] on a [str] or [None], statement by
    statement: [if not text], then [if marker in text], then the loop;
    [txt] is the argument [text]. *)
Definition add_links_to_description_py (txt : pyval) (role_category : option text)
    : option (pyval * nat * list text) :=
  if negb (py_truthy txt) then Some (txt, 0, [])
  else
    has_link ← py_contains link_marker txt;
    if has_link : bool then Some (txt, 0, [])
    else
      match txt with
      | PyNone => None
      | PyStr s =>
          let '(result, links_added, clusters_used) :=
            link_loop uni_word uni_fold (cluster_order uni_upper role_category)
              (s, 0, []) in
          Some (PyStr result, links_added, clusters_used)
      end.

End LinkValues.

End Links.

(** ** scripts/fetch_brand_data_branddev.py *)

Module BrandDev.

(** [s.lstrip('#')]. *)
Fixpoint lstrip_hash (s : text) : text :=
  match s with
  | c :: s' => if (c =? chr "#")%N then lstrip_hash s' else s
  | [] => []
  end.

Definition hex_digit (c : N) : option Z :=
  if ascii_digit c then Some (Z.of_N c - 48)%Z
  else if (97 <=? c)%N && (c <=? 102)%N then Some (Z.of_N c - 87)%Z
  else if (65 <=? c)%N && (c <=? 70)%N then Some (Z.of_N c - 55)%Z
  else None.

Fixpoint hex_value (acc : Z) (s : text) : option Z :=
  match s with
  | [] => Some acc
  | c :: s' => d ← hex_digit c; hex_value (16 * acc + d)%Z s'
  end.

(** [int(s, 16)] where the model is exact: the value of a non-empty
    string of hexadecimal digits, and [None], the [ValueError], for the
    empty string.  The other strings give [None] as well, although [int]
    reads some of them (a sign, surrounding white space, digits outside
    ASCII): a theorem that concludes a brightness is about hexadecimal
    digits, one that concludes a failure about a string too short for its
    third pair. *)
Definition int16 (s : text) : option Z :=
  match s with
  | [] => None
  | _ => hex_value 0 s
  end.

(** [s[i:j]]. *)
Definition slice (i j : nat) (s : text) : text := take (j - i) (drop i s).

(** The quotient [(...) / 1000] is a float; the numerator is an integer
    below 2^53 and the float nearest to the exact quotient has the same
    integer part, so [int(...)] is the truncated integer quotient. *)
Definition calculate_brightness (hex_color : text) : option Z :=
  let hex_color := lstrip_hash hex_color in
  r ← int16 (slice 0 2 hex_color);
  g ← int16 (slice 2 4 hex_color);
  b ← int16 (slice 4 6 hex_color);
  Some ((r * 299 + g * 587 + b * 114) ÷ 1000)%Z.

Inductive color_type : Type := dark | light | brand | accent.

#[export] Instance color_type_eq_dec : EqDecision color_type.
Proof. solve_decision. Defined.

Record color : Type := {
  hex : text;
  type : color_type;
  brightness : Z
}.

(** One entry of [brand['colors']]; an absent key is [None]. *)
Record raw_color : Type := {
  raw_hex : option text;
  raw_name : option text
}.

Record raw_logo : Type := {
  logo_type : option text;
  logo_mode : option text;
  logo_url : option text
}.

Record raw_address : Type := {
  addr_city : option text;
  addr_country : option text
}.

(** The part of [api_response['brand']] that [extract_brand_data] reads,
    for a payload that is well typed: every key that is read is absent or
    holds a value of the type the code expects.  A key that is present
    with [null] or with a value of another type ([colors], [hex],
    [logos], [address]) makes the code raise and has no value here.
    [raw_eic] is [brand['industries']['eic']] with the [industry] field of
    each entry, and is empty when [industries] is absent or no dict. *)
Record raw_brand : Type := {
  raw_colors : list raw_color;
  raw_logos : list raw_logo;
  raw_backdrops : list (option text);
  raw_description : option text;
  raw_addr : raw_address;
  raw_eic : list (option text)
}.

Record brand_record : Type := {
  colors : list color;
  font_title : option text;
  font_body : option text;
  logos : gmap text (option text);
  banners : gmap text (option text);
  description : option text;
  founded : option Z;
  employees : option Z;
  city : option text;
  country : option text;
  company_kind : option text;
  industries : list text;
  quality_score : Q
}.

(** [bool(x)] for an optional string. *)
Definition truthy (x : option text) : bool :=
  match x with
  | Some (_ :: _) => true
  | _ => false
  end.

Definition nonempty {A} (l : list A) : bool :=
  match l with
  | [] => false
  | _ :: _ => true
  end.

(** Rounding of the quotient [n / d] ([0 < d]) to the nearest integer,
    ties to the even one, as [round] does. *)
Definition round_half_even (n d : Z) : Z :=
  let q := (n / d)%Z in
  let r := (n mod d)%Z in
  if (2 * r <? d)%Z then q
  else if (d <? 2 * r)%Z then (q + 1)%Z
  else if Z.even q then q else (q + 1)%Z.

(** [round(x, 2)], on the rational a float stands for. *)
Definition round2 (x : Q) : Q :=
  round_half_even (Qnum x * 100)%Z (Zpos (Qden x)) # 100.

Definition set_type (t : color_type) (c : color) : color :=
  {| hex := hex c; type := t; brightness := brightness c |}.

(** [colors.sort(key=lambda c: c['brightness'])]: the sort is stable. *)
Fixpoint insert_color (c : color) (l : list color) : list color :=
  match l with
  | [] => [c]
  | d :: l' =>
      if (brightness c <=? brightness d)%Z then c :: l
      else d :: insert_color c l'
  end.

Definition sort_colors (l : list color) : list color :=
  foldr insert_color [] l.

Definition override_types (colors : list color) : list color :=
  match colors with
  | [] => colors
  | _ :: _ =>
      let colors := alter (set_type dark) 0 colors in
      let colors :=
        if bool_decide (1 < length colors)
        then alter (set_type light) (length colors - 1) colors
        else colors in
      if bool_decide (2 < length colors)
      then alter (set_type accent) 1 colors
      else colors
  end.

(** The role a position of the sorted list of [n] colours ends with, given
    the role inferred for the entry. *)
Definition positional_type (n i : nat) (inferred : color_type) : color_type :=
  if bool_decide (i = 0) then dark
  else if bool_decide (i = n - 1) then light
  else if bool_decide (i = 1) then accent
  else inferred.

Section Normaliser.

(** [str.lower] of the interpreter. *)
Variable str_lower : text → text.

Definition infer_color_type (color_name : text) (brightness : Z)
    : color_type :=
  let name_lower :=
    match color_name with
    | _ :: _ => str_lower color_name
    | [] => []
    end in
  if (brightness <? 50)%Z then dark
  else if (200 <? brightness)%Z then light
  else if py_in (cp "primary") name_lower || py_in (cp "brand") name_lower
  then brand
  else if py_in (cp "accent") name_lower || py_in (cp "secondary") name_lower
  then accent
  else if (brightness <? 128)%Z then dark
  else accent.

(** The loop over [brand.get('colors', [])]. *)
Fixpoint classify_colors (l : list raw_color) : option (list color) :=
  match l with
  | [] => Some []
  | c :: l' =>
      let hex_val := default (cp "#888888") (raw_hex c) in
      b ← calculate_brightness hex_val;
      rest ← classify_colors l';
      Some ({| hex := hex_val;
               type := infer_color_type (default [] (raw_name c)) b;
               brightness := b |} :: rest)
  end.

Definition extract_colors (l : list raw_color) : option (list color) :=
  override_types ∘ sort_colors <$> classify_colors l.

Definition extract_logos (l : list raw_logo) : gmap text (option text) :=
  foldl (λ logos logo,
           let logo_type := default (cp "logo") (logo_type logo) in
           let mode := default (cp "dark") (logo_mode logo) in
           let mode :=
             if bool_decide (mode = cp "has_opaque_background")
             then cp "dark" else mode in
           let key := logo_type ++ cp "_" ++ mode in
           <[key := logo_url logo]> logos)
        ∅ l.

Definition extract_banners (backdrops : list (option text))
    : gmap text (option text) :=
  match backdrops with
  | [] => ∅
  | b :: _ => {[ cp "banner" := b ]}
  end.

Definition extract_industries (eic : list (option text)) : list text :=
  omap (λ ind, if truthy ind then ind else None) eic.

Definition quality_factors (colors : list color)
    (logos banners : gmap text (option text)) (b : raw_brand)
    (industries : list text) : list bool :=
  [ nonempty colors;
    negb (bool_decide (logos = ∅));
    negb (bool_decide (banners = ∅));
    truthy (raw_description b);
    truthy (addr_city (raw_addr b));
    nonempty industries ].

(** [sum(quality_factors)]. *)
Definition count_true (l : list bool) : nat :=
  length (filter (λ x, x = true) l).

Definition extract_brand_data (b : raw_brand) : option brand_record :=
  colors ← extract_colors (raw_colors b);
  let logos := extract_logos (raw_logos b) in
  let banners := extract_banners (raw_backdrops b) in
  let address := raw_addr b in
  let industries := extract_industries (raw_eic b) in
  let quality_factors := quality_factors colors logos banners b industries in
  let quality_score :=
    ((Z.of_nat (count_true quality_factors) # 1)
     / (Z.of_nat (length quality_factors) # 1))%Q in
  Some {| colors := colors;
          font_title := None;
          font_body := None;
          logos := logos;
          banners := banners;
          description := raw_description b;
          founded := None;
          employees := None;
          city := addr_city address;
          country := addr_country address;
          company_kind := None;
          industries := industries;
          quality_score := round2 quality_score |}.

End Normaliser.

(** [str.lower] restricted to ASCII. *)
Definition ascii_only_lower (s : text) : text := ascii_tolower <$> s.

End BrandDev.

(** ** scripts/fetch_brand_data.py *)

Module Brandfetch.

Record raw_color : Type := {
  color_hex : option text;
  color_type : option text;
  color_brightness : option Z
}.

Record raw_font : Type := {
  font_type : option text;
  font_name : option text
}.

Record raw_format : Type := {
  format : option text;
  src : option text
}.

Record raw_logo : Type := {
  logo_type : option text;
  logo_theme : option text;
  logo_formats : list raw_format
}.

Record raw_company : Type := {
  foundedYear : option Z;
  numberOfEmployees : option Z;
  company_industries : list (option text)
}.

(** The part of the response that [extract_brand_data] reads; an absent
    key is [None] or the empty list. *)
Record api_response : Type := {
  raw_colors : list raw_color;
  raw_fonts : list raw_font;
  raw_logos : list raw_logo;
  raw_description : option text;
  raw_company_info : raw_company;
  qualityScore : option Q
}.

Record brand_record : Type := {
  colors : list raw_color;
  font_title : option text;
  font_body : option text;
  logos : gmap text (option text);
  description : option text;
  founded : option Z;
  employees : option Z;
  location : option text;
  industries : list (option text);
  quality_score : option Q
}.

(** The loop over [fonts]: the last title and the last body font win. *)
Definition extract_fonts (fonts : list raw_font) : option text * option text :=
  foldl (λ '(font_title, font_body) font,
           if bool_decide (font_type font = Some (cp "title"))
           then (font_name font, font_body)
           else if bool_decide (font_type font = Some (cp "body"))
           then (font_title, font_name font)
           else (font_title, font_body))
        (None, None) fonts.

(** The loop over [formats], with its [break] at the first SVG. *)
Fixpoint best_format (key : text) (formats : list raw_format)
    (logos : gmap text (option text)) : gmap text (option text) :=
  match formats with
  | [] => logos
  | fmt :: formats' =>
      if bool_decide (format fmt = Some (cp "svg"))
      then <[key := src fmt]> logos
      else if bool_decide (format fmt = Some (cp "png"))
      then best_format key formats' (<[key := src fmt]> logos)
      else best_format key formats' logos
  end.

(** The URL the loop over [formats] leaves under the key, if any: the one
    of the first SVG entry, else the one of the last PNG entry. *)
Definition preferred_src (formats : list raw_format) : option (option text) :=
  match head (filter (λ f, format f = Some (cp "svg")) formats) with
  | Some f => Some (src f)
  | None => src <$> last (filter (λ f, format f = Some (cp "png")) formats)
  end.

(** The choice in the words of the specification: the vector format, else
    the first raster format encountered. *)
Definition spec_preferred_src (formats : list raw_format) : option (option text) :=
  match head (filter (λ f, format f = Some (cp "svg")) formats) with
  | Some f => Some (src f)
  | None => src <$> head (filter (λ f, format f = Some (cp "png")) formats)
  end.

Definition logo_key (logo : raw_logo) : text :=
  let logo_type := default (cp "logo") (logo_type logo) in
  let theme := default (cp "light") (logo_theme logo) in
  logo_type ++ cp "_" ++ theme.

Definition extract_logos (l : list raw_logo) : gmap text (option text) :=
  foldl (λ logos logo, best_format (logo_key logo) (logo_formats logo) logos) ∅ l.

Definition extract_brand_data (r : api_response) : brand_record :=
  let fonts := extract_fonts (raw_fonts r) in
  let company_info := raw_company_info r in
  {| colors := raw_colors r;
     font_title := fonts.1;
     font_body := fonts.2;
     logos := extract_logos (raw_logos r);
     description := raw_description r;
     founded := foundedYear company_info;
     employees := numberOfEmployees company_info;
     location := None;
     industries := company_industries company_info;
     quality_score := qualityScore r |}.

End Brandfetch.

(** ** The batch runs

    The scripts read rows of the [jobs] and [company_brands] tables, call
    the transformations above and write the results back.  A table is
    modelled by the columns the scripts read and write; the time stamps
    ([updated_date], [fetched_at]) and the console output are left out,
    apart from the one [print] that can raise.  What the database, the AI
    agent and the HTTP client return is an input of the run. *)

(** *** scripts/add_internal_links_simple.py: [process_jobs] *)

Module LinkRunner.

(** A row of [jobs]; a NULL column is [None]. *)
Record row : Type := {
  id : text;
  title : option text;
  company_name : option text;
  role_category : option text;
  full_description : option text;
  is_active : option bool
}.

(** The dict [fetch_jobs_without_links] returns for a row. *)
Record job : Type := {
  job_id : text;
  job_title : option text;
  job_company_name : option text;
  job_role_category : option text;
  job_full_description : option text
}.

Definition select_job (r : row) : job :=
  {| job_id := id r;
     job_title := title r;
     job_company_name := company_name r;
     job_role_category := role_category r;
     job_full_description := full_description r |}.

(** The [WHERE] clause of [fetch_jobs_without_links]:
    [is_active = true AND full_description IS NOT NULL AND
     full_description != '' AND full_description NOT LIKE '%](/fractional-jobs%']. *)
Definition where_unlinked (r : row) : bool :=
  match is_active r, full_description r with
  | Some true, Some ((_ :: _) as d) => negb (py_in Links.link_marker d)
  | _, _ => false
  end.

(** [UPDATE jobs SET full_description = %s WHERE id = %s]. *)
Definition update_job_description (db : list row) (job_id : text)
    (new_description : text) : list row :=
  (λ r, if bool_decide (id r = job_id)
        then {| id := id r;
                title := title r;
                company_name := company_name r;
                role_category := role_category r;
                full_description := Some new_description;
                is_active := is_active r |}
        else r) <$> db.

(** How a run ends: with its two counters, or with the [TypeError] of
    [job['title'][:50]] on a NULL title. *)
Inductive outcome : Type :=
  | Completed (success_count no_match_count : nat)
  | Crashed.

Section Run.

Variable uni_word : N → bool.
Variable uni_fold : N → N.
Variable uni_upper : N → text.

(** The [for i, job in enumerate(jobs)] loop; every update is committed at
    once, so the table at a crash is the one the earlier jobs left. *)
Fixpoint process_loop (dry_run : bool) (jobs : list job) (db : list row)
    (success_count no_match_count : nat) : list row * outcome :=
  match jobs with
  | [] => (db, Completed success_count no_match_count)
  | job :: jobs' =>
      match job_title job with
      | None => (db, Crashed)
      | Some _ =>
          match job_full_description job with
          | None => process_loop dry_run jobs' db success_count (no_match_count + 1)
          | Some text =>
              let '(updated_text, links_added, _) :=
                Links.add_links_to_description uni_word uni_fold uni_upper
                  text (job_role_category job) in
              if bool_decide (0 < links_added) then
                let db := if dry_run then db
                          else update_job_description db (job_id job) updated_text in
                process_loop dry_run jobs' db (success_count + 1) no_match_count
              else process_loop dry_run jobs' db success_count (no_match_count + 1)
          end
      end
  end.

(** The description the loop stores for a job, if any: the text
    [add_links_to_description] returns when it added a link. *)
Definition linked_text (job : job) : option text :=
  match job_full_description job with
  | None => None
  | Some text =>
      let '(updated_text, links_added, _) :=
        Links.add_links_to_description uni_word uni_fold uni_upper
          text (job_role_category job) in
      if bool_decide (0 < links_added) then Some updated_text else None
  end.

(** The description of the job has no link yet and a phrase of some
    cluster. *)
Definition has_link_phrase (job : job) : bool :=
  match job_full_description job with
  | None => false
  | Some text =>
      negb (py_in Links.link_marker text) &&
      Links.any_cluster_matches uni_word uni_fold text
  end.

(** [process_jobs], with the jobs [fetch_jobs_without_links] returned. *)
Definition process_jobs (dry_run : bool) (jobs : list job) (db : list row)
    : list row * outcome :=
  match jobs with
  | [] => (db, Completed 0 0)
  | _ :: _ => process_loop dry_run jobs db 0 0
  end.

End Run.

End LinkRunner.

(** *** scripts/add_internal_links.py: [process_jobs] *)

Module AiLinkRunner.

Import LinkRunner.

(** [LinkedDescription], the output of the agent. *)
Record linked_description : Type := {
  updated_description : text;
  links_added : Z;
  clusters_used : list text
}.

Inductive outcome : Type :=
  | Completed (success_count error_count : nat)
  | Crashed.

(** The jobs the loop passes over: already linked, unless [force_all]. *)
Definition skipped (force_all : bool) (job : job) : bool :=
  negb force_all &&
  py_in Links.link_marker (default [] (job_full_description job)).

Section Run.

(** [add_links_to_job] for the [i]-th job: the output of the agent, or
    [None] when the call raised. *)
Variable add_links_to_job : nat → job → option linked_description.

Fixpoint process_loop (force_all : bool) (i : nat) (jobs : list job)
    (db : list row) (success_count error_count : nat) : list row * outcome :=
  match jobs with
  | [] => (db, Completed success_count error_count)
  | job :: jobs' =>
      match job_title job with
      | None => (db, Crashed)
      | Some _ =>
          if skipped force_all job
          then process_loop force_all (S i) jobs' db success_count error_count
          else
            match add_links_to_job i job with
            | Some result =>
                if py_in Links.link_marker (updated_description result)
                then process_loop force_all (S i) jobs'
                       (update_job_description db (job_id job)
                          (updated_description result))
                       (success_count + 1) error_count
                else process_loop force_all (S i) jobs' db
                       success_count (error_count + 1)
            | None => process_loop force_all (S i) jobs' db
                        success_count (error_count + 1)
            end
      end
  end.

Definition process_jobs (force_all : bool) (jobs : list job) (db : list row)
    : list row * outcome :=
  match jobs with
  | [] => (db, Completed 0 0)
  | _ :: _ => process_loop force_all 0 jobs db 0 0
  end.

End Run.

End AiLinkRunner.

(** *** scripts/fetch_brand_data_branddev.py: [main] *)

Module BrandRunner.

(** The key a logo entry is stored under. *)
Definition logo_key (logo : BrandDev.raw_logo) : text :=
  let logo_type := default (cp "logo") (BrandDev.logo_type logo) in
  let mode := default (cp "dark") (BrandDev.logo_mode logo) in
  let mode :=
    if bool_decide (mode = cp "has_opaque_background") then cp "dark" else mode in
  logo_type ++ cp "_" ++ mode.

Record company : Type := {
  company_domain : text;
  company_name : option text
}.

(** A row of [company_brands], whose key is the domain. *)
Record brand_row : Type := {
  row_company_name : option text;
  row_data : BrandDev.brand_record;
  row_provider : text
}.

(** [save_brand_to_database]: [INSERT ... ON CONFLICT (domain) DO UPDATE]. *)
Definition save_brand_to_database (db : gmap text brand_row) (domain : text)
    (company_name : option text) (brand_data : BrandDev.brand_record)
    (provider : text) : gmap text brand_row :=
  <[domain := {| row_company_name := company_name;
                 row_data := brand_data;
                 row_provider := provider |}]> db.

Section Run.

Variable str_lower : text → text.

(** [fetch_brand_from_branddev] for the [i]-th company: [None] when there
    is no response, [Some None] when the response has no [brand] or an
    empty one, else the brand. *)
Variable fetch_brand : nat → text → option (option BrandDev.raw_brand).

(** The loop over [companies]; the [ValueError] of a colour that cannot be
    read is caught and counted. *)
Fixpoint main_loop (dry_run : bool) (i : nat) (companies : list company)
    (db : gmap text brand_row) (success_count skip_count error_count : nat)
    : gmap text brand_row * (nat * nat * nat) :=
  match companies with
  | [] => (db, (success_count, skip_count, error_count))
  | company :: companies' =>
      let domain := company_domain company in
      let name := company_name company in
      match fetch_brand i domain with
      | Some (Some brand) =>
          match BrandDev.extract_brand_data str_lower brand with
          | Some brand_data =>
              let db := if dry_run then db
                        else save_brand_to_database db domain name brand_data
                               (cp "branddev") in
              main_loop dry_run (S i) companies' db
                (success_count + 1) skip_count error_count
          | None =>
              main_loop dry_run (S i) companies' db
                success_count skip_count (error_count + 1)
          end
      | _ =>
          main_loop dry_run (S i) companies' db
            success_count (skip_count + 1) error_count
      end
  end.

(** [main]: [pending] is what [get_companies_without_brands] returned.
    Without an API key nothing is done. *)
Definition main (api_key : option text) (dry_run : bool) (domains : list text)
    (pending : list company) (db : gmap text brand_row)
    : gmap text brand_row * option (nat * nat * nat) :=
  match api_key with
  | Some (_ :: _) =>
      let companies :=
        match domains with
        | _ :: _ => (λ d, {| company_domain := d; company_name := Some d |}) <$> domains
        | [] => pending
        end in
      let '(db, counts) := main_loop dry_run 0 companies db 0 0 0 in
      (db, Some counts)
  | _ => (db, None)
  end.

End Run.

End BrandRunner.

(** * Properties *)

Import Links.

(** ** The table of clusters *)

Lemma clusters_get_elem_of d name c :
  clusters_get d name = Some c → (name, c) ∈ d.
Proof.
  induction d as [|[k v] d IH]; simpl; [done|].
  case_bool_decide as Hk.
  - intros [= ->]. subst. apply list_elem_of_here.
  - intros H. apply list_elem_of_further. auto.
Qed.

Lemma keyword_templates name c p t :
  clusters_get KEYWORD_CLUSTERS name = Some c → (p, t) ∈ patterns c →
  is_link_template t = true.
Proof.
  intros Hc Hp. apply clusters_get_elem_of in Hc.
  assert (Forall (λ kv, Forall (λ pt, is_link_template pt.2 = true) (patterns kv.2))
            KEYWORD_CLUSTERS) as Hall.
  { apply (bool_decide_unpack _). by vm_compute. }
  rewrite Forall_forall in Hall. specialize (Hall _ Hc).
  rewrite Forall_forall in Hall. apply (Hall _ Hp).
Qed.

Lemma keyword_names name :
  clusters_has KEYWORD_CLUSTERS name = true →
  name ∈ role_clusters ++ [cp "general"].
Proof.
  unfold clusters_has. intros H. apply bool_decide_eq_true in H as [c H].
  unfold KEYWORD_CLUSTERS, clusters_get in H.
  repeat (case_bool_decide;
          [subst name; apply (bool_decide_unpack _); by vm_compute|]).
  done.
Qed.

(** ** Substring test *)

Lemma startswith_app (m z : text) : startswith m (m ++ z) = true.
Proof.
  induction m as [|a m IH]; simpl; [done|].
  by rewrite N.eqb_refl, IH.
Qed.

Lemma startswith_spec (m s : text) :
  startswith m s = true ↔ ∃ z, s = m ++ z.
Proof.
  split.
  - revert s. induction m as [|a m IH]; intros s H; simpl in *.
    + by exists s.
    + destruct s as [|b s]; [done|].
      apply andb_prop in H as [Hab H]. apply N.eqb_eq in Hab as ->.
      destruct (IH _ H) as [z ->]. by exists z.
  - intros [z ->]. apply startswith_app.
Qed.

Lemma py_in_startswith (m s : text) : startswith m s = true → py_in m s = true.
Proof. intros H. destruct s; simpl; by rewrite H. Qed.

Lemma py_in_spec (m s : text) :
  py_in m s = true ↔ ∃ a b, s = a ++ m ++ b.
Proof.
  split.
  - induction s as [|c s IH]; simpl; intros H.
    + rewrite orb_false_r in H. apply startswith_spec in H as [z ->].
      by exists [], z.
    + apply orb_prop in H as [H|H].
      * apply startswith_spec in H as [z ->]. by exists [], z.
      * destruct (IH H) as (a & b & ->). by exists (c :: a), b.
  - intros (a & b & ->). induction a as [|c a IH]; simpl.
    + apply py_in_startswith, startswith_app.
    + rewrite IH. apply orb_true_r.
Qed.

(** ** The link loop *)

Section LinkFacts.

Variable uni_word : N → bool.
Variable uni_fold : N → N.
Variable uni_upper : N → text.

Local Abbreviation re_search := (Links.re_search uni_word uni_fold).
Local Abbreviation re_sub1 := (Links.re_sub1 uni_word uni_fold).
Local Abbreviation try_patterns := (Links.try_patterns uni_word uni_fold).
Local Abbreviation link_loop := (Links.link_loop uni_word uni_fold).
Local Abbreviation str_upper := (Links.str_upper uni_upper).
Local Abbreviation cluster_order := (Links.cluster_order uni_upper).
Local Abbreviation add_links_to_description :=
  (Links.add_links_to_description uni_word uni_fold uni_upper).

(** The inner loop stops at the first pattern, in list order, that the
    current text matches. *)
Lemma try_patterns_cases name ps r n cs :
  (Forall (λ pt, re_search pt.1 r = None) ps ∧
   try_patterns name ps (r, n, cs) = (r, n, cs)) ∨
  (∃ ps1 p t ps2,
      ps = ps1 ++ (p, t) :: ps2 ∧
      Forall (λ pt, re_search pt.1 r = None) ps1 ∧
      is_Some (re_search p r) ∧
      try_patterns name ps (r, n, cs) = (re_sub1 p t r, n + 1, cs ++ [name])).
Proof.
  induction ps as [|[p t] ps IH]; simpl.
  - left. by split.
  - case_bool_decide as Hs.
    + right. exists [], p, t, ps. by repeat split.
    + assert (re_search p r = None) as Hn.
      { destruct (re_search p r); [|done]. destruct Hs; eauto. }
      destruct IH as [[Hall IH]|(ps1 & p' & t' & ps2 & -> & Hall & Hsome & IH)].
      * left. split; [by constructor|done].
      * right. exists ((p, t) :: ps1), p', t', ps2.
        repeat split; [by constructor|done|done].
Qed.

Lemma link_loop_cons name order r n cs :
  link_loop (name :: order) (r, n, cs) =
    if bool_decide (max_links ≤ n) then (r, n, cs)
    else match clusters_get KEYWORD_CLUSTERS name with
         | None => link_loop order (r, n, cs)
         | Some c => link_loop order (try_patterns name (patterns c) (r, n, cs))
         end.
Proof. done. Qed.

Lemma link_loop_inv order r n cs :
  n = length cs → n ≤ max_links →
  ∃ r' sub,
    link_loop order (r, n, cs) = (r', length (cs ++ sub), cs ++ sub) ∧
    sub `sublist_of` order ∧
    length (cs ++ sub) ≤ max_links.
Proof.
  revert r n cs. induction order as [|name order IH]; intros r n cs -> Hle.
  - exists r, []. rewrite app_nil_r. by repeat split.
  - rewrite link_loop_cons. case_bool_decide as Hmax.
    + exists r, []. rewrite app_nil_r. repeat split; [apply sublist_nil_l|done].
    + destruct (clusters_get KEYWORD_CLUSTERS name) as [c|].
      * destruct (try_patterns_cases name (patterns c) r (length cs) cs)
          as [[_ ->]|(ps1 & p & t & ps2 & _ & _ & _ & ->)].
        -- destruct (IH r _ cs eq_refl Hle) as (r' & sub & -> & Hsub & Hlen).
           exists r', sub. repeat split; [by apply sublist_cons|done].
        -- destruct (IH (re_sub1 p t r) (length cs + 1) (cs ++ [name]))
             as (r' & sub & -> & Hsub & Hlen).
           { rewrite length_app. simpl. lia. }
           { unfold max_links in *. lia. }
           exists r', (name :: sub). rewrite <- !app_assoc in *. simpl in *.
           repeat split; [by apply sublist_skip|done].
      * destruct (IH r _ cs eq_refl Hle) as (r' & sub & -> & Hsub & Hlen).
        exists r', sub. repeat split; [by apply sublist_cons|done].
Qed.

(** The clusters that contributed, in order, are picked from the
    evaluation order. *)
Lemma add_links_sublist txt hint :
  ∃ r' used,
    add_links_to_description txt hint = (r', length used, used) ∧
    used `sublist_of` cluster_order hint ∧
    length used ≤ max_links.
Proof.
  unfold add_links_to_description. destruct txt as [|c txt].
  - exists [], []. repeat split; [apply sublist_nil_l|unfold max_links; simpl; lia].
  - destruct (py_in link_marker (c :: txt)).
    + exists (c :: txt), []. repeat split; [apply sublist_nil_l|unfold max_links; simpl; lia].
    + destruct (link_loop_inv (cluster_order hint) (c :: txt) 0 [] eq_refl)
        as (r' & sub & H & Hsub & Hlen); [unfold max_links; lia|].
      exists r', sub. by repeat split.
Qed.

(** Induction over the links the loop inserts. *)
Lemma link_loop_ind (P : link_state → Prop) :
  (∀ name c p t r n cs,
      clusters_get KEYWORD_CLUSTERS name = Some c →
      (p, t) ∈ patterns c →
      is_Some (re_search p r) →
      n < max_links →
      P (r, n, cs) →
      P (re_sub1 p t r, n + 1, cs ++ [name])) →
  ∀ order st, P st → P (link_loop order st).
Proof.
  intros Hstep order. induction order as [|name order IH]; intros [[r n] cs] HP.
  - done.
  - rewrite link_loop_cons. case_bool_decide as Hmax; [done|].
    destruct (clusters_get KEYWORD_CLUSTERS name) as [c|] eqn:Hc; [|by apply IH].
    destruct (try_patterns_cases name (patterns c) r n cs)
      as [[_ ->]|(ps1 & p & t & ps2 & Hps & _ & Hsome & ->)]; [by apply IH|].
    apply IH. eapply Hstep; eauto; [|lia].
    rewrite Hps. apply elem_of_app. right. apply list_elem_of_here.
Qed.

Lemma expand_link_template t s g :
  is_link_template t = true → py_in link_marker (expand t s g) = true.
Proof.
  intros H.
  assert (∀ a x b u c, startswith link_marker (b ++ u) = true →
            py_in link_marker (a ++ x ++ b ++ u ++ c) = true) as Hin.
  { intros a x b u c Hb. apply startswith_spec in Hb as [z Hz].
    apply py_in_spec. exists (a ++ x), (z ++ c).
    rewrite <- !app_assoc. do 2 f_equal.
    rewrite (app_assoc b u), Hz, <- app_assoc. done. }
  destruct t as [|[a|] [|[|n1] [|[b|n2] [|[u|] [|[c|] [|[c'|] [|]]]]]]]; try done;
    simpl in H; unfold expand; simpl; rewrite ?app_nil_r.
  - by apply Hin.
  - rewrite (app_assoc (group_text s g n1)). by apply Hin.
Qed.

Lemma re_sub1_marker name c p t r :
  clusters_get KEYWORD_CLUSTERS name = Some c → (p, t) ∈ patterns c →
  is_Some (re_search p r) →
  py_in link_marker (re_sub1 p t r) = true.
Proof.
  intros Hc Hp [[[i j] g] Hs]. unfold re_sub1. rewrite Hs.
  pose proof (expand_link_template t r g (keyword_templates _ _ _ _ Hc Hp)) as H.
  apply py_in_spec in H as (a & b & ->). apply py_in_spec.
  exists (take i r ++ a), (b ++ drop j r). by rewrite <- !app_assoc.
Qed.

Lemma add_links_marker txt hint :
  0 < (add_links_to_description txt hint).1.2 →
  py_in link_marker (add_links_to_description txt hint).1.1 = true.
Proof.
  unfold add_links_to_description. destruct txt as [|c txt]; [simpl; lia|].
  destruct (py_in link_marker (c :: txt)); [simpl; lia|].
  apply (link_loop_ind (λ st, 0 < st.1.2 → py_in link_marker st.1.1 = true)).
  - intros name cl p t r n cs Hc Hp Hs _ _ _. simpl. by eapply re_sub1_marker.
  - simpl. lia.
Qed.

Lemma add_links_guard txt hint :
  py_in link_marker txt = true → add_links_to_description txt hint = (txt, 0, []).
Proof.
  intros H. unfold add_links_to_description. destruct txt; [done|]. by rewrite H.
Qed.

Lemma clusters_has_fst d name :
  clusters_has d name = bool_decide (name ∈ d.*1).
Proof.
  unfold clusters_has. induction d as [|[k v] d IH]; simpl.
  - done.
  - destruct (decide (k = name)) as [->|Hk].
    + rewrite (bool_decide_eq_true_2 (name = name)) by done.
      rewrite !bool_decide_eq_true_2; [done|apply list_elem_of_here|by eexists].
    + rewrite (bool_decide_eq_false_2 (k = name)) by done.
      rewrite IH. apply bool_decide_ext. simpl. rewrite elem_of_cons.
      split; [by right|intros [?|?]; [congruence|done]].
Qed.

Ltac order_cases u :=
  repeat match goal with
         | |- context [py_in ?a u || py_in ?b u] =>
             destruct (py_in a u || py_in b u)
         end.

(** The order built by [insert(0, ...)] and the [append] loop is the one
    the specification describes. *)
Lemma cluster_order_spec hint :
  cluster_order hint = spec_cluster_order uni_upper hint.
Proof.
  unfold cluster_order, spec_cluster_order, spec_hint_cluster.
  destruct hint as [[|c h]|]; [by vm_compute| |by vm_compute].
  rewrite <- clusters_has_fst.
  generalize (str_upper (c :: h)). intros u.
  destruct (clusters_has KEYWORD_CLUSTERS u) eqn:E.
  - apply keyword_names in E. unfold role_clusters in E. simpl in E.
    repeat (apply elem_of_cons in E as [->|E]; [by vm_compute|]).
    by apply elem_of_nil in E.
  - order_cases u; by vm_compute.
Qed.

Lemma ascii_toupper_not_lower c : ascii_lower_letter (ascii_toupper c) = false.
Proof.
  unfold ascii_toupper. destruct (ascii_lower_letter c) eqn:E; [|done].
  unfold ascii_lower_letter in *. apply andb_prop in E as [E1 E2].
  apply N.leb_le in E1, E2. apply andb_false_iff. left. apply N.leb_gt. lia.
Qed.

Lemma str_upper_not_lower s x :
  upper_never_lower uni_upper →
  x ∈ str_upper s → ascii_lower_letter x = false.
Proof.
  intros Hup Hx. unfold Links.str_upper in Hx.
  apply list_elem_of_bind in Hx as (c & Hx & _).
  destruct (is_ascii c) eqn:Hc.
  - apply list_elem_of_singleton in Hx as ->. apply ascii_toupper_not_lower.
  - by eapply Hup.
Qed.

Lemma cluster_order_NoDup hint :
  upper_never_lower uni_upper →
  NoDup (cluster_order hint).
Proof.
  intros Hup. unfold cluster_order.
  destruct hint as [[|c h]|];
    [apply (bool_decide_unpack _); by vm_compute|
    |apply (bool_decide_unpack _); by vm_compute].
  pose proof (str_upper_not_lower (c :: h)) as Hlow.
  revert Hlow. generalize (str_upper (c :: h)). intros u Hlow.
  destruct (clusters_has KEYWORD_CLUSTERS u) eqn:E.
  - apply keyword_names in E. unfold role_clusters in E. simpl in E.
    repeat (apply elem_of_cons in E as [->|E];
            [try (apply (bool_decide_unpack _); by vm_compute)|]).
    + specialize (Hlow (chr "g") Hup). discriminate Hlow.
      apply (bool_decide_unpack _). by vm_compute.
    + by apply elem_of_nil in E.
  - order_cases u; apply (bool_decide_unpack _); by vm_compute.
Qed.

Lemma cluster_order_upper h1 h2 :
  str_upper h1 = str_upper h2 →
  cluster_order (Some h1) = cluster_order (Some h2).
Proof.
  intros H. unfold cluster_order.
  destruct h1 as [|c1 h1], h2 as [|c2 h2]; [done| | |by rewrite H].
  - rewrite <- H. by vm_compute.
  - rewrite H. by vm_compute.
Qed.

Local Abbreviation add_links_to_description_py :=
  (Links.add_links_to_description_py uni_word uni_fold uni_upper).

(** On a [str] the function on values is the function on texts. *)
Lemma add_links_to_description_py_str txt hint :
  add_links_to_description_py (PyStr txt) hint
  = Some (let '(out, links_added, clusters_used) :=
            add_links_to_description txt hint in
          (PyStr out, links_added, clusters_used)).
Proof.
  unfold Links.add_links_to_description_py, Links.add_links_to_description.
  destruct txt as [|c txt]; [done|].
  change (py_truthy (PyStr (c :: txt))) with true.
  change (py_contains link_marker (PyStr (c :: txt)))
    with (Some (py_in link_marker (c :: txt))).
  cbn [negb mbind option_bind].
  destruct (py_in link_marker (c :: txt)); [done|].
  by destruct (link_loop _ _) as [[out n] cs].
Qed.

(** C9: a falsy argument, the empty string or [None], is returned as it
    is, with no link and no cluster, whatever the role hint, and not as an
    exception.  On [None] the test for an existing link, the statement
    after the first test, raises a [TypeError]: the return comes before
    it.  With the first test in place the function raises on no argument,
    and on a string it is the function on texts of the other theorems, for
    which the empty text gives the empty text, 0 and no cluster. *)
Theorem C9_empty_text :
  (∀ v hint, py_truthy v = false →
             add_links_to_description_py v hint = Some (v, 0, [])) ∧
  py_contains link_marker PyNone = None ∧
  (∀ v hint, is_Some (add_links_to_description_py v hint)) ∧
  (∀ txt hint,
      add_links_to_description_py (PyStr txt) hint
      = Some (let '(out, links_added, clusters_used) :=
                add_links_to_description txt hint in
              (PyStr out, links_added, clusters_used))) ∧
  (∀ hint, add_links_to_description [] hint = ([], 0, [])).
Proof.
  split; [|split; [done|split; [|split; [exact add_links_to_description_py_str|done]]]].
  - intros v hint Hv. unfold Links.add_links_to_description_py. by rewrite Hv.
  - intros [|txt] hint; [by eexists|].
    rewrite add_links_to_description_py_str. by eexists.
Qed.

(** C1: a text that already contains the marker [](/fractional-jobs] is
    returned unchanged with no link and no cluster; every output with at
    least one link added contains the marker, and applying the function
    to an output that contains it, under any role hint, adds nothing: a
    second run on an output with links returns it with 0 links. *)
Theorem C1_existing_link_guard txt hint hint' :
  (py_in link_marker txt = true →
   add_links_to_description txt hint = (txt, 0, [])) ∧
  (let '(out, links_added, _) := add_links_to_description txt hint in
   (0 < links_added → py_in link_marker out = true) ∧
   (py_in link_marker out = true →
    add_links_to_description out hint' = (out, 0, [])) ∧
   (0 < links_added → add_links_to_description out hint' = (out, 0, []))).
Proof.
  split; [apply add_links_guard|].
  pose proof (add_links_marker txt hint) as Hm.
  destruct (add_links_to_description txt hint) as [[out n] cs]. simpl in Hm.
  split; [done|]. split; [apply add_links_guard|].
  intros Hn. by apply add_links_guard, Hm.
Qed.

(** C2: the number of links added is the number of clusters used, it is
    at most [max_links] = 3, and no cluster name occurs twice.  The
    assumption on the interpreter's table: [str.upper] produces no ASCII
    lower-case letter. *)
Theorem C2_budget_and_exclusivity txt hint :
  upper_never_lower uni_upper →
  let '(_, links_added, clusters_used) := add_links_to_description txt hint in
  links_added = length clusters_used ∧
  links_added ≤ 3 ∧
  NoDup clusters_used.
Proof.
  intros Hup.
  destruct (add_links_sublist txt hint)
    as (r' & used & -> & Hsub & Hlen).
  repeat split; [done|].
  eapply sublist_NoDup; [by apply cluster_order_NoDup|exact Hsub].
Qed.

(** C10: two role hints with the same upper-case form give the same
    result on every text. *)
Theorem C10_hint_case_insensitive h1 h2 txt :
  str_upper h1 = str_upper h2 →
  add_links_to_description txt (Some h1) = add_links_to_description txt (Some h2).
Proof.
  intros H. unfold add_links_to_description.
  by rewrite (cluster_order_upper h1 h2 H).
Qed.

End LinkFacts.

Lemma ascii_only_upper_never_lower : upper_never_lower ascii_only_upper.
Proof.
  intros c Hc y Hy. apply list_elem_of_singleton in Hy as ->.
  unfold is_ascii, ascii_lower_letter in *. apply N.ltb_ge in Hc.
  apply andb_false_iff. right. apply N.leb_gt. lia.
Defined.

(** C9 on [None], under a hint. *)
Lemma C9_witness :
  py_truthy PyNone = false ∧
  Links.add_links_to_description_py ascii_only_word ascii_only_fold ascii_only_upper
    PyNone (Some (cp "CFO"))
  = Some (PyNone, 0, []).
Proof.
  split; [done|].
  exact (proj1 (C9_empty_text ascii_only_word ascii_only_fold ascii_only_upper)
           PyNone (Some (cp "CFO")) eq_refl).
Defined.

(** C1 on a description that already holds a link. *)
Lemma C1_witness :
  py_in link_marker (cp "see [fractional CFO](/fractional-jobs?role=CFO)") = true ∧
  add_links_ascii "see [fractional CFO](/fractional-jobs?role=CFO)" (Some "CFO"%string)
  = (cp "see [fractional CFO](/fractional-jobs?role=CFO)", 0, []).
Proof.
  split; [by vm_compute|].
  apply (proj1 (C1_existing_link_guard
                  ascii_only_word ascii_only_fold ascii_only_upper
                  (cp "see [fractional CFO](/fractional-jobs?role=CFO)")
                  (Some (cp "CFO")) None)).
  by vm_compute.
Defined.

(** C2 on a description with phrases of four clusters. *)
Lemma C2_witness :
  upper_never_lower ascii_only_upper ∧
  let '(_, links_added, clusters_used) :=
    add_links_ascii
      "Fractional CFOs, a CMO role, CTO opportunities and fractional jobs"
      (Some "marketing"%string) in
  links_added = length clusters_used ∧ links_added ≤ 3 ∧ NoDup clusters_used.
Proof.
  split; [exact ascii_only_upper_never_lower|].
  apply (C2_budget_and_exclusivity ascii_only_word ascii_only_fold ascii_only_upper
           (cp "Fractional CFOs, a CMO role, CTO opportunities and fractional jobs")
           (Some (cp "marketing"))).
  exact ascii_only_upper_never_lower.
Defined.

(** C10 on the hints [cfo] and [CFO]. *)
Lemma C10_witness :
  str_upper ascii_only_upper (cp "cfo") = str_upper ascii_only_upper (cp "CFO") ∧
  add_links_ascii "a fractional cfo role" (Some "cfo"%string)
  = add_links_ascii "a fractional cfo role" (Some "CFO"%string).
Proof.
  split; [by vm_compute|].
  apply (C10_hint_case_insensitive ascii_only_word ascii_only_fold ascii_only_upper
           (cp "cfo") (cp "CFO") (cp "a fractional cfo role")).
  by vm_compute.
Defined.

(** ** The matcher on phrase patterns *)

Section PhraseFacts.

Variable uni_word : N → bool.
Variable uni_fold : N → N.

Local Abbreviation is_word := (Links.is_word uni_word).
Local Abbreviation word_at := (Links.word_at uni_word).
Local Abbreviation at_boundary := (Links.at_boundary uni_word).
Local Abbreviation ci_eq := (Links.ci_eq uni_fold).
Local Abbreviation bt := (Links.bt uni_word uni_fold).
Local Abbreviation match_at := (Links.match_at uni_word uni_fold).
Local Abbreviation search_from := (Links.search_from uni_word uni_fold).
Local Abbreviation re_search := (Links.re_search uni_word uni_fold).
Local Abbreviation re_sub1 := (Links.re_sub1 uni_word uni_fold).
Local Abbreviation lit_match := (Links.lit_match uni_fold).
Local Abbreviation suffix_end := (Links.suffix_end uni_word uni_fold).
Local Abbreviation phrase_match := (Links.phrase_match uni_word uni_fold).
Local Abbreviation left_free := (Links.left_free uni_word).
Local Abbreviation right_free := (Links.right_free uni_word).
Local Abbreviation occurs_at := (Links.occurs_at uni_word uni_fold).
Local Abbreviation try_patterns := (Links.try_patterns uni_word uni_fold).
Local Abbreviation any_match := (Links.any_match uni_word uni_fold).
Local Abbreviation any_cluster_matches := (Links.any_cluster_matches uni_word uni_fold).
Local Abbreviation cluster_matches := (Links.cluster_matches uni_word uni_fold).

Lemma lit_match_drop p l s i :
  lit_match (p :: l) (drop i s)
  = match s !! i with
    | Some c => ci_eq p c && lit_match l (drop (S i) s)
    | None => false
    end.
Proof.
  destruct (s !! i) as [c|] eqn:E.
  - by rewrite (drop_S _ _ _ E).
  - by rewrite (drop_ge s i) by (by apply lookup_ge_None).
Qed.

Lemma bt_lits {A} l s i g (k : nat → groups → option A) :
  bt (lits l) s i g k
  = if lit_match l (drop i s) then k (i + length l) g else None.
Proof.
  revert i. induction l as [|p l IH]; intros i.
  - simpl. by rewrite Nat.add_0_r.
  - rewrite lit_match_drop. simpl. destruct (s !! i) as [c|]; [|done].
    destruct (ci_eq p c); [|done]. rewrite IH. simpl.
    by rewrite Nat.add_succ_r.
Qed.

Lemma bt_chr {A} p s i g (k : nat → groups → option A) :
  bt (Chr p) s i g k
  = if lit_match [p] (drop i s) then k (i + 1) g else None.
Proof.
  rewrite lit_match_drop. simpl. destruct (s !! i) as [c|]; [|done].
  destruct (ci_eq p c); [|done]. simpl. by rewrite Nat.add_1_r.
Qed.

Lemma bt_cat {A} r1 r2 s i g (k : nat → groups → option A) :
  bt (Cat r1 r2) s i g k = bt r1 s i g (λ j g', bt r2 s j g' k).
Proof. done. Qed.

Lemma bt_wordb {A} s i g (k : nat → groups → option A) :
  bt WordB s i g k = if at_boundary s i then k i g else None.
Proof. done. Qed.

Lemma bt_opt {A} r s i g (k : nat → groups → option A) :
  bt (Opt r) s i g k
  = match bt r s i g k with Some x => Some x | None => k i g end.
Proof. done. Qed.

Lemma bt_alt {A} r1 r2 s i g (k : nat → groups → option A) :
  bt (Alt r1 r2) s i g k
  = match bt r1 s i g k with Some x => Some x | None => bt r2 s i g k end.
Proof. done. Qed.

Lemma bt_grp {A} n r s i g (k : nat → groups → option A) :
  bt (Grp n r) s i g k = bt r s i g (λ j g', k j (<[n := (i, j)]> g')).
Proof. done. Qed.

(** The backtracking matcher on a phrase pattern: a word boundary, the
    phrase, the first end that is followed by a word boundary. *)
Lemma match_at_phrase l sf s i :
  match_at (phrase_re l sf) s i = phrase_match l sf s i.
Proof.
  unfold Links.match_at, Links.phrase_match, phrase_re.
  cbn [Links.bt]. destruct (at_boundary s i); [|done].
  rewrite bt_lits. destruct (lit_match l (drop i s)); [|done].
  cbn [andb]. destruct sf; cbn [suffix_re suffixes Links.suffix_end phrase_groups].
  - rewrite bt_cat, bt_opt, bt_chr, !bt_wordb.
    change (length (cp "s")) with 1. change (length (@nil N)) with 0.
    rewrite !Nat.add_0_r.
    destruct (lit_match [chr "s"] (drop (i + length l) s)) eqn:E1;
      change (chr "s" :: []) with (cp "s") in E1; rewrite E1; cbn [andb].
    + destruct (at_boundary s (i + length l + 1)); [done|].
      by destruct (at_boundary s (i + length l)).
    + by destruct (at_boundary s (i + length l)).
  - rewrite bt_cat, bt_grp, bt_alt, !bt_lits, !bt_wordb.
    change (length (cp "y")) with 1. change (length (cp "ies")) with 3.
    destruct (lit_match (cp "y") (drop (i + length l) s)); cbn [andb].
    + destruct (at_boundary s (i + length l + 1)); [done|].
      destruct (lit_match (cp "ies") (drop (i + length l) s)); [|done].
      by destruct (at_boundary s (i + length l + 3)).
    + destruct (lit_match (cp "ies") (drop (i + length l) s)); [|done].
      by destruct (at_boundary s (i + length l + 3)).
  - rewrite bt_wordb. change (length (@nil N)) with 0. rewrite !Nat.add_0_r.
    by destruct (at_boundary s (i + length l)).
Qed.

Lemma search_from_Some r s fuel i0 i j g :
  search_from r s fuel i0 = Some (i, j, g) →
  match_at r s i = Some (j, g) ∧ i0 ≤ i < i0 + fuel ∧
  ∀ i', i0 ≤ i' < i → match_at r s i' = None.
Proof.
  revert i0. induction fuel as [|fuel IH]; intros i0; simpl; [done|].
  destruct (match_at r s i0) as [[j' g']|] eqn:E.
  - intros [= <- <- <-]. repeat split; [done|lia..|]. intros i' ?. lia.
  - intros H. destruct (IH _ H) as (Hm & Hr & Hleft).
    repeat split; [done|lia..|]. intros i' Hi'.
    destruct (decide (i' = i0)) as [->|]; [done|]. apply Hleft. lia.
Qed.

Lemma search_from_None r s fuel i0 :
  search_from r s fuel i0 = None →
  ∀ i', i0 ≤ i' < i0 + fuel → match_at r s i' = None.
Proof.
  revert i0. induction fuel as [|fuel IH]; intros i0; simpl; [intros _ i' ?; lia|].
  destruct (match_at r s i0) as [[j' g']|] eqn:E; [done|].
  intros H i' Hi'. destruct (decide (i' = i0)) as [->|]; [done|].
  apply (IH _ H). lia.
Qed.

(** [re.search] returns the match at the leftmost position that has one. *)
Lemma re_search_Some r s i j g :
  re_search r s = Some (i, j, g) →
  match_at r s i = Some (j, g) ∧ i ≤ length s ∧
  ∀ i', i' < i → match_at r s i' = None.
Proof.
  intros H. apply search_from_Some in H as (Hm & Hr & Hleft).
  repeat split; [done|lia|]. intros i' ?. apply Hleft. lia.
Qed.

Lemma re_search_None r s i :
  re_search r s = None → i ≤ length s → match_at r s i = None.
Proof. intros H Hi. apply (search_from_None _ _ _ _ H). lia. Qed.

Lemma re_search_is_Some r s i :
  is_Some (match_at r s i) → i ≤ length s → is_Some (re_search r s).
Proof.
  intros [x Hx] Hi. destruct (re_search r s) as [y|] eqn:E; [by eexists|].
  rewrite (re_search_None _ _ _ E Hi) in Hx. done.
Qed.

Lemma suffix_end_Some alts s e j :
  suffix_end alts s e = Some j →
  ∃ x, x ∈ alts ∧ lit_match x (drop e s) = true ∧
       at_boundary s j = true ∧ j = e + length x.
Proof.
  induction alts as [|x alts IH]; simpl; [done|].
  destruct (lit_match x (drop e s) && at_boundary s (e + length x)) eqn:E.
  - intros [= <-]. apply andb_prop in E as [E1 E2].
    exists x. repeat split; [apply list_elem_of_here|done..].
  - intros H. destruct (IH H) as (y & Hy & ?). exists y.
    split; [by apply list_elem_of_further|done].
Qed.

Lemma suffix_end_is_Some alts s e x :
  x ∈ alts → lit_match x (drop e s) = true →
  at_boundary s (e + length x) = true →
  is_Some (suffix_end alts s e).
Proof.
  intros Hx H1 H2. induction alts as [|y alts IH]; simpl.
  - by apply elem_of_nil in Hx.
  - destruct (lit_match y (drop e s) && at_boundary s (e + length y)) eqn:E;
      [by eexists|].
    apply elem_of_cons in Hx as [->|Hx]; [|by apply IH].
    by rewrite H1, H2 in E.
Qed.

Lemma phrase_match_Some l sf s i j g :
  phrase_match l sf s i = Some (j, g) →
  at_boundary s i = true ∧ lit_match l (drop i s) = true ∧
  g = phrase_groups sf i (i + length l) j ∧
  ∃ x, x ∈ suffixes sf ∧ lit_match x (drop (i + length l) s) = true ∧
       at_boundary s j = true ∧ j = i + length l + length x.
Proof.
  unfold Links.phrase_match.
  destruct (at_boundary s i); [|done].
  destruct (lit_match l (drop i s)); [|done]. cbn [andb].
  destruct (suffix_end _ _ _) as [j'|] eqn:E; [|done].
  intros [= <- <-]. repeat split. by apply suffix_end_Some.
Qed.

Lemma unlits_sound r l : unlits r = Some l → r = lits l.
Proof.
  revert l. induction r as [|c| |r1 IH1 r2 IH2| | |]; intros l; simpl; try done.
  - by intros [= <-].
  - destruct r1; try done. destruct (unlits r2) as [l'|]; [|done].
    intros [= <-]. simpl. f_equal. by apply IH2.
Qed.

Lemma as_phrase_sound r l sf : as_phrase r = Some (l, sf) → r = phrase_re l sf.
Proof.
  unfold as_phrase, phrase_re.
  destruct r as [| | |r1 r2| | |]; try done.
  destruct r1; try done. destruct r2 as [| | |r2 r3| | |]; try done.
  destruct r2 as [| | | | | |n body]; try done.
  destruct n as [|[|n]]; try done.
  destruct (unlits body) as [l'|] eqn:El; [|done]. simpl.
  unfold as_suffix. repeat case_decide; try done; subst; simpl;
    intros [= <- <-]; by rewrite (unlits_sound _ _ El).
Qed.

(** Every pattern of the table is a phrase pattern linked to the URL of
    its cluster. *)
Lemma keyword_patterns_shape name c p t :
  clusters_get KEYWORD_CLUSTERS name = Some c → (p, t) ∈ patterns c →
  ∃ l sf, p = phrase_re l sf ∧ t = phrase_template sf (url c) ∧
          good_lit l = true ∧ as_phrase p = Some (l, sf).
Proof.
  intros Hc Hp. apply clusters_get_elem_of in Hc.
  assert (Forall (λ kv, Forall (λ pt, pattern_ok (url kv.2) pt = true)
                          (patterns kv.2)) KEYWORD_CLUSTERS) as Hall.
  { apply (bool_decide_unpack _). by vm_compute. }
  rewrite Forall_forall in Hall. specialize (Hall _ Hc).
  rewrite Forall_forall in Hall. specialize (Hall _ Hp).
  unfold pattern_ok in Hall. simpl in Hall.
  destruct (as_phrase p) as [[l sf]|] eqn:E; [|done].
  apply andb_prop in Hall as [Ht Hl]. apply bool_decide_eq_true in Ht.
  exists l, sf. by rewrite <- (as_phrase_sound _ _ _ E).
Qed.

Lemma lit_match_app l x s :
  lit_match (l ++ x) s = lit_match l s && lit_match x (drop (length l) s).
Proof.
  revert s. induction l as [|p l IH]; intros s; [done|].
  destruct s as [|c s]; simpl; [done|]. by rewrite IH, andb_assoc.
Qed.

Lemma lit_match_length l s : lit_match l s = true → length l ≤ length s.
Proof.
  revert s. induction l as [|p l IH]; intros [|c s]; simpl; try done; [lia|].
  intros [_ H]%andb_prop. apply IH in H. lia.
Qed.

Lemma expand_phrase_template sf u s i e j :
  expand (phrase_template sf u) s (phrase_groups sf i e j)
  = cp "[" ++ take (e - i) (drop i s)
      ++ match sf with SYIes => take (j - e) (drop e s) | _ => [] end
      ++ cp "](" ++ u ++ cp ")".
Proof.
  destruct sf; unfold expand, phrase_template, phrase_groups, group_text;
    cbn [mbind list_bind app];
    rewrite ?lookup_insert_eq, ?(lookup_insert_ne _ 2 1), ?lookup_insert_eq by done;
    by rewrite ?app_nil_r.
Qed.

Lemma try_patterns_none name ps r n cs :
  Forall (λ pt, re_search pt.1 r = None) ps →
  try_patterns name ps (r, n, cs) = (r, n, cs).
Proof.
  induction 1 as [|[p t] ps Hp _ IH]; simpl; [done|].
  simpl in Hp. rewrite Hp. by rewrite bool_decide_eq_false_2 by (by intros []).
Qed.

Lemma try_patterns_first name ps1 p t ps2 r n cs :
  Forall (λ pt, re_search pt.1 r = None) ps1 →
  is_Some (re_search p r) →
  try_patterns name (ps1 ++ (p, t) :: ps2) (r, n, cs)
  = (re_sub1 p t r, n + 1, cs ++ [name]).
Proof.
  intros Hnone Hp. induction Hnone as [|[p' t'] ps1 Hp' _ IH]; simpl.
  - by rewrite bool_decide_eq_true_2.
  - simpl in Hp'. rewrite Hp'. by rewrite bool_decide_eq_false_2 by (by intros []).
Qed.

Lemma any_match_false ps s p t :
  any_match ps s = false → (p, t) ∈ ps → re_search p s = None.
Proof.
  unfold Links.any_match. induction ps as [|pt ps IH]; simpl.
  - by intros _ ?%elem_of_nil.
  - intros [H1 H2]%orb_false_elim [<-|Hin]%elem_of_cons; [|by apply IH].
    apply bool_decide_eq_false in H1. simpl in H1.
    destruct (re_search p s); [|done]. destruct H1; by eexists.
Qed.

Lemma any_cluster_matches_false s name c :
  any_cluster_matches s = false →
  clusters_get KEYWORD_CLUSTERS name = Some c →
  any_match (patterns c) s = false.
Proof.
  intros H Hc. apply clusters_get_elem_of in Hc.
  unfold Links.any_cluster_matches in H. revert H Hc.
  generalize KEYWORD_CLUSTERS. intros d. induction d as [|kv d IH]; simpl.
  - by intros _ ?%elem_of_nil.
  - intros [H1 H2]%orb_false_elim [<-|Hin]%elem_of_cons; [done|by apply IH].
Qed.

End PhraseFacts.

(** ** The link inserted by one cluster *)

Section MatcherTheorems.

Variable uni_word : N → bool.
Variable uni_fold : N → N.
Variable uni_upper : N → text.

Local Abbreviation at_boundary := (Links.at_boundary uni_word).
Local Abbreviation match_at := (Links.match_at uni_word uni_fold).
Local Abbreviation re_search := (Links.re_search uni_word uni_fold).
Local Abbreviation re_sub1 := (Links.re_sub1 uni_word uni_fold).
Local Abbreviation lit_match := (Links.lit_match uni_fold).
Local Abbreviation try_patterns := (Links.try_patterns uni_word uni_fold).
Local Abbreviation link_loop := (Links.link_loop uni_word uni_fold).
Local Abbreviation any_match := (Links.any_match uni_word uni_fold).
Local Abbreviation any_cluster_matches := (Links.any_cluster_matches uni_word uni_fold).
Local Abbreviation cluster_matches := (Links.cluster_matches uni_word uni_fold).
Local Abbreviation cluster_order := (Links.cluster_order uni_upper).
Local Abbreviation add_links_to_description :=
  (Links.add_links_to_description uni_word uni_fold uni_upper).
Local Abbreviation link_step := (Links.link_step uni_word uni_fold).
Local Abbreviation links_inserted := (Links.links_inserted uni_word uni_fold).

Lemma any_match_Forall ps s :
  any_match ps s = false → Forall (λ pt, re_search pt.1 s = None) ps.
Proof.
  intros H. apply Forall_forall. intros [p t] Hin. simpl.
  by eapply any_match_false.
Qed.

Lemma add_links_no_match txt hint :
  any_cluster_matches txt = false →
  add_links_to_description txt hint = (txt, 0, []).
Proof.
  intros Hno. unfold Links.add_links_to_description.
  destruct txt as [|c0 txt]; [done|]. destruct (py_in _ _); [done|].
  apply (link_loop_ind uni_word uni_fold (λ st, st = (c0 :: txt, 0, []))); [|done].
  intros name c p t r n cs Hc Hp [m Hm] _ [= -> -> ->].
  pose proof (any_cluster_matches_false uni_word uni_fold _ _ _ Hno Hc) as Hany.
  by rewrite (any_match_false uni_word uni_fold _ _ _ _ Hany Hp) in Hm.
Qed.

Lemma Forall_any_match ps s :
  Forall (λ pt, re_search pt.1 s = None) ps → any_match ps s = false.
Proof.
  unfold Links.any_match. induction 1 as [|[p t] ps Hp _ IH]; [done|].
  simpl in *. rewrite IH, Hp. by rewrite bool_decide_eq_false_2 by (by intros []).
Qed.

(** What the substitution of the pattern [p] of a cluster does to a text
    that [p] matches. *)
Lemma pattern_replaced name c p t r i j g :
  clusters_get KEYWORD_CLUSTERS name = Some c →
  (p, t) ∈ patterns c →
  re_search p r = Some (i, j, g) →
  ∃ l sf x,
    p = phrase_re l sf ∧ x ∈ suffixes sf ∧
    j = i + length l + length x ∧ j ≤ length r ∧
    at_boundary r i = true ∧
    lit_match (l ++ x) (drop i r) = true ∧
    at_boundary r j = true ∧
    (∀ i', i' < i → match_at p r i' = None) ∧
    re_sub1 p t r
    = take i r
        ++ (cp "[" ++ take (length l) (drop i r)
              ++ match sf with
                 | SYIes => take (length x) (drop (i + length l) r)
                 | _ => []
                 end
              ++ cp "](" ++ url c ++ cp ")")
        ++ drop j r.
Proof.
  intros Hc Hin Hs.
  destruct (keyword_patterns_shape _ _ _ _ Hc Hin) as (l & sf & -> & -> & Hl & _).
  destruct (re_search_Some _ _ _ _ _ _ _ Hs) as (Hm & Hi & Hleft).
  rewrite match_at_phrase in Hm.
  destruct (phrase_match_Some _ _ _ _ _ _ _ _ Hm)
    as (Hb & Hlit & -> & x & Hx & Hlx & Hbj & ->).
  assert (lit_match (l ++ x) (drop i r) = true) as Hlit'.
  { by rewrite lit_match_app, Hlit, drop_drop, Hlx. }
  exists l, sf, x. repeat split; try done.
  - apply lit_match_length in Hlit'. rewrite length_drop, length_app in Hlit'. lia.
  - unfold Links.re_sub1. rewrite Hs, expand_phrase_template.
    by replace (i + length l - i) with (length l) by lia;
       replace (i + length l + length x - (i + length l)) with (length x) by lia.
Qed.

(** The turn of a cluster in the loop: nothing, or one [link_step]. *)
Lemma try_patterns_link_step name c r n cs :
  clusters_get KEYWORD_CLUSTERS name = Some c →
  try_patterns name (patterns c) (r, n, cs) = (r, n, cs) ∨
  ∃ r', link_step name r r' ∧
        try_patterns name (patterns c) (r, n, cs) = (r', n + 1, cs ++ [name]).
Proof.
  intros Hc.
  destruct (try_patterns_cases uni_word uni_fold name (patterns c) r n cs)
    as [[_ ->]|(ps1 & p & t & ps2 & Hps & Hnone & [[[i j] g] Hs] & ->)]; [by left|].
  right. exists (re_sub1 p t r). split; [|done].
  assert ((p, t) ∈ patterns c) as Hin.
  { rewrite Hps. apply elem_of_app. right. apply list_elem_of_here. }
  destruct (pattern_replaced name c p t r i j g Hc Hin Hs)
    as (l & sf & x & Hp & Hx & Hj & Hjr & Hbi & Hlit & Hbj & Hleft & Hsub).
  exists c, ps1, p, t, ps2, i, j, g, l, sf, x.
  repeat split; try done. by apply Forall_any_match.
Qed.

Lemma links_inserted_snoc a cs b name c :
  links_inserted a cs b → link_step name b c → links_inserted a (cs ++ [name]) c.
Proof.
  intros H Hstep. induction H as [r|name' names r r' r'' Hfirst _ IH]; simpl.
  - eapply links_cons; [exact Hstep|apply links_none].
  - eapply links_cons; [exact Hfirst|by apply IH].
Qed.

(** The loop goes from link to link. *)
Lemma link_loop_trace txt order r n cs :
  links_inserted txt cs r →
  links_inserted txt (link_loop order (r, n, cs)).2 (link_loop order (r, n, cs)).1.1.
Proof.
  revert r n cs. induction order as [|name order IH]; intros r n cs H; [done|].
  rewrite link_loop_cons. case_bool_decide; [done|].
  destruct (clusters_get KEYWORD_CLUSTERS name) as [c|] eqn:Hc; [|by apply IH].
  destruct (try_patterns_link_step name c r n cs Hc) as [->|(r' & Hstep & ->)].
  - by apply IH.
  - apply IH. by eapply links_inserted_snoc.
Qed.

Lemma lits_inj l l' : lits l = lits l' → l = l'.
Proof.
  revert l'. induction l as [|c l IH]; intros [|c' l']; simpl; try done.
  intros [= -> H]. f_equal. by apply IH.
Qed.

Lemma phrase_re_inj l sf l' sf' :
  phrase_re l sf = phrase_re l' sf' → l = l' ∧ sf = sf'.
Proof.
  unfold phrase_re. intros [= Hl Hsf]. split; [by apply lits_inj|].
  by destruct sf, sf'.
Qed.

(** The first pattern of a list that matches a text is unique. *)
Lemma first_match_unique ps1 p t ps2 ps1' p' t' ps2' r :
  ps1 ++ (p, t) :: ps2 = ps1' ++ (p', t') :: ps2' →
  any_match ps1 r = false → is_Some (re_search p r) →
  any_match ps1' r = false → is_Some (re_search p' r) →
  p = p' ∧ t = t'.
Proof.
  assert (∀ q qs, any_match (q :: qs) r = false →
                  re_search q.1 r = None ∧ any_match qs r = false) as Hcons.
  { intros [q tq] qs Hno. split; [|by apply orb_false_elim in Hno as [_ ?]].
    apply (any_match_false uni_word uni_fold _ _ q tq Hno), list_elem_of_here. }
  revert ps1'. induction ps1 as [|q ps1 IH]; intros [|q' ps1'] Heq Hno Hp Hno' Hp'.
  - by injection Heq as -> ->.
  - injection Heq as <- _. destruct (Hcons _ _ Hno') as [Hn _], Hp as [m Hm].
    simpl in Hn. congruence.
  - injection Heq as -> _. destruct (Hcons _ _ Hno) as [Hn _], Hp' as [m Hm].
    simpl in Hn. congruence.
  - injection Heq as -> Heq.
    destruct (Hcons _ _ Hno) as [_ Hn], (Hcons _ _ Hno') as [_ Hn'].
    by apply (IH ps1').
Qed.

(** A text, a cluster: one link. *)
Lemma link_step_functional name r r1 r2 :
  link_step name r r1 → link_step name r r2 → r1 = r2.
Proof.
  intros (c & ps1 & p & t & ps2 & i & j & g & l & sf & x
          & Hc & Hps & Hno & Hs & Hp & Hx & Hj & _ & _ & _ & _ & _ & ->)
         (c' & ps1' & p' & t' & ps2' & i' & j' & g' & l' & sf' & x'
          & Hc' & Hps' & Hno' & Hs' & Hp' & Hx' & Hj' & _ & _ & _ & _ & _ & ->).
  assert (c' = c) as -> by congruence.
  destruct (first_match_unique ps1 p t ps2 ps1' p' t' ps2' r) as [<- <-];
    [congruence|done|by rewrite Hs|done|by rewrite Hs'|].
  assert (i' = i ∧ j' = j) as [-> ->] by (split; congruence).
  destruct (phrase_re_inj l sf l' sf') as [<- <-]; [congruence|].
  assert (length x' = length x) as -> by lia. done.
Qed.

Lemma links_inserted_functional txt names out out' :
  links_inserted txt names out → links_inserted txt names out' → out = out'.
Proof.
  intros H. revert out'.
  induction H as [r|name names r r' r'' Hstep _ IH]; intros out' H'.
  - by inversion H'.
  - inversion H' as [|? ? ? r2 ? Hstep' Hrest]; subst.
    rewrite (link_step_functional _ _ _ _ Hstep' Hstep) in Hrest. by apply IH.
Qed.

(** C8: the text returned is the input after one link for each cluster
    used, inserted in the order of the clusters used, each in the text the
    links before it left, and nothing else is changed: the input and the
    clusters used determine the text returned; the number of links is the
    number of clusters used.  The link of a cluster is made by the
    first pattern of the cluster, in the order of the table, that the
    current text matches; its leftmost match, a case-insensitive
    occurrence of the phrase between word boundaries, is the only span
    replaced: the text before and after it is kept and the span becomes
    the phrase as it was written (the plural [s] of an [s?] pattern is
    left out) between [[] and [](URL)] with the URL of the cluster.  In
    the turn of one cluster the first matching pattern is the only one
    applied, it adds exactly one link and records the cluster once, and
    when no pattern of the cluster matches the turn changes nothing.
    When no pattern of any cluster matches, the function returns the text
    with 0 links and no cluster.  No cluster is recorded twice. *)
Theorem C8_first_pattern_first_occurrence :
  (∀ txt hint,
      let '(out, links_added, clusters_used) := add_links_to_description txt hint in
      links_inserted txt clusters_used out ∧
      (∀ out', links_inserted txt clusters_used out' → out' = out) ∧
      links_added = length clusters_used) ∧
  (∀ name c r n cs,
      clusters_get KEYWORD_CLUSTERS name = Some c →
      (any_match (patterns c) r = false →
       try_patterns name (patterns c) (r, n, cs) = (r, n, cs)) ∧
      (∀ ps1 p t ps2 i j g,
          patterns c = ps1 ++ (p, t) :: ps2 →
          any_match ps1 r = false →
          re_search p r = Some (i, j, g) →
          ∃ l sf x,
            p = phrase_re l sf ∧ x ∈ suffixes sf ∧
            j = i + length l + length x ∧ j ≤ length r ∧
            at_boundary r i = true ∧
            lit_match (l ++ x) (drop i r) = true ∧
            at_boundary r j = true ∧
            (∀ i', i' < i → match_at p r i' = None) ∧
            try_patterns name (patterns c) (r, n, cs)
            = (take i r
                 ++ (cp "[" ++ take (length l) (drop i r)
                       ++ match sf with
                          | SYIes => take (length x) (drop (i + length l) r)
                          | _ => []
                          end
                       ++ cp "](" ++ url c ++ cp ")")
                 ++ drop j r,
               n + 1, cs ++ [name]))) ∧
  (∀ txt hint,
      any_cluster_matches txt = false →
      add_links_to_description txt hint = (txt, 0, [])) ∧
  (upper_never_lower uni_upper →
   ∀ txt hint, NoDup (add_links_to_description txt hint).2).
Proof.
  split; [|split; [|split; [exact add_links_no_match|]]].
  - intros txt hint.
    destruct (add_links_sublist uni_word uni_fold uni_upper txt hint)
      as (out & used & Heq & _ & _).
    rewrite Heq.
    assert (links_inserted txt used out) as Htrace; [|split; [done|split; [|done]]].
    2: { intros out' H'. by apply (links_inserted_functional txt used). }
    change used with (out, length used, used).2.
    change out with (out, length used, used).1.1 at 2.
    rewrite <- Heq. unfold Links.add_links_to_description.
    destruct txt as [|c0 txt]; [apply links_none|].
    destruct (py_in link_marker (c0 :: txt)); [apply links_none|].
    apply link_loop_trace, links_none.
  - intros name c r n cs Hc. split.
    { intros Hno. apply try_patterns_none. by apply any_match_Forall. }
    intros ps1 p t ps2 i j g Hps Hno Hs.
    assert ((p, t) ∈ patterns c) as Hin.
    { rewrite Hps. apply elem_of_app. right. apply list_elem_of_here. }
    destruct (pattern_replaced name c p t r i j g Hc Hin Hs)
      as (l & sf & x & Hp & Hx & Hj & Hjr & Hbi & Hlit & Hbj & Hleft & Hsub).
    exists l, sf, x. repeat split; try done.
    rewrite Hps, try_patterns_first; [|by apply any_match_Forall|by rewrite Hs].
    by rewrite Hsub.
  - intros Hup txt hint.
    destruct (add_links_sublist uni_word uni_fold uni_upper txt hint)
      as (r' & used & -> & Hsub & _). simpl.
    eapply sublist_NoDup; [by apply cluster_order_NoDup|exact Hsub].
Qed.

End MatcherTheorems.

(** C8 on a description without any phrase, on the step of the CFO
    cluster for a description with a plural phrase, and on a description
    that gets two links. *)
Lemma C8_witness :
  (any_cluster_matches ascii_only_word ascii_only_fold
     (cp "We need a finance manager for our roles.") = false ∧
   add_links_ascii "We need a finance manager for our roles." (Some "CFO"%string)
   = (cp "We need a finance manager for our roles.", 0, [])) ∧
  (let r := cp "Join our fractional CFOs team" in
   let p := re_plural "Fractional CFO" in
   re_search ascii_only_word ascii_only_fold p r
   = Some (9, 24, <[1 := (9, 23)]> ∅) ∧
   ∃ l sf x,
     p = phrase_re l sf ∧ x ∈ suffixes sf ∧
     24 = 9 + length l + length x ∧ 24 ≤ length r ∧
     at_boundary ascii_only_word r 9 = true ∧
     lit_match ascii_only_fold (l ++ x) (drop 9 r) = true ∧
     at_boundary ascii_only_word r 24 = true ∧
     (∀ i', i' < 9 → match_at ascii_only_word ascii_only_fold p r i' = None) ∧
     match clusters_get KEYWORD_CLUSTERS (cp "CFO") with
     | Some c =>
         try_patterns ascii_only_word ascii_only_fold (cp "CFO") (patterns c)
           (r, 0, [])
         = (take 9 r
              ++ (cp "[" ++ take (length l) (drop 9 r)
                    ++ match sf with
                       | SYIes => take (length x) (drop (9 + length l) r)
                       | _ => []
                       end
                    ++ cp "](" ++ url c ++ cp ")")
              ++ drop 24 r,
            0 + 1, [] ++ [cp "CFO"])
     | None => False
     end) ∧
  (add_links_ascii "Join our fractional CFOs team for fractional work"
     (Some "CFO"%string)
   = (cp ("Join our [fractional CFO](/fractional-jobs?role=CFO) team for "
          ++ "[fractional work](/fractional-jobs)"),
      2, [cp "CFO"; cp "general"]) ∧
   links_inserted ascii_only_word ascii_only_fold
     (cp "Join our fractional CFOs team for fractional work")
     [cp "CFO"; cp "general"]
     (cp ("Join our [fractional CFO](/fractional-jobs?role=CFO) team for "
          ++ "[fractional work](/fractional-jobs)"))).
Proof.
  split; [|split].
  - assert (any_cluster_matches ascii_only_word ascii_only_fold
              (cp "We need a finance manager for our roles.") = false) as H
      by (by vm_compute).
    split; [exact H|].
    exact (proj1 (proj2 (proj2 (C8_first_pattern_first_occurrence
                                  ascii_only_word ascii_only_fold ascii_only_upper)))
             (cp "We need a finance manager for our roles.") (Some (cp "CFO")) H).
  - intros r p.
    assert (re_search ascii_only_word ascii_only_fold p r
            = Some (9, 24, <[1 := (9, 23)]> ∅)) as Hs by (by vm_compute).
    split; [exact Hs|].
    destruct (clusters_get KEYWORD_CLUSTERS (cp "CFO")) as [c|] eqn:Hc; [|done].
    injection Hc as <-.
    exact (proj2 (proj1 (proj2 (C8_first_pattern_first_occurrence
                                  ascii_only_word ascii_only_fold ascii_only_upper))
                    (cp "CFO") _ r 0 [] eq_refl)
             [] p (link1 "/fractional-jobs?role=CFO") _ 9 24 _
             eq_refl eq_refl Hs).
  - assert (add_links_ascii "Join our fractional CFOs team for fractional work"
              (Some "CFO"%string)
            = (cp ("Join our [fractional CFO](/fractional-jobs?role=CFO) team for "
                   ++ "[fractional work](/fractional-jobs)"),
               2, [cp "CFO"; cp "general"])) as E by (by vm_compute).
    split; [exact E|].
    pose proof (proj1 (C8_first_pattern_first_occurrence
                         ascii_only_word ascii_only_fold ascii_only_upper)
                  (cp "Join our fractional CFOs team for fractional work")
                  (Some (cp "CFO"))) as H.
    unfold add_links_ascii in E. simpl fmap in E. rewrite E in H. apply H.
Defined.

(** ** Occurrences of phrases *)

Section Occurrences.

Variable uni_word : N → bool.
Variable uni_fold : N → N.

Local Abbreviation is_word := (Links.is_word uni_word).
Local Abbreviation fold_case := (Links.fold_case uni_fold).
Local Abbreviation word_at := (Links.word_at uni_word).
Local Abbreviation at_boundary := (Links.at_boundary uni_word).
Local Abbreviation ci_eq := (Links.ci_eq uni_fold).
Local Abbreviation match_at := (Links.match_at uni_word uni_fold).
Local Abbreviation re_search := (Links.re_search uni_word uni_fold).
Local Abbreviation re_sub1 := (Links.re_sub1 uni_word uni_fold).
Local Abbreviation lit_match := (Links.lit_match uni_fold).
Local Abbreviation suffix_end := (Links.suffix_end uni_word uni_fold).
Local Abbreviation phrase_match := (Links.phrase_match uni_word uni_fold).
Local Abbreviation left_free := (Links.left_free uni_word).
Local Abbreviation right_free := (Links.right_free uni_word).
Local Abbreviation occurs_at := (Links.occurs_at uni_word uni_fold).
Local Abbreviation any_match := (Links.any_match uni_word uni_fold).
Local Abbreviation cluster_matches := (Links.cluster_matches uni_word uni_fold).

Lemma ascii_letter_tolower p :
  ascii_letter p = true → ascii_lower_letter (ascii_tolower p) = true.
Proof.
  unfold ascii_letter, ascii_tolower, ascii_upper_letter, ascii_lower_letter.
  intros H. destruct ((65 <=? p)%N && (p <=? 90)%N) eqn:E.
  - apply andb_prop in E as [E1 E2]. apply N.leb_le in E1, E2.
    apply andb_true_intro. split; apply N.leb_le; lia.
  - done.
Qed.

Lemma ascii_tolower_letter c :
  ascii_lower_letter (ascii_tolower c) = true → ascii_letter c = true.
Proof.
  unfold ascii_letter, ascii_tolower. destruct (ascii_upper_letter c) eqn:E; [done|].
  intros ->. done.
Qed.

(** A character matched by a letter of a pattern is a word character. *)
Lemma ci_eq_letter_word p c :
  folded_letters_are_words uni_word uni_fold →
  ascii_letter p = true → ci_eq p c = true → is_word c = true.
Proof.
  intros Hword Hp. unfold Links.ci_eq, Links.is_word, Links.fold_case.
  rewrite Hp. intros Hc%N.eqb_eq.
  pose proof (ascii_letter_tolower _ Hp) as Hlow. rewrite <- Hc in Hlow.
  destruct (is_ascii c) eqn:Ha.
  - unfold ascii_word. by rewrite (ascii_tolower_letter _ Hlow).
  - by apply Hword.
Qed.

(** Two pattern characters that match the same character agree up to case. *)
Lemma ci_eq_compat p q c :
  is_ascii p = true → is_ascii q = true →
  ci_eq p c = true → ci_eq q c = true →
  ascii_tolower p = ascii_tolower q.
Proof.
  intros Hap Haq. unfold Links.ci_eq, Links.fold_case.
  destruct (ascii_letter p) eqn:Hp, (ascii_letter q) eqn:Hq.
  - intros H1%N.eqb_eq H2%N.eqb_eq. congruence.
  - intros H1%N.eqb_eq ->%N.eqb_eq. rewrite Haq in H1.
    by rewrite H1.
  - intros ->%N.eqb_eq H2%N.eqb_eq. rewrite Hap in H2.
    by rewrite H2.
  - intros <-%N.eqb_eq <-%N.eqb_eq. done.
Qed.

Lemma lit_match_lookup m t :
  lit_match m t = true ↔
  ∀ k p, m !! k = Some p → ∃ c, t !! k = Some c ∧ ci_eq p c = true.
Proof.
  revert t. induction m as [|p m IH]; intros t; simpl.
  - split; [by intros _ k p ?|done].
  - destruct t as [|c t].
    + split; [done|]. intros H. destruct (H 0 p eq_refl) as (c & Hc & _). done.
    + rewrite andb_true_iff, IH. split.
      * intros [Hp Hm] [|k] q; simpl; [intros [= <-]; eauto|by apply Hm].
      * intros H. split.
        -- destruct (H 0 p eq_refl) as (c' & [= <-] & Hc). done.
        -- intros k q Hq. apply (H (S k) q Hq).
Qed.

Lemma lit_match_at m s a :
  lit_match m (drop a s) = true ↔
  ∀ k p, m !! k = Some p → ∃ c, s !! (a + k) = Some c ∧ ci_eq p c = true.
Proof.
  rewrite lit_match_lookup. by setoid_rewrite lookup_drop.
Qed.

Lemma at_boundary_left s a :
  word_at s a = true → at_boundary s a = left_free s a.
Proof.
  unfold Links.at_boundary, Links.left_free. intros ->.
  destruct a; [done|]. by destruct (word_at s a).
Qed.

Lemma at_boundary_right s e :
  word_at s e = true → at_boundary s (S e) = right_free s (S e).
Proof. unfold Links.at_boundary, Links.right_free. by intros ->. Qed.

Lemma occurrence_first_word m s a p :
  folded_letters_are_words uni_word uni_fold →
  lit_match m (drop a s) = true →
  head m = Some p → ascii_letter p = true →
  word_at s a = true.
Proof.
  intros Hword Hm Hp Hl. rewrite head_lookup in Hp.
  destruct (proj1 (lit_match_at m s a) Hm 0 p Hp) as (c & Hc & Hpc).
  rewrite Nat.add_0_r in Hc. unfold Links.word_at. rewrite Hc.
  by eapply ci_eq_letter_word.
Qed.

Lemma occurrence_last_word m s a p :
  folded_letters_are_words uni_word uni_fold →
  lit_match m (drop a s) = true →
  last m = Some p → ascii_letter p = true →
  word_at s (a + pred (length m)) = true.
Proof.
  intros Hword Hm Hp Hl. rewrite last_lookup in Hp.
  destruct (proj1 (lit_match_at m s a) Hm _ p Hp) as (c & Hc & Hpc).
  unfold Links.word_at. rewrite Hc. by eapply ci_eq_letter_word.
Qed.

(** The strings a good phrase pattern matches start and end with a letter. *)
Lemma good_alternative l sf x :
  good_lit l = true → x ∈ suffixes sf →
  (∃ p, head (l ++ x) = Some p ∧ ascii_letter p = true) ∧
  (∃ p, last (l ++ x) = Some p ∧ ascii_letter p = true) ∧
  forallb is_ascii (l ++ x) = true ∧
  0 < length l.
Proof.
  unfold good_lit. intros [Hascii Hl]%andb_prop Hx.
  destruct (head l) as [a|] eqn:Hh; [|done].
  destruct (last l) as [b|] eqn:Hlast; [|done].
  apply andb_prop in Hl as [Ha Hb].
  assert (0 < length l) as Hlen by (destruct l; [done|simpl; lia]).
  repeat split; [| | |done].
  - exists a. split; [|done]. destruct l; [done|]. done.
  - destruct sf; simpl in Hx;
      repeat (apply elem_of_cons in Hx as [->|Hx]);
      try (by apply elem_of_nil in Hx);
      rewrite ?app_nil_r, ?last_app; simpl; eauto.
  - rewrite forallb_app, Hascii.
    destruct sf; simpl in Hx;
      repeat (apply elem_of_cons in Hx as [->|Hx]);
      try (by apply elem_of_nil in Hx); done.
Qed.

(** A match of a phrase pattern is an occurrence of one of its strings,
    and an occurrence gives a match. *)
Lemma match_occurs l sf s a j g :
  folded_letters_are_words uni_word uni_fold →
  good_lit l = true →
  phrase_match l sf s a = Some (j, g) →
  ∃ x, x ∈ suffixes sf ∧ occurs_at (l ++ x) s a = true ∧
       j = a + length (l ++ x).
Proof.
  intros Hword Hl Hm.
  destruct (phrase_match_Some _ _ _ _ _ _ _ _ Hm)
    as (Hb & Hlit & _ & x & Hx & Hlx & Hbj & ->).
  destruct (good_alternative l sf x Hl Hx) as ((p & Hp & Hpl) & (q & Hq & Hql) & _ & Hlen).
  assert (lit_match (l ++ x) (drop a s) = true) as Hlit'.
  { by rewrite lit_match_app, Hlit, drop_drop, Hlx. }
  exists x. split; [done|]. split; [|rewrite length_app; lia].
  unfold Links.occurs_at. rewrite Hlit'.
  rewrite <- (at_boundary_left s a), Hb by (by eapply occurrence_first_word).
  pose proof (occurrence_last_word _ _ _ _ Hword Hlit' Hq Hql) as Hw.
  rewrite length_app in *.
  replace (a + (length l + length x)) with (S (a + pred (length l + length x))) by lia.
  rewrite <- at_boundary_right by done.
  replace (S (a + pred (length l + length x))) with (a + length l + length x) by lia.
  by rewrite Hbj.
Qed.

Lemma occurs_match l sf s a x :
  folded_letters_are_words uni_word uni_fold →
  good_lit l = true → x ∈ suffixes sf →
  occurs_at (l ++ x) s a = true →
  is_Some (phrase_match l sf s a).
Proof.
  intros Hword Hl Hx Hocc. unfold Links.occurs_at in Hocc.
  apply andb_prop in Hocc as [[Hleft Hlit]%andb_prop Hright].
  destruct (good_alternative l sf x Hl Hx) as ((p & Hp & Hpl) & (q & Hq & Hql) & _ & Hlen).
  pose proof (occurrence_first_word _ _ _ _ Hword Hlit Hp Hpl) as Hw1.
  pose proof (occurrence_last_word _ _ _ _ Hword Hlit Hq Hql) as Hw2.
  rewrite lit_match_app, drop_drop in Hlit. apply andb_prop in Hlit as [Hl1 Hl2].
  unfold Links.phrase_match.
  rewrite (at_boundary_left s a Hw1), Hleft, Hl1. cbn [andb].
  apply fmap_is_Some. eapply suffix_end_is_Some; [exact Hx|exact Hl2|].
  rewrite length_app in *.
  replace (a + length l + length x) with (S (a + pred (length l + length x))) by lia.
  rewrite at_boundary_right by done.
  by replace (S (a + pred (length l + length x))) with (a + (length l + length x)) by lia.
Qed.

Lemma splice_lookup_before (s R : text) i j k :
  k < i → i ≤ length s → (take i s ++ R ++ drop j s) !! k = s !! k.
Proof.
  intros Hk Hi. rewrite lookup_app_l by (rewrite length_take; lia).
  by apply lookup_take_lt.
Qed.

Lemma splice_lookup_from (s R : text) i j t :
  i ≤ length s → (take i s ++ R ++ drop j s) !! (i + t) = (R ++ drop j s) !! t.
Proof.
  intros Hi. rewrite lookup_app_r by (rewrite length_take; lia).
  f_equal. rewrite length_take. lia.
Qed.

Lemma splice_lookup_after (s R : text) i j t :
  i ≤ length s →
  (take i s ++ R ++ drop j s) !! (i + length R + t) = s !! (j + t).
Proof.
  intros Hi. rewrite <- Nat.add_assoc, splice_lookup_from by done.
  rewrite lookup_app_r by lia. rewrite lookup_drop. f_equal. lia.
Qed.

Lemma word_at_eq s s' k k' :
  s' !! k' = s !! k → word_at s' k' = word_at s k.
Proof. unfold Links.word_at. by intros ->. Qed.

Lemma occurs_at_window m s s' a a' :
  (∀ k, k < length m → s' !! (a' + k) = s !! (a + k)) →
  left_free s' a' = true → right_free s' (a' + length m) = true →
  occurs_at m s a = true → occurs_at m s' a' = true.
Proof.
  intros Hwin Hl Hr Hocc. unfold Links.occurs_at in *.
  apply andb_prop in Hocc as [[_ Hlit]%andb_prop _].
  rewrite Hl, Hr, andb_true_r. cbn [andb].
  apply lit_match_at. intros k p Hp.
  rewrite Hwin by (by eapply lookup_lt_Some).
  by apply (proj1 (lit_match_at m s a) Hlit).
Qed.

(** An occurrence that ends before the replaced span, or starts after it,
    is an occurrence in the new text when the replacement starts and ends
    with a character that is no word character. *)
Lemma occurs_before m s R i j a c0 :
  i ≤ length s → a + length m ≤ i →
  head R = Some c0 → is_word c0 = false →
  occurs_at m s a = true →
  occurs_at m (take i s ++ R ++ drop j s) a = true.
Proof.
  intros Hi Ha HR Hc0 Hocc. eapply occurs_at_window; [| | |exact Hocc].
  - intros k Hk. apply splice_lookup_before; lia.
  - unfold Links.occurs_at in Hocc.
    apply andb_prop in Hocc as [[Hl _]%andb_prop _].
    destruct a as [|a]; [done|]. simpl in *.
    rewrite (word_at_eq s _ a a); [done|]. apply splice_lookup_before; lia.
  - unfold Links.occurs_at in Hocc. apply andb_prop in Hocc as [_ Hr].
    destruct (decide (a + length m = i)) as [Heq|Hne].
    + unfold Links.right_free, Links.word_at.
      replace (a + length m) with (i + 0) by lia.
      rewrite splice_lookup_from by done.
      rewrite head_lookup in HR. rewrite lookup_app_l by (by eapply lookup_lt_Some).
      by rewrite HR, Hc0.
    + unfold Links.right_free in *.
      rewrite (word_at_eq s _ (a + length m) (a + length m)); [done|].
      apply splice_lookup_before; lia.
Qed.

Lemma occurs_after m s R i j a c1 :
  i ≤ length s → j ≤ a →
  last R = Some c1 → is_word c1 = false →
  occurs_at m s a = true →
  occurs_at m (take i s ++ R ++ drop j s) (i + length R + (a - j)) = true.
Proof.
  intros Hi Ha HR Hc1 Hocc.
  assert (0 < length R) as HlenR by (destruct R; [done|simpl; lia]).
  eapply occurs_at_window; [| | |exact Hocc].
  - intros k Hk. rewrite <- Nat.add_assoc, splice_lookup_after by done.
    f_equal. lia.
  - unfold Links.occurs_at in Hocc.
    apply andb_prop in Hocc as [[Hl _]%andb_prop _].
    replace (i + length R + (a - j)) with (S (i + pred (length R) + (a - j))) by lia.
    simpl. destruct (decide (a = j)) as [->|Hne].
    + unfold Links.word_at. rewrite Nat.sub_diag, Nat.add_0_r.
      rewrite splice_lookup_from by done.
      rewrite last_lookup in HR. rewrite lookup_app_l by lia.
      by rewrite HR, Hc1.
    + destruct a as [|a]; [lia|]. simpl in Hl.
      rewrite (word_at_eq s _ a); [done|].
      replace (i + pred (length R) + (S a - j)) with (i + length R + (a - j)) by lia.
      rewrite splice_lookup_after by done. f_equal. lia.
  - unfold Links.occurs_at in Hocc. apply andb_prop in Hocc as [_ Hr].
    unfold Links.right_free in *.
    rewrite (word_at_eq s _ (a + length m)); [done|].
    rewrite <- Nat.add_assoc, splice_lookup_after by done. f_equal. lia.
Qed.

Lemma forallb_lookup {A} (f : A → bool) (l : list A) k x :
  forallb f l = true → l !! k = Some x → f x = true.
Proof.
  intros H Hk. rewrite forallb_forall in H. apply H.
  apply list_elem_of_In. by eapply list_elem_of_lookup_2.
Qed.

Lemma forallb_seq (f : nat → bool) n d :
  forallb f (seq 0 n) = true → d < n → f d = true.
Proof.
  intros H Hd. rewrite forallb_forall in H. apply H. apply in_seq. lia.
Qed.

(** If an occurrence of [mq] starts inside an occurrence of [mp], the two
    strings are compatible at that offset. *)
Lemma compatible_inside mp mq s i a :
  folded_letters_are_words uni_word uni_fold →
  forallb is_ascii mp = true → forallb is_ascii mq = true →
  occurs_at mp s i = true → occurs_at mq s a = true →
  i ≤ a → a < i + length mp →
  compatible_at mp mq (a - i) = true.
Proof.
  intros Hword Hap Haq Hp Hq Hia Hai. unfold Links.occurs_at in *.
  apply andb_prop in Hp as [[_ Hp]%andb_prop _].
  apply andb_prop in Hq as [[Hleft Hq]%andb_prop _].
  unfold compatible_at. apply andb_true_intro. split.
  - destruct (a - i) as [|d] eqn:Ed; [done|].
    destruct (mp !! d) as [c|] eqn:Ec; [|done].
    destruct (ascii_letter c) eqn:Hc; [exfalso|done].
    destruct (proj1 (lit_match_at mp s i) Hp d c Ec) as (x & Hx & Hcx).
    replace a with (S (i + d)) in Hleft by lia. simpl in Hleft.
    unfold Links.word_at in Hleft. rewrite Hx in Hleft.
    by rewrite (ci_eq_letter_word _ _ Hword Hc Hcx) in Hleft.
  - apply forallb_forall. intros k _.
    destruct (mp !! (a - i + k)) as [p|] eqn:Ep; [|done].
    destruct (mq !! k) as [q|] eqn:Eq; [|done].
    destruct (proj1 (lit_match_at mp s i) Hp _ p Ep) as (x & Hx & Hpx).
    destruct (proj1 (lit_match_at mq s a) Hq _ q Eq) as (y & Hy & Hqy).
    replace (i + (a - i + k)) with (a + k) in Hx by lia.
    rewrite Hx in Hy. injection Hy as <-.
    apply N.eqb_eq. eapply ci_eq_compat; [| |exact Hpx|exact Hqy].
    + exact (forallb_lookup _ _ _ _ Hap Ep).
    + exact (forallb_lookup _ _ _ _ Haq Eq).
Qed.

(** Occurrences of two strings that never overlap are apart. *)
Lemma occurrences_apart mp mq s i a :
  folded_letters_are_words uni_word uni_fold →
  never_overlap mp mq = true →
  occurs_at mp s i = true → occurs_at mq s a = true →
  a + length mq ≤ i ∨ i + length mp ≤ a.
Proof.
  intros Hword Hno Hp Hq. unfold never_overlap in Hno.
  apply andb_prop in Hno as [[[Hap Haq]%andb_prop H1]%andb_prop H2].
  destruct (decide (i ≤ a)) as [Hia|Hia].
  - destruct (decide (a < i + length mp)) as [Hin|]; [exfalso|right; lia].
    pose proof (compatible_inside mp mq s i a Hword Hap Haq Hp Hq Hia Hin) as Hc.
    assert (a - i < length mp) as Hd by lia.
    pose proof (forallb_seq _ _ _ H1 Hd) as Hn. simpl in Hn.
    by rewrite Hc in Hn.
  - destruct (decide (i < a + length mq)) as [Hin|]; [exfalso|left; lia].
    assert (a ≤ i) as Hai by lia.
    pose proof (compatible_inside mq mp s a i Hword Haq Hap Hq Hp Hai Hin) as Hc.
    assert (i - a < length mq) as Hd by lia.
    pose proof (forallb_seq _ _ _ H2 Hd) as Hn. simpl in Hn.
    by rewrite Hc in Hn.
Qed.

Lemma occurs_at_in_range m s a :
  occurs_at m s a = true → 0 < length m → a ≤ length s.
Proof.
  unfold Links.occurs_at. intros [[_ H]%andb_prop _]%andb_prop Hm.
  apply lit_match_length in H. rewrite length_drop in H. lia.
Qed.

Lemma cluster_matches_inv name s :
  cluster_matches name s = true →
  ∃ c p t, clusters_get KEYWORD_CLUSTERS name = Some c ∧
           (p, t) ∈ patterns c ∧ is_Some (re_search p s).
Proof.
  unfold Links.cluster_matches, Links.any_match.
  destruct (clusters_get KEYWORD_CLUSTERS name) as [c|]; [|done].
  intros H. apply existsb_exists in H as ([p t] & Hin & H).
  apply bool_decide_eq_true in H. exists c, p, t.
  repeat split; [by apply list_elem_of_In|done].
Qed.

Lemma cluster_matches_intro name c p t s :
  clusters_get KEYWORD_CLUSTERS name = Some c → (p, t) ∈ patterns c →
  is_Some (re_search p s) → cluster_matches name s = true.
Proof.
  intros Hc Hin Hs. unfold Links.cluster_matches, Links.any_match. rewrite Hc.
  apply existsb_exists. exists (p, t).
  split; [by apply list_elem_of_In|by apply bool_decide_eq_true].
Qed.

Lemma alternative_in_cluster name c p t l sf x :
  clusters_get KEYWORD_CLUSTERS name = Some c → (p, t) ∈ patterns c →
  as_phrase p = Some (l, sf) → x ∈ suffixes sf →
  l ++ x ∈ cluster_alternatives name.
Proof.
  intros Hc Hin Hp Hx. unfold cluster_alternatives. rewrite Hc.
  apply list_elem_of_bind. exists (p, t). split; [|done]. simpl. rewrite Hp.
  unfold alternatives. by apply list_elem_of_fmap_2.
Qed.

(** A match of a keyword pattern, as an occurrence. *)
Lemma keyword_match_occurs name c p t s :
  folded_letters_are_words uni_word uni_fold →
  clusters_get KEYWORD_CLUSTERS name = Some c → (p, t) ∈ patterns c →
  is_Some (re_search p s) →
  ∃ l sf x i j g,
    p = phrase_re l sf ∧ t = phrase_template sf (url c) ∧ good_lit l = true ∧
    x ∈ suffixes sf ∧ l ++ x ∈ cluster_alternatives name ∧
    re_search p s = Some (i, j, g) ∧ i ≤ length s ∧
    g = phrase_groups sf i (i + length l) j ∧
    occurs_at (l ++ x) s i = true ∧ j = i + length (l ++ x).
Proof.
  intros Hword Hc Hin [[[i j] g] Hs].
  destruct (keyword_patterns_shape _ _ _ _ Hc Hin) as (l & sf & -> & -> & Hl & Has).
  destruct (re_search_Some _ _ _ _ _ _ _ Hs) as (Hm & Hi & _).
  rewrite match_at_phrase in Hm.
  destruct (match_occurs _ _ _ _ _ _ Hword Hl Hm) as (x & Hx & Hocc & ->).
  destruct (phrase_match_Some _ _ _ _ _ _ _ _ Hm) as (_ & _ & -> & _).
  eexists l, sf, x, i, (i + length (l ++ x)), _.
  repeat split; try done. by eapply alternative_in_cluster.
Qed.

(** The link inserted for one cluster leaves a phrase of a cluster that
    it cannot overlap in the text. *)
Lemma re_sub1_keeps_cluster name1 name2 c1 p t r :
  folded_letters_are_words uni_word uni_fold →
  clusters_apart name1 name2 = true →
  clusters_get KEYWORD_CLUSTERS name1 = Some c1 → (p, t) ∈ patterns c1 →
  is_Some (re_search p r) →
  cluster_matches name2 r = true →
  cluster_matches name2 (re_sub1 p t r) = true.
Proof.
  intros Hword Hapart Hc1 Hin1 Hs1 Hm2.
  destruct (keyword_match_occurs _ _ _ _ _ Hword Hc1 Hin1 Hs1)
    as (l1 & sf1 & x1 & i & j & g & -> & -> & Hl1 & Hx1 & Halt1 & Hs & Hi & -> & Hocc1 & ->).
  destruct (cluster_matches_inv _ _ Hm2) as (c2 & q & t2 & Hc2 & Hin2 & Hs2).
  destruct (keyword_match_occurs _ _ _ _ _ Hword Hc2 Hin2 Hs2)
    as (l2 & sf2 & x2 & a & b & g2 & -> & -> & Hl2 & Hx2 & Halt2 & _ & _ & _ & Hocc2 & _).
  assert (never_overlap (l1 ++ x1) (l2 ++ x2) = true) as Hno.
  { unfold clusters_apart in Hapart. rewrite forallb_forall in Hapart.
    specialize (Hapart _ (proj1 (list_elem_of_In _ _) Halt1)).
    rewrite forallb_forall in Hapart.
    exact (Hapart _ (proj1 (list_elem_of_In _ _) Halt2)). }
  destruct (good_alternative _ _ _ Hl2 Hx2) as (_ & _ & _ & Hlen2).
  unfold Links.re_sub1. rewrite Hs, expand_phrase_template.
  set (R := cp "[" ++ _).
  assert (head R = Some (chr "[")) as HhR by done.
  assert (last R = Some (chr ")")) as HlR.
  { subst R. rewrite !app_assoc. apply last_snoc. }
  assert (∃ a', occurs_at (l2 ++ x2)
                  (take i r ++ R ++ drop (i + length (l1 ++ x1)) r) a' = true)
    as [a' Hocc'].
  { destruct (occurrences_apart _ _ _ _ _ Hword Hno Hocc1 Hocc2) as [Hbefore|Hafter].
    - exists a. by eapply occurs_before.
    - eexists. by eapply occurs_after. }
  eapply cluster_matches_intro; [exact Hc2|exact Hin2|].
  apply (re_search_is_Some _ _ _ _ a').
  - rewrite match_at_phrase. by eapply occurs_match.
  - eapply occurs_at_in_range; [exact Hocc'|]. rewrite length_app. lia.
Qed.

End Occurrences.

(** ** The order of evaluation *)

Section EvaluationOrder.

Variable uni_word : N → bool.
Variable uni_fold : N → N.
Variable uni_upper : N → text.

Local Abbreviation re_search := (Links.re_search uni_word uni_fold).
Local Abbreviation re_sub1 := (Links.re_sub1 uni_word uni_fold).
Local Abbreviation try_patterns := (Links.try_patterns uni_word uni_fold).
Local Abbreviation link_loop := (Links.link_loop uni_word uni_fold).
Local Abbreviation cluster_matches := (Links.cluster_matches uni_word uni_fold).
Local Abbreviation cluster_order := (Links.cluster_order uni_upper).
Local Abbreviation add_links_to_description :=
  (Links.add_links_to_description uni_word uni_fold uni_upper).

(** The step of a cluster that has a phrase in the text adds its link. *)
Lemma try_patterns_match name c r n cs :
  clusters_get KEYWORD_CLUSTERS name = Some c →
  cluster_matches name r = true →
  ∃ p t, (p, t) ∈ patterns c ∧ is_Some (re_search p r) ∧
         try_patterns name (patterns c) (r, n, cs)
         = (re_sub1 p t r, n + 1, cs ++ [name]).
Proof.
  intros Hc Hm.
  destruct (cluster_matches_inv _ _ _ _ Hm) as (c' & p0 & t0 & Hc' & Hin0 & Hs0).
  assert (c' = c) as -> by congruence.
  destruct (try_patterns_cases uni_word uni_fold name (patterns c) r n cs)
    as [[Hnone _]|(ps1 & p & t & ps2 & Hps & _ & Hs & Heq)].
  - rewrite Forall_forall in Hnone. specialize (Hnone _ Hin0). simpl in Hnone.
    rewrite Hnone in Hs0. by destruct Hs0.
  - exists p, t. repeat split; [|done..].
    rewrite Hps. apply elem_of_app. right. apply list_elem_of_here.
Qed.

(** When the order starts with a role cluster followed by [general], both
    have a phrase in the text and their phrases cannot overlap, both links
    are inserted, in that order. *)
Lemma role_then_general txt hint X order' :
  folded_letters_are_words uni_word uni_fold →
  cluster_order hint = X :: cp "general" :: order' →
  clusters_apart X (cp "general") = true →
  py_in link_marker txt = false →
  cluster_matches X txt = true →
  cluster_matches (cp "general") txt = true →
  ∃ out rest,
    add_links_to_description txt hint
    = (out, length (X :: cp "general" :: rest), X :: cp "general" :: rest).
Proof.
  intros Hword Horder Hapart Hmark HmX Hmg.
  unfold Links.add_links_to_description.
  destruct txt as [|c0 txt]; [discriminate Hmg|].
  rewrite Hmark, Horder.
  destruct (cluster_matches_inv _ _ _ _ HmX) as (cX & _ & _ & HcX & _ & _).
  destruct (cluster_matches_inv _ _ _ _ Hmg) as (cg & _ & _ & Hcg & _ & _).
  rewrite link_loop_cons, bool_decide_eq_false_2 by (unfold max_links; lia).
  rewrite HcX.
  destruct (try_patterns_match X cX (c0 :: txt) 0 [] HcX HmX)
    as (p & t & Hin & Hs & ->).
  rewrite link_loop_cons, bool_decide_eq_false_2 by (unfold max_links; lia).
  rewrite Hcg.
  pose proof (re_sub1_keeps_cluster _ _ _ _ _ _ _ _ Hword Hapart HcX Hin Hs Hmg) as Hmg'.
  destruct (try_patterns_match (cp "general") cg _ (0 + 1) ([] ++ [X]) Hcg Hmg')
    as (p' & t' & _ & _ & ->).
  destruct (link_loop_inv uni_word uni_fold order' (re_sub1 p' t' (re_sub1 p t (c0 :: txt)))
              (0 + 1 + 1) (([] ++ [X]) ++ [cp "general"]))
    as (out & rest & -> & _ & _); [done|unfold max_links; lia|].
  by exists out, rest.
Qed.


End EvaluationOrder.

Lemma ascii_only_folded_letters_are_words :
  folded_letters_are_words ascii_only_word ascii_only_fold.
Proof.
  intros c Hc Hl. unfold ascii_only_fold, is_ascii, ascii_lower_letter in *.
  apply N.ltb_ge in Hc. apply andb_prop in Hl as [_ Hl]. apply N.leb_le in Hl. lia.
Defined.


(** ** Brightness and colour roles (Brand.dev) *)

Import BrandDev.

Lemma hex_digit_range c d : hex_digit c = Some d → (0 ≤ d ≤ 15)%Z ∧ c ≠ chr "#".
Proof.
  unfold hex_digit, ascii_digit. intros H.
  repeat match type of H with
         | (if ?b then _ else _) = _ => destruct b eqn:?
         end; try discriminate; injection H as <-;
    repeat match goal with
           | E : (_ && _) = true |- _ => apply andb_prop in E as [? ?]
           | E : (_ <=? _)%N = true |- _ => apply N.leb_le in E
           end;
    (split; [lia|]); intros ->; change (chr "#") with 35%N in *; lia.
Qed.

Lemma int16_pair c1 c2 d1 d2 :
  hex_digit c1 = Some d1 → hex_digit c2 = Some d2 →
  int16 [c1; c2] = Some (16 * d1 + d2)%Z.
Proof.
  intros H1 H2. unfold int16. simpl. rewrite H1. simpl. rewrite H2. simpl.
  try done; f_equal; lia.
Qed.

Lemma lstrip_hash_digit c s d : hex_digit c = Some d → lstrip_hash (c :: s) = c :: s.
Proof.
  intros [_ Hc]%hex_digit_range.
  change (lstrip_hash (c :: s))
    with (if (c =? chr "#")%N then lstrip_hash s else c :: s).
  by rewrite (proj2 (N.eqb_neq _ _) Hc).
Qed.

Lemma lstrip_hash_replicate k c s d :
  hex_digit c = Some d → lstrip_hash (replicate k (chr "#") ++ c :: s) = c :: s.
Proof.
  intros Hd. induction k as [|k IH]; simpl replicate; simpl app.
  - by eapply lstrip_hash_digit.
  - change (lstrip_hash (chr "#" :: replicate k (chr "#") ++ c :: s))
      with (lstrip_hash (replicate k (chr "#") ++ c :: s)). apply IH.
Qed.

Lemma insert_color_perm c l : insert_color c l ≡ₚ c :: l.
Proof.
  induction l as [|d l IH]; simpl; [done|].
  destruct (brightness c <=? brightness d)%Z; [done|].
  rewrite IH. apply Permutation_swap.
Qed.

Lemma sort_colors_perm l : sort_colors l ≡ₚ l.
Proof.
  induction l as [|c l IH]; simpl; [done|].
  rewrite insert_color_perm. by f_equiv.
Qed.

Lemma insert_color_sorted c l :
  StronglySorted Z.le (brightness <$> l) →
  StronglySorted Z.le (brightness <$> insert_color c l).
Proof.
  induction l as [|d l IH]; simpl; intros Hs.
  - repeat constructor.
  - destruct (Z.leb_spec (brightness c) (brightness d)) as [Hle|Hgt]; simpl.
    + constructor; [done|]. inversion_clear Hs as [|? ? _ Hall].
      constructor; [done|]. eapply Forall_impl; [exact Hall|]. simpl. lia.
    + inversion_clear Hs as [|? ? Hs' Hall]. constructor; [by apply IH|].
      rewrite insert_color_perm. simpl. constructor; [lia|done].
Qed.

Lemma sort_colors_sorted l : StronglySorted Z.le (brightness <$> sort_colors l).
Proof.
  induction l as [|c l IH]; simpl; [constructor|]. by apply insert_color_sorted.
Qed.

Lemma fmap_alter_invariant {A B} (g : A → B) (f : A → A) i (l : list A) :
  (∀ x, g (f x) = g x) → g <$> alter f i l = g <$> l.
Proof.
  intros Hg. revert i. induction l as [|x l IH]; intros [|i]; simpl; [done..| |].
  - by rewrite Hg.
  - f_equal. apply IH.
Qed.

Lemma override_types_fmap {B} (g : color → B) l :
  (∀ t c, g (set_type t c) = g c) → g <$> override_types l = g <$> l.
Proof.
  intros Hg. unfold override_types. destruct l as [|c l]; [done|].
  repeat case_bool_decide; rewrite ?fmap_alter_invariant; done.
Qed.

Lemma set_type_type c : set_type (type c) c = c.
Proof. by destruct c. Qed.

(** The role at each position after the override. *)
Lemma override_types_lookup l i c :
  l !! i = Some c →
  override_types l !! i = Some (set_type (positional_type (length l) i (type c)) c).
Proof.
  intros Hi. pose proof (lookup_lt_Some _ _ _ Hi) as Hlt.
  unfold override_types, positional_type. destruct l as [|c0 l]; [done|].
  set (l0 := c0 :: l) in *. clearbody l0.
  repeat (case_bool_decide; rewrite ?length_alter in * );
    rewrite ?list_lookup_alter; repeat case_decide; try lia;
    subst; rewrite ?Hi; cbn [fmap option_fmap option_map];
    by rewrite ?set_type_type.
Qed.

Section BrandDevFacts.

Variable str_lower : text → text.

Local Abbreviation infer_color_type := (BrandDev.infer_color_type str_lower).
Local Abbreviation classify_colors := (BrandDev.classify_colors str_lower).
Local Abbreviation extract_colors := (BrandDev.extract_colors str_lower).
Local Abbreviation extract_brand_data := (BrandDev.extract_brand_data str_lower).

(** C4 (as amended): on a well-formed colour string, any number of leading
    [#] followed by six hexadecimal digits, [calculate_brightness] returns
    the integer part of (299 R + 587 G + 114 B) / 1000, rounded down and
    not to the nearest integer; the result lies in 0..255; [#000000] gives
    0 and the role dark, [#FFFFFF] gives 255 and the role light. *)
Theorem C4_brightness_truncated :
  (∀ k c1 c2 c3 c4 c5 c6 d1 d2 d3 d4 d5 d6,
      hex_digit c1 = Some d1 → hex_digit c2 = Some d2 →
      hex_digit c3 = Some d3 → hex_digit c4 = Some d4 →
      hex_digit c5 = Some d5 → hex_digit c6 = Some d6 →
      let R := (16 * d1 + d2)%Z in
      let G := (16 * d3 + d4)%Z in
      let B := (16 * d5 + d6)%Z in
      calculate_brightness (replicate k (chr "#") ++ [c1; c2; c3; c4; c5; c6])
      = Some ((299 * R + 587 * G + 114 * B) / 1000)%Z ∧
      (0 ≤ (299 * R + 587 * G + 114 * B) / 1000 ≤ 255)%Z) ∧
  (calculate_brightness (cp "#000000") = Some 0%Z ∧
   ∀ name, infer_color_type name 0 = dark) ∧
  (calculate_brightness (cp "#FFFFFF") = Some 255%Z ∧
   ∀ name, infer_color_type name 255 = light).
Proof.
  split; [|by split].
  intros k c1 c2 c3 c4 c5 c6 d1 d2 d3 d4 d5 d6 H1 H2 H3 H4 H5 H6 R G B.
  destruct (hex_digit_range _ _ H1) as [? _], (hex_digit_range _ _ H2) as [? _],
    (hex_digit_range _ _ H3) as [? _], (hex_digit_range _ _ H4) as [? _],
    (hex_digit_range _ _ H5) as [? _], (hex_digit_range _ _ H6) as [? _].
  split.
  - unfold calculate_brightness.
    rewrite (lstrip_hash_replicate k c1 _ d1 H1).
    change (slice 0 2 [c1; c2; c3; c4; c5; c6]) with [c1; c2].
    change (slice 2 4 [c1; c2; c3; c4; c5; c6]) with [c3; c4].
    change (slice 4 6 [c1; c2; c3; c4; c5; c6]) with [c5; c6].
    rewrite (int16_pair _ _ _ _ H1 H2), (int16_pair _ _ _ _ H3 H4),
      (int16_pair _ _ _ _ H5 H6). simpl. f_equal.
    rewrite Z.quot_div_nonneg by lia. subst R G B. f_equal. lia.
  - subst R G B. split.
    + apply Z.div_pos; lia.
    + apply Z.lt_succ_r. apply Z.div_lt_upper_bound; lia.
Qed.

(** C5 (as amended): when every colour of the list has a well-formed hex
    string, the normalised list is the classified list sorted by brightness
    in ascending order, with the roles overridden by position: index 0 is
    dark whenever the list is not empty (a single colour included), the last
    index is light when there are at least two colours, index 1 is accent
    when there are at least three, and every other entry keeps its inferred
    role; hex strings and brightness values are untouched and the empty list
    stays empty.  Three entries of brightness 10, 130 and 250 in any input
    order end as dark, accent and light, whatever their names. *)
Theorem C5_positional_override raw cs :
  classify_colors raw = Some cs →
  let out := override_types (sort_colors cs) in
  extract_colors raw = Some out ∧
  (cs = [] → out = []) ∧
  (λ c, (hex c, brightness c)) <$> out ≡ₚ (λ c, (hex c, brightness c)) <$> cs ∧
  StronglySorted Z.le (brightness <$> out) ∧
  (∀ i c, sort_colors cs !! i = Some c →
          out !! i = Some (set_type (positional_type (length cs) i (type c)) c)) ∧
  (brightness <$> cs ≡ₚ [10; 130; 250]%Z →
   (λ c, (brightness c, type c)) <$> out
   = [(10, dark); (130, accent); (250, light)]%Z).
Proof.
  intros Hcs out. subst out. split; [|split; [|split; [|split; [|split]]]].
  - unfold extract_colors, BrandDev.extract_colors. by rewrite Hcs.
  - by intros ->.
  - rewrite override_types_fmap by done. by rewrite sort_colors_perm.
  - rewrite override_types_fmap by done. apply sort_colors_sorted.
  - intros i c Hi. rewrite <- (Permutation_length (sort_colors_perm cs)).
    by apply override_types_lookup.
  - intros Hperm.
    pose proof (Permutation_length Hperm) as Hlen. rewrite length_fmap in Hlen.
    destruct cs as [|[h1 t1 b1] [|[h2 t2 b2] [|[h3 t3 b3] [|]]]]; try done.
    simpl in Hperm.
    assert (NoDup [b1; b2; b3]) as Hnd.
    { rewrite Hperm. apply (bool_decide_unpack _). by vm_compute. }
    assert (b1 ∈ [10; 130; 250]%Z) as H1 by (rewrite <- Hperm, !elem_of_cons; auto).
    assert (b2 ∈ [10; 130; 250]%Z) as H2 by (rewrite <- Hperm, !elem_of_cons; auto).
    assert (b3 ∈ [10; 130; 250]%Z) as H3 by (rewrite <- Hperm, !elem_of_cons; auto).
    apply NoDup_cons in Hnd as [Hn1 Hnd]. apply NoDup_cons in Hnd as [Hn2 _].
    rewrite list_elem_of_In in H1, H2, H3, Hn1, Hn2. simpl in *.
    destruct H1 as [<-|[<-|[<-|[]]]], H2 as [<-|[<-|[<-|[]]]],
      H3 as [<-|[<-|[<-|[]]]]; try (by vm_compute); exfalso; tauto.
Qed.

(** C6: when every colour has a well-formed hex string the Brand.dev
    normaliser returns a record whose quality score is the number of
    non-empty items among colours, logos, banners, description, city and
    industries, divided by 6 and rounded to two decimals; it lies between
    0 and 1 and is one of 0, 0.17, 0.33, 0.5, 0.67, 0.83 and 1.  The
    Brandfetch normaliser passes [qualityScore] through unchanged. *)
Theorem C6_quality_score (b : raw_brand) (r : Brandfetch.api_response) :
  (is_Some (classify_colors (raw_colors b)) →
   ∃ rec, extract_brand_data b = Some rec ∧
     let k := count_true
                [ nonempty (colors rec);
                  negb (bool_decide (logos rec = ∅));
                  negb (bool_decide (banners rec = ∅));
                  truthy (description rec);
                  truthy (city rec);
                  nonempty (industries rec) ] in
     quality_score rec = round2 (Z.of_nat k # 6) ∧
     (0 <= quality_score rec)%Q ∧ (quality_score rec <= 1)%Q ∧
     quality_score rec
       ∈ [0 # 100; 17 # 100; 33 # 100; 50 # 100; 67 # 100; 83 # 100; 100 # 100]%Q) ∧
  Brandfetch.quality_score (Brandfetch.extract_brand_data r)
  = Brandfetch.qualityScore r.
Proof.
  split; [|done]. intros [cs Hcs].
  unfold extract_brand_data, BrandDev.extract_brand_data,
    BrandDev.extract_colors.
  rewrite Hcs. cbn [fmap option_fmap option_map mbind option_bind].
  eexists. split; [reflexivity|].
  cbn [colors logos banners description city industries quality_score].
  unfold quality_factors.
  generalize (nonempty ((override_types ∘ sort_colors) cs)).
  generalize (negb (bool_decide (BrandDev.extract_logos (raw_logos b) = ∅))).
  generalize (negb (bool_decide (extract_banners (raw_backdrops b) = ∅))).
  generalize (truthy (raw_description b)).
  generalize (truthy (addr_city (raw_addr b))).
  generalize (nonempty (extract_industries (raw_eic b))).
  intros [] [] [] [] [] [];
    (split; [by vm_compute|]); (split; [by vm_compute|]);
    (split; [by vm_compute|]);
    match goal with
    | |- ?x ∈ _ => let y := eval vm_compute in x in change x with y
    end;
    repeat first [apply list_elem_of_here | apply list_elem_of_further].
Qed.

End BrandDevFacts.

(** C5 on three colours of brightness 250, 10 and 130. *)
Lemma C5_witness :
  let raw :=
    [ {| BrandDev.raw_hex := Some (cp "#FAFAFA"); BrandDev.raw_name := Some (cp "Primary") |};
      {| BrandDev.raw_hex := Some (cp "#0A0A0A"); BrandDev.raw_name := Some (cp "accent") |};
      {| BrandDev.raw_hex := Some (cp "#828282"); BrandDev.raw_name := None |} ] in
  let cs :=
    [ {| hex := cp "#FAFAFA"; type := light; brightness := 250 |};
      {| hex := cp "#0A0A0A"; type := dark; brightness := 10 |};
      {| hex := cp "#828282"; type := accent; brightness := 130 |} ] in
  BrandDev.classify_colors ascii_only_lower raw = Some cs ∧
  BrandDev.extract_colors ascii_only_lower raw
  = Some [ {| hex := cp "#0A0A0A"; type := dark; brightness := 10 |};
           {| hex := cp "#828282"; type := accent; brightness := 130 |};
           {| hex := cp "#FAFAFA"; type := light; brightness := 250 |} ].
Proof.
  intros raw cs. split; [by vm_compute|].
  exact (proj1 (C5_positional_override ascii_only_lower raw cs eq_refl)).
Defined.

(** A single colour [#FFFFFF] is inferred light and is stored as dark: the
    override at index 0 applies to a list of one colour. *)
Lemma C5_counterexample :
  let raw :=
    [ {| BrandDev.raw_hex := Some (cp "#FFFFFF"); BrandDev.raw_name := None |} ] in
  BrandDev.extract_colors ascii_only_lower raw
  ≠ sort_colors <$> BrandDev.classify_colors ascii_only_lower raw.
Proof. by vm_compute. Qed.

(** C4 on the colour [#00FF00]. *)
Lemma C4_witness :
  BrandDev.hex_digit (chr "0") = Some 0%Z ∧
  BrandDev.hex_digit (chr "F") = Some 15%Z ∧
  BrandDev.calculate_brightness (cp "#00FF00") = Some 149%Z.
Proof.
  split; [done|]. split; [done|].
  exact (proj1 (proj1 (C4_brightness_truncated BrandDev.ascii_only_lower) 1
           (chr "0") (chr "0") (chr "F") (chr "F") (chr "0") (chr "0")
           0%Z 0%Z 15%Z 15%Z 0%Z 0%Z
           eq_refl eq_refl eq_refl eq_refl eq_refl eq_refl)).
Defined.

(** At [#00FF00] the exact quotient is 149.685: the code returns 149 and
    rounding to nearest gives 150. *)
Lemma C4_counterexample :
  BrandDev.calculate_brightness (cp "#00FF00")
  ≠ Some (BrandDev.round_half_even (299 * 0 + 587 * 255 + 114 * 0) 1000).
Proof. by vm_compute. Qed.

(** C6 on a payload with four of the six items. *)
Lemma C6_witness :
  let b :=
    {| raw_colors := [ {| raw_hex := Some (cp "#FFFFFF"); raw_name := None |} ];
       raw_logos := [];
       raw_backdrops := [None];
       raw_description := Some [];
       raw_addr := {| addr_city := Some (cp "London"); addr_country := None |};
       raw_eic := [None; Some (cp "Finance")] |} in
  is_Some (BrandDev.classify_colors ascii_only_lower (raw_colors b)) ∧
  ∃ rec, BrandDev.extract_brand_data ascii_only_lower b = Some rec ∧
         quality_score rec = (67 # 100)%Q.
Proof.
  intros b.
  assert (is_Some (BrandDev.classify_colors ascii_only_lower (raw_colors b))) as Hc.
  { by eexists. }
  split; [exact Hc|].
  destruct (proj1 (C6_quality_score ascii_only_lower b
                     (Brandfetch.Build_api_response [] [] [] None
                        (Brandfetch.Build_raw_company None None []) None)) Hc)
    as (rec & Hrec & Hq & _).
  exists rec. split; [exact Hrec|].
  rewrite Hq. injection Hrec as <-. reflexivity.
Defined.

(** ** Logo formats (Brandfetch) *)

Lemma best_format_preferred (key : text) (formats : list Brandfetch.raw_format)
    (logos : gmap text (option text)) :
  Brandfetch.best_format key formats logos
  = match Brandfetch.preferred_src formats with
    | Some u => <[key := u]> logos
    | None => logos
    end.
Proof.
  unfold Brandfetch.preferred_src.
  revert logos. induction formats as [|f formats IH]; intros logos; [done|].
  simpl Brandfetch.best_format. rewrite !filter_cons.
  case_bool_decide as Hsvg.
  - by rewrite decide_True by done.
  - rewrite (decide_False (P := Brandfetch.format f = Some (cp "svg"))) by done.
    case_bool_decide as Hpng.
    + rewrite (decide_True (P := Brandfetch.format f = Some (cp "png"))) by done.
      rewrite IH.
      destruct (head (filter _ formats)) as [g|]; [by rewrite insert_insert_eq|].
      destruct (filter (λ f, Brandfetch.format f = Some (cp "png")) formats)
        as [|g pngs] eqn:E; [done|].
      rewrite (last_cons f (g :: pngs)).
      destruct (last (g :: pngs)) as [h|] eqn:El; simpl.
      * by rewrite insert_insert_eq.
      * by apply last_None in El.
    + rewrite (decide_False (P := Brandfetch.format f = Some (cp "png"))) by done.
      apply IH.
Qed.

Lemma filter_none {A} (P : A → Prop) `{!∀ x, Decision (P x)} (l : list A) :
  Forall (λ x, ¬ P x) l → filter P l = [].
Proof.
  induction 1 as [|x l Hx _ IH]; [done|]. by rewrite filter_cons_False.
Qed.

Lemma extract_logos_snoc l logo :
  Brandfetch.extract_logos (l ++ [logo])
  = Brandfetch.best_format (Brandfetch.logo_key logo)
      (Brandfetch.logo_formats logo) (Brandfetch.extract_logos l).
Proof. unfold Brandfetch.extract_logos. by rewrite foldl_app. Qed.

(** C7 (as amended): for one logo entry the loop keeps, under the key
    [{type}_{theme}], the URL of the first SVG format if the list has one,
    else the URL of the last PNG format of the list, and leaves the map as
    it was when the entry has neither.  The map holds one URL per key: an
    entry that yields a URL overwrites what an earlier entry stored under
    the same key, and the other keys are untouched. *)
Theorem C7_logo_format_choice :
  (∀ (key : text) (formats : list Brandfetch.raw_format)
     (logos : gmap text (option text)),
      Brandfetch.best_format key formats logos
      = match Brandfetch.preferred_src formats with
        | Some u => <[key := u]> logos
        | None => logos
        end) ∧
  (∀ pre f post,
      Brandfetch.format f = Some (cp "svg") →
      Forall (λ g, Brandfetch.format g ≠ Some (cp "svg")) pre →
      Brandfetch.preferred_src (pre ++ f :: post) = Some (Brandfetch.src f)) ∧
  (∀ pre f post,
      Brandfetch.format f = Some (cp "png") →
      Forall (λ g, Brandfetch.format g ≠ Some (cp "svg")) (pre ++ f :: post) →
      Forall (λ g, Brandfetch.format g ≠ Some (cp "png")) post →
      Brandfetch.preferred_src (pre ++ f :: post) = Some (Brandfetch.src f)) ∧
  Brandfetch.extract_logos [] = ∅ ∧
  (∀ l logo k,
      Brandfetch.extract_logos (l ++ [logo]) !! k
      = if decide (Brandfetch.logo_key logo = k)
        then match Brandfetch.preferred_src (Brandfetch.logo_formats logo) with
             | Some u => Some u
             | None => Brandfetch.extract_logos l !! k
             end
        else Brandfetch.extract_logos l !! k).
Proof.
  split; [exact best_format_preferred|]. split; [|split; [|split; [done|]]].
  - intros pre f post Hf Hpre. unfold Brandfetch.preferred_src.
    rewrite filter_app, filter_cons, decide_True by done.
    by rewrite (filter_none _ pre Hpre).
  - intros pre f post Hf Hsvg Hpost. unfold Brandfetch.preferred_src.
    rewrite (filter_none _ _ Hsvg). simpl.
    rewrite filter_app, filter_cons, decide_True by done.
    by rewrite (filter_none _ post Hpost), last_snoc.
  - intros l logo k. rewrite extract_logos_snoc, best_format_preferred.
    destruct (Brandfetch.preferred_src _) as [u|].
    + rewrite lookup_insert. by case_decide.
    + by case_decide.
Qed.

(** C7 on two PNG formats followed by two SVG formats. *)
Lemma C7_witness :
  let png (a : string) :=
    {| Brandfetch.format := Some (cp "png"); Brandfetch.src := Some (cp a) |} in
  let svg (a : string) :=
    {| Brandfetch.format := Some (cp "svg"); Brandfetch.src := Some (cp a) |} in
  Brandfetch.format (svg "c.svg"%string) = Some (cp "svg") ∧
  Forall (λ g, Brandfetch.format g ≠ Some (cp "svg"))
    [png "a.png"%string; png "b.png"%string] ∧
  Brandfetch.preferred_src
    [png "a.png"%string; png "b.png"%string; svg "c.svg"%string; svg "d.svg"%string]
  = Some (Some (cp "c.svg")).
Proof.
  intros png svg.
  assert (Forall (λ g, Brandfetch.format g ≠ Some (cp "svg"))
            [png "a.png"%string; png "b.png"%string])
    as Hpre by (by repeat constructor).
  split; [done|]. split; [exact Hpre|].
  exact (proj1 (proj2 C7_logo_format_choice)
           [png "a.png"%string; png "b.png"%string] (svg "c.svg"%string)
           [svg "d.svg"%string] eq_refl Hpre).
Defined.

(** With two PNG formats and no SVG the map ends with the second URL, not
    with the first. *)
Lemma C7_counterexample :
  let png (a : string) :=
    {| Brandfetch.format := Some (cp "png"); Brandfetch.src := Some (cp a) |} in
  let logo :=
    {| Brandfetch.logo_type := None; Brandfetch.logo_theme := None;
       Brandfetch.logo_formats := [png "a.png"%string; png "b.png"%string] |} in
  Brandfetch.extract_logos [logo] !! cp "logo_light" = Some (Some (cp "b.png")) ∧
  Brandfetch.extract_logos [logo] !! cp "logo_light"
  ≠ Brandfetch.spec_preferred_src (Brandfetch.logo_formats logo).
Proof. split; by vm_compute. Qed.

(** ** Which descriptions get a link *)

Section LinkOutcome.

Variable uni_word : N → bool.
Variable uni_fold : N → N.
Variable uni_upper : N → text.

Local Abbreviation re_search := (Links.re_search uni_word uni_fold).
Local Abbreviation re_sub1 := (Links.re_sub1 uni_word uni_fold).
Local Abbreviation try_patterns := (Links.try_patterns uni_word uni_fold).
Local Abbreviation link_loop := (Links.link_loop uni_word uni_fold).
Local Abbreviation any_match := (Links.any_match uni_word uni_fold).
Local Abbreviation any_cluster_matches := (Links.any_cluster_matches uni_word uni_fold).
Local Abbreviation cluster_matches := (Links.cluster_matches uni_word uni_fold).
Local Abbreviation cluster_order := (Links.cluster_order uni_upper).
Local Abbreviation add_links_to_description :=
  (Links.add_links_to_description uni_word uni_fold uni_upper).

(** Every cluster of the table is in the evaluation order, whatever the
    hint. *)
Lemma cluster_order_complete hint name :
  clusters_has KEYWORD_CLUSTERS name = true → name ∈ cluster_order hint.
Proof.
  intros H. apply keyword_names in H.
  rewrite (cluster_order_spec uni_upper). unfold spec_cluster_order.
  set (placed := _ ++ [cp "general"]).
  destruct (decide (name ∈ placed)) as [Hin|Hout];
    apply elem_of_app; [by left|right].
  apply list_elem_of_filter. split; [done|].
  apply elem_of_app in H as [H|H]; [done|].
  apply list_elem_of_singleton in H as ->. destruct Hout.
  apply elem_of_app. right. apply list_elem_of_here.
Qed.

Lemma link_loop_mono order r n cs : n ≤ (link_loop order (r, n, cs)).1.2.
Proof.
  apply (link_loop_ind uni_word uni_fold (λ st, n ≤ st.1.2)); [|done].
  intros. simpl in *. lia.
Qed.

Lemma cluster_matches_false_step name c r n cs :
  clusters_get KEYWORD_CLUSTERS name = Some c →
  cluster_matches name r = false →
  try_patterns name (patterns c) (r, n, cs) = (r, n, cs).
Proof.
  intros Hc Hm. unfold Links.cluster_matches in Hm. rewrite Hc in Hm.
  apply try_patterns_none. by apply any_match_Forall.
Qed.

(** The clusters without a phrase in the text are passed over. *)
Lemma link_loop_skip pre order r n cs :
  Forall (λ name, cluster_matches name r = false) pre →
  link_loop (pre ++ order) (r, n, cs)
  = if bool_decide (max_links ≤ n) then (r, n, cs) else link_loop order (r, n, cs).
Proof.
  induction 1 as [|name pre Hname _ IH]; simpl app.
  - case_bool_decide; [|done]. destruct order; [done|].
    rewrite link_loop_cons. by rewrite bool_decide_eq_true_2.
  - rewrite link_loop_cons. case_bool_decide as Hn; [done|].
    destruct (clusters_get KEYWORD_CLUSTERS name) as [c|] eqn:Hc.
    + rewrite (cluster_matches_false_step _ _ _ _ _ Hc Hname), IH.
      by rewrite ?bool_decide_eq_false_2.
    + rewrite IH. by rewrite ?bool_decide_eq_false_2.
Qed.

(** The evaluation order split at the first cluster with a phrase in the
    text. *)
Lemma first_matching_cluster (order : list text) r name :
  name ∈ order → cluster_matches name r = true →
  ∃ pre first post,
    order = pre ++ first :: post ∧
    Forall (λ name, cluster_matches name r = false) pre ∧
    cluster_matches first r = true.
Proof.
  induction order as [|x order IH]; [by intros ?%elem_of_nil|].
  intros Hin Hm. destruct (cluster_matches x r) eqn:Hx.
  - exists [], x, order. by repeat split.
  - apply elem_of_cons in Hin as [->|Hin]; [congruence|].
    destruct (IH Hin Hm) as (pre & first & post & -> & Hpre & Hfirst).
    exists (x :: pre), first, post. repeat split; [by constructor|done].
Qed.

Lemma any_cluster_matches_true r :
  any_cluster_matches r = true →
  ∃ name, clusters_has KEYWORD_CLUSTERS name = true ∧ cluster_matches name r = true.
Proof.
  intros H. unfold Links.any_cluster_matches in H.
  apply existsb_exists in H as ([name c] & Hin & H). simpl in H.
  assert (NoDup (KEYWORD_CLUSTERS.*1)) as Hnd.
  { apply (bool_decide_unpack _). by vm_compute. }
  assert (clusters_get KEYWORD_CLUSTERS name = Some c) as Hc.
  { apply list_elem_of_In in Hin. revert Hnd Hin. generalize KEYWORD_CLUSTERS.
    intros d. induction d as [|[k v] d IH]; simpl; [by intros _ ?%elem_of_nil|].
    intros [Hk Hnd]%NoDup_cons [[= <- <-]|Hin]%elem_of_cons.
    - by rewrite bool_decide_eq_true_2.
    - rewrite bool_decide_eq_false_2; [by apply IH|].
      intros ->. apply Hk. apply list_elem_of_fmap. by exists (name, c). }
  exists name. split.
  - unfold clusters_has. apply bool_decide_eq_true. by eexists.
  - unfold Links.cluster_matches. by rewrite Hc.
Qed.

Lemma cluster_matches_nil name : cluster_matches name [] = false.
Proof.
  destruct (cluster_matches name []) eqn:Hm; [|done].
  destruct (cluster_matches_inv _ _ _ _ Hm) as (c & p & t & Hc & Hin & [m Hs]).
  assert (any_cluster_matches [] = false) as Hnil by (by vm_compute).
  pose proof (any_cluster_matches_false uni_word uni_fold _ _ _ Hnil Hc) as Hany.
  by rewrite (any_match_false uni_word uni_fold _ _ _ _ Hany Hin) in Hs.
Qed.

(** The loop on a text in which the first cluster of [first :: post] has a
    phrase. *)
Lemma link_loop_first pre first post r :
  Forall (λ name, cluster_matches name r = false) pre →
  cluster_matches first r = true →
  ∃ c p t out rest,
    clusters_get KEYWORD_CLUSTERS first = Some c ∧
    try_patterns first (patterns c) (r, 0, []) = (re_sub1 p t r, 1, [first]) ∧
    link_loop (pre ++ first :: post) (r, 0, [])
    = (out, S (length rest), first :: rest) ∧
    rest `sublist_of` post.
Proof.
  intros Hpre Hfirst.
  destruct (cluster_matches_inv _ _ _ _ Hfirst) as (c & _ & _ & Hc & _ & _).
  destruct (try_patterns_match uni_word uni_fold first c r 0 [] Hc Hfirst)
    as (p & t & _ & _ & Htry).
  rewrite link_loop_skip, bool_decide_eq_false_2 by (done || unfold max_links; lia).
  rewrite link_loop_cons, bool_decide_eq_false_2 by (unfold max_links; lia).
  rewrite Hc, Htry.
  destruct (link_loop_inv uni_word uni_fold post (re_sub1 p t r) (0 + 1) ([] ++ [first]))
    as (out & rest & -> & Hsub & _); [done|unfold max_links; lia|].
  exists c, p, t, out, rest. by repeat split.
Qed.

Lemma links_added_iff_phrase txt hint :
  0 < (add_links_to_description txt hint).1.2 ↔
  py_in link_marker txt = false ∧ any_cluster_matches txt = true.
Proof.
  split.
  - intros Hn. split.
    + destruct (py_in link_marker txt) eqn:Hm; [|done].
      rewrite (add_links_guard uni_word uni_fold uni_upper txt hint Hm) in Hn.
      simpl in Hn. lia.
    + destruct (any_cluster_matches txt) eqn:Hm; [done|].
      rewrite (add_links_no_match uni_word uni_fold uni_upper txt hint Hm) in Hn.
      simpl in Hn. lia.
  - intros [Hmark Hany].
    destruct (any_cluster_matches_true _ Hany) as (name & Hname & Hm).
    destruct (first_matching_cluster (cluster_order hint) txt name
                (cluster_order_complete hint name Hname) Hm)
      as (pre & first & post & Horder & Hpre & Hfirst).
    destruct (link_loop_first pre first post txt Hpre Hfirst)
      as (c & p & t & out & rest & _ & _ & Hloop & _).
    unfold Links.add_links_to_description.
    destruct txt as [|c0 txt]; [by rewrite cluster_matches_nil in Hfirst|].
    rewrite Hmark, Horder, Hloop. simpl. lia.
Qed.

(** X1: a description gets at least one link exactly when it does not
    already contain the link marker and some pattern of some cluster
    matches it; the role hint plays no part in it. *)
Theorem X1_linked_iff_phrase txt hint :
  0 < (add_links_to_description txt hint).1.2 ↔
  py_in link_marker txt = false ∧ any_cluster_matches txt = true.
Proof. apply links_added_iff_phrase. Qed.

(** X2: the text comes back unchanged exactly when no link was added. *)
Theorem X2_unchanged_iff_no_link txt hint :
  (add_links_to_description txt hint).1.2 = 0 ↔
  (add_links_to_description txt hint).1.1 = txt.
Proof.
  split.
  - unfold Links.add_links_to_description. destruct txt as [|c0 txt]; [done|].
    destruct (py_in link_marker (c0 :: txt)); [done|].
    apply (link_loop_ind uni_word uni_fold
             (λ st, st.1.2 = 0 → st.1.1 = c0 :: txt)); [|done].
    intros. simpl in *. lia.
  - intros Hsame.
    destruct (decide ((add_links_to_description txt hint).1.2 = 0)) as [|Hn]; [done|].
    pose proof (add_links_marker uni_word uni_fold uni_upper txt hint) as Hmark.
    rewrite Hsame in Hmark.
    rewrite (add_links_guard uni_word uni_fold uni_upper txt hint) in Hn;
      [done|apply Hmark; lia].
Qed.

(** X3: on a text without the link marker, the first link goes to the
    first cluster of the evaluation order that has a phrase in the text:
    that cluster heads the clusters used, whatever the hint, and the
    others are picked from the clusters after it. *)
Theorem X3_first_link_first_matching_cluster txt hint pre first post :
  py_in link_marker txt = false →
  cluster_order hint = pre ++ first :: post →
  Forall (λ name, cluster_matches name txt = false) pre →
  cluster_matches first txt = true →
  ∃ out rest,
    add_links_to_description txt hint = (out, S (length rest), first :: rest) ∧
    rest `sublist_of` post.
Proof.
  intros Hmark Horder Hpre Hfirst.
  destruct (link_loop_first pre first post txt Hpre Hfirst)
    as (c & p & t & out & rest & _ & _ & Hloop & Hsub).
  exists out, rest. split; [|done].
  unfold Links.add_links_to_description.
  destruct txt as [|c0 txt]; [by rewrite cluster_matches_nil in Hfirst|].
  by rewrite Hmark, Horder, Hloop.
Qed.

End LinkOutcome.

(** X1 on a description with a CFO phrase, under a hint that names no
    cluster. *)
Lemma X1_witness :
  py_in link_marker (cp "Our part-time CFO joins in May") = false ∧
  any_cluster_matches ascii_only_word ascii_only_fold
    (cp "Our part-time CFO joins in May") = true ∧
  0 < (add_links_ascii "Our part-time CFO joins in May" (Some "Sales"%string)).1.2.
Proof.
  assert (py_in link_marker (cp "Our part-time CFO joins in May") = false ∧
          any_cluster_matches ascii_only_word ascii_only_fold
            (cp "Our part-time CFO joins in May") = true) as H.
  { split; by vm_compute. }
  split; [apply H|]. split; [apply H|].
  exact (proj2 (X1_linked_iff_phrase ascii_only_word ascii_only_fold ascii_only_upper
                  (cp "Our part-time CFO joins in May") (Some (cp "Sales"))) H).
Defined.

(** X2 on a description without any phrase of the table. *)
Lemma X2_witness :
  (add_links_ascii "We are hiring a bookkeeper" None).1.2 = 0 ∧
  (add_links_ascii "We are hiring a bookkeeper" None).1.1
  = cp "We are hiring a bookkeeper".
Proof.
  assert ((add_links_ascii "We are hiring a bookkeeper" None).1.2 = 0) as H.
  { by vm_compute. }
  split; [exact H|].
  exact (proj1 (X2_unchanged_iff_no_link ascii_only_word ascii_only_fold
                  ascii_only_upper (cp "We are hiring a bookkeeper") None) H).
Defined.

(** X3 without a hint: [general] comes first, and a text with a CFO phrase
    only gets its link from the CFO cluster. *)
Lemma X3_witness :
  ∃ out rest,
    add_links_ascii "Our part-time CFO joins in May" None
    = (out, S (length rest), cp "CFO" :: rest) ∧
    rest `sublist_of` [cp "CMO"; cp "CTO"; cp "COO"].
Proof.
  apply (X3_first_link_first_matching_cluster ascii_only_word ascii_only_fold
           ascii_only_upper (cp "Our part-time CFO joins in May") None
           [cp "general"] (cp "CFO") [cp "CMO"; cp "CTO"; cp "COO"]).
  - by vm_compute.
  - by vm_compute.
  - repeat constructor; by vm_compute.
  - by vm_compute.
Defined.

(** ** The batch run of the regex linker *)

Section LinkRunnerFacts.

Import LinkRunner.

Variable uni_word : N → bool.
Variable uni_fold : N → N.
Variable uni_upper : N → text.

Local Abbreviation any_cluster_matches := (Links.any_cluster_matches uni_word uni_fold).
Local Abbreviation add_links_to_description :=
  (Links.add_links_to_description uni_word uni_fold uni_upper).
Local Abbreviation linked_text := (LinkRunner.linked_text uni_word uni_fold uni_upper).
Local Abbreviation has_link_phrase := (LinkRunner.has_link_phrase uni_word uni_fold).
Local Abbreviation process_loop := (LinkRunner.process_loop uni_word uni_fold uni_upper).
Local Abbreviation process_jobs := (LinkRunner.process_jobs uni_word uni_fold uni_upper).

Lemma process_jobs_loop dry_run jobs db :
  process_jobs dry_run jobs db = process_loop dry_run jobs db 0 0.
Proof. by destruct jobs. Qed.

(** One turn of the loop. *)
Lemma process_loop_cons dry_run j jobs db s m :
  process_loop dry_run (j :: jobs) db s m =
    match job_title j with
    | None => (db, Crashed)
    | Some _ =>
        match linked_text j with
        | Some u =>
            process_loop dry_run jobs
              (if dry_run then db else update_job_description db (job_id j) u)
              (s + 1) m
        | None => process_loop dry_run jobs db s (m + 1)
        end
    end.
Proof.
  simpl. unfold LinkRunner.linked_text. destruct (job_title j); [|done].
  destruct (job_full_description j) as [t|]; [|done].
  destruct (add_links_to_description t (job_role_category j)) as [[u n] cs].
  by case_bool_decide.
Qed.

Lemma linked_text_marker j u :
  linked_text j = Some u → py_in link_marker u = true.
Proof.
  unfold LinkRunner.linked_text. destruct (job_full_description j) as [t|]; [|done].
  pose proof (add_links_marker uni_word uni_fold uni_upper t (job_role_category j)) as H.
  destruct (add_links_to_description t (job_role_category j)) as [[u' n] cs].
  case_bool_decide; [|done]. intros [= <-]. by apply H.
Qed.

Lemma linked_text_phrase j :
  is_Some (linked_text j) ↔ has_link_phrase j = true.
Proof.
  unfold LinkRunner.linked_text, LinkRunner.has_link_phrase.
  destruct (job_full_description j) as [t|]; [|split; [by intros []|done]].
  pose proof (links_added_iff_phrase uni_word uni_fold uni_upper t (job_role_category j))
    as H.
  destruct (add_links_to_description t (job_role_category j)) as [[u n] cs].
  simpl in H. rewrite andb_true_iff, negb_true_iff, <- H.
  case_bool_decide; (split; [intros [? ?]|intros ?]); try done; by eexists.
Qed.

Lemma process_loop_outcome dry_run jobs db s m :
  match (process_loop dry_run jobs db s m).2 with
  | Completed s' m' =>
      Forall (λ j, is_Some (job_title j)) jobs ∧
      s' = s + length (filter (λ j, has_link_phrase j = true) jobs) ∧
      s' + m' = s + m + length jobs
  | Crashed => Exists (λ j, job_title j = None) jobs
  end.
Proof.
  revert db s m. induction jobs as [|j jobs IH]; intros db s m.
  - simpl. repeat split; [constructor|lia..].
  - rewrite process_loop_cons. destruct (job_title j) as [ti|] eqn:Ht.
    + rewrite filter_cons. pose proof (linked_text_phrase j) as Hp.
      destruct (linked_text j) as [u|].
      * rewrite decide_True by (apply Hp; by eexists).
        specialize (IH (if dry_run then db else update_job_description db (job_id j) u)
                      (s + 1) m).
        destruct (process_loop _ _ _ _ _).2 as [s' m'|].
        -- destruct IH as (Hall & Hs & Hsum). simpl.
           repeat split; [constructor; [by eexists|done]|lia..].
        -- by apply Exists_cons_tl.
      * rewrite decide_False
          by (intros H; apply Hp in H; by destruct H).
        specialize (IH db s (m + 1)).
        destruct (process_loop _ _ _ _ _).2 as [s' m'|].
        -- destruct IH as (Hall & Hs & Hsum). simpl.
           repeat split; [constructor; [by eexists|done]|lia..].
        -- by apply Exists_cons_tl.
    + simpl. by apply Exists_cons_hd.
Qed.

(** X4: a run ends with the [TypeError] of its first [print] exactly when
    some job has a NULL title.  Otherwise the number of jobs reported as
    updated is the number of jobs whose description has no link yet and a
    phrase of some cluster, whatever their role categories, and the jobs
    reported as without match are all the others. *)
Theorem X4_run_outcome dry_run jobs db :
  match (process_jobs dry_run jobs db).2 with
  | Completed success_count no_match_count =>
      Forall (λ j, is_Some (job_title j)) jobs ∧
      success_count = length (filter (λ j, has_link_phrase j = true) jobs) ∧
      success_count + no_match_count = length jobs
  | Crashed => Exists (λ j, job_title j = None) jobs
  end.
Proof.
  rewrite process_jobs_loop. apply (process_loop_outcome dry_run jobs db 0 0).
Qed.

Lemma process_loop_dry jobs db s m :
  (process_loop true jobs db s m).1 = db ∧
  ∀ db', (process_loop true jobs db s m).2 = (process_loop false jobs db' s m).2.
Proof.
  revert db s m. induction jobs as [|j jobs IH]; intros db s m; [done|].
  split; [|intros db']; rewrite !process_loop_cons;
    destruct (job_title j); try done; destruct (linked_text j); apply IH.
Qed.

(** X5: a dry run leaves the table as it is and reports what the real run
    reports. *)
Theorem X5_dry_run jobs db :
  (process_jobs true jobs db).1 = db ∧
  (process_jobs true jobs db).2 = (process_jobs false jobs db).2.
Proof.
  rewrite !process_jobs_loop. split; apply process_loop_dry.
Qed.

(** What a run may do to a row: nothing, or store the linked text of a job
    of the run with the id of the row. *)
Lemma update_row_kept (P : row → row → Prop) db0 db job_id u :
  (∀ r r1, P r r1 →
     P r (if bool_decide (id r1 = job_id)
          then {| id := id r1; title := title r1; company_name := company_name r1;
                  role_category := role_category r1;
                  full_description := Some u; is_active := is_active r1 |}
          else r1)) →
  Forall2 P db0 db → Forall2 P db0 (update_job_description db job_id u).
Proof.
  intros Hstep H. unfold update_job_description. apply Forall2_fmap_r.
  eapply Forall2_impl; [exact H|]. intros r r1 Hr. by apply Hstep.
Qed.

Lemma process_loop_rows (P : row → row → Prop) dry_run jobs db0 db s m :
  (∀ j u r r1, j ∈ jobs → linked_text j = Some u → P r r1 →
     P r (if bool_decide (id r1 = job_id j)
          then {| id := id r1; title := title r1; company_name := company_name r1;
                  role_category := role_category r1;
                  full_description := Some u; is_active := is_active r1 |}
          else r1)) →
  Forall2 P db0 db → Forall2 P db0 (process_loop dry_run jobs db s m).1.
Proof.
  revert db s m. induction jobs as [|j jobs IH]; intros db s m Hstep H; [done|].
  rewrite process_loop_cons. destruct (job_title j); [|done].
  assert (∀ j' u r r1, j' ∈ jobs → linked_text j' = Some u → P r r1 →
     P r (if bool_decide (id r1 = job_id j')
          then {| id := id r1; title := title r1; company_name := company_name r1;
                  role_category := role_category r1;
                  full_description := Some u; is_active := is_active r1 |}
          else r1)) as Hstep'.
  { intros j' u r r1 Hj'. apply Hstep. by apply list_elem_of_further. }
  destruct (linked_text j) as [u|] eqn:Hu; [|by apply IH].
  apply IH; [done|]. destruct dry_run; [done|].
  apply update_row_kept; [|done]. intros r r1. apply (Hstep j u); [|done].
  apply list_elem_of_here.
Qed.

(** X6: whatever happens in a run, the table keeps its rows, in their
    order, with their id, title, company name, role category and activity
    flag; the description of a row is either what it was or the linked
    text of a job of the run with the id of the row, and that text
    contains the link marker.  No description is emptied, and no row of a
    job outside the run is touched. *)
Theorem X6_rows_after_run dry_run jobs db :
  Forall2 (λ r r',
             id r' = id r ∧ title r' = title r ∧
             company_name r' = company_name r ∧
             role_category r' = role_category r ∧
             is_active r' = is_active r ∧
             (full_description r' = full_description r ∨
              ∃ j u, j ∈ jobs ∧ job_id j = id r ∧ linked_text j = Some u ∧
                     full_description r' = Some u ∧
                     py_in link_marker u = true))
          db (process_jobs dry_run jobs db).1.
Proof.
  rewrite process_jobs_loop. apply process_loop_rows.
  - intros j u r r1 Hj Hu (Hid & Hti & Hco & Hro & Hac & Hde).
    case_bool_decide as Hr; [|done]. simpl. repeat split; try done.
    right. exists j, u. repeat split; [done|congruence|done|by eapply linked_text_marker].
  - apply Forall_Forall2_diag, Forall_forall. intros r _. repeat split. by left.
Qed.

Lemma process_loop_app dry_run pre post db s m :
  Forall (λ j, is_Some (job_title j)) pre →
  ∃ s' m',
    process_loop dry_run pre db s m
    = ((process_loop dry_run pre db s m).1, Completed s' m') ∧
    process_loop dry_run (pre ++ post) db s m
    = process_loop dry_run post (process_loop dry_run pre db s m).1 s' m'.
Proof.
  intros Hpre. revert db s m.
  induction Hpre as [|j pre [ti Hj] _ IH]; intros db s m.
  - by exists s, m.
  - simpl app. rewrite !process_loop_cons, Hj.
    destruct (linked_text j); apply IH.
Qed.

(** Rows with an id that no job of the run has keep their description. *)
Lemma process_loop_other (Q : option text → Prop) x jobs db s m :
  x ∉ job_id <$> jobs →
  (∀ r, r ∈ db → id r = x → Q (full_description r)) →
  ∀ r, r ∈ (process_loop false jobs db s m).1 → id r = x → Q (full_description r).
Proof.
  revert db s m. induction jobs as [|j jobs IH]; intros db s m Hx HQ; [done|].
  rewrite fmap_cons, not_elem_of_cons in Hx. destruct Hx as [Hxj Hx].
  rewrite process_loop_cons. destruct (job_title j); [|done].
  destruct (linked_text j) as [u|]; [|by apply IH].
  apply IH; [done|]. intros r' Hr' Hid.
  unfold update_job_description in Hr'.
  apply list_elem_of_fmap in Hr' as (r & -> & Hr).
  case_bool_decide as Hrj; [simpl in Hid; congruence|by apply HQ].
Qed.

(** X7: when the jobs of a run have distinct ids and titles, as rows
    selected from a table with a primary key do, every row with the id of
    a job that got a link ends the real run with exactly the linked text
    of that job, and so is no candidate of the next run. *)
Theorem X7_linked_text_stored jobs db j u :
  NoDup (job_id <$> jobs) →
  Forall (λ j, is_Some (job_title j)) jobs →
  j ∈ jobs →
  linked_text j = Some u →
  ∀ r, r ∈ (process_jobs false jobs db).1 → id r = job_id j →
       full_description r = Some u ∧ where_unlinked r = false.
Proof.
  intros Hnd Hall Hj Hu.
  assert (∀ r, r ∈ (process_jobs false jobs db).1 → id r = job_id j →
               full_description r = Some u) as Hstored.
  { rewrite process_jobs_loop.
    apply list_elem_of_split in Hj as (pre & post & ->).
    apply Forall_app in Hall as [Hpre Hpost]. apply Forall_cons in Hpost as [[ti Hti] _].
    rewrite fmap_app, fmap_cons in Hnd. apply NoDup_app in Hnd as (_ & _ & Hnd).
    apply NoDup_cons in Hnd as [Hnot _].
    destruct (process_loop_app false pre (j :: post) db 0 0 Hpre)
      as (s' & m' & _ & ->).
    rewrite process_loop_cons, Hti, Hu.
    apply (process_loop_other (λ d, d = Some u)); [done|].
    intros r' Hr' Hid. unfold update_job_description in Hr'.
    apply list_elem_of_fmap in Hr' as (r & -> & Hr).
    case_bool_decide as Hrj; [done|simpl in Hid; congruence]. }
  intros r Hr Hid. specialize (Hstored r Hr Hid). split; [done|].
  pose proof (linked_text_marker j u Hu) as Hm.
  unfold where_unlinked. rewrite Hstored.
  destruct (is_active r) as [[]|]; [|done..]. destruct u; [done|]. by rewrite Hm.
Qed.

(** X8: a job with a NULL title stops the run where it stands: the
    updates of the jobs before it stay committed and the jobs after it are
    not looked at. *)
Theorem X8_crash_keeps_commits dry_run pre bad post db :
  Forall (λ j, is_Some (job_title j)) pre →
  job_title bad = None →
  process_jobs dry_run (pre ++ bad :: post) db
  = ((process_jobs dry_run pre db).1, Crashed).
Proof.
  intros Hpre Hbad. rewrite !process_jobs_loop.
  destruct (process_loop_app dry_run pre (bad :: post) db 0 0 Hpre)
    as (s' & m' & _ & ->).
  by rewrite process_loop_cons, Hbad.
Qed.

End LinkRunnerFacts.

(** X7 on a table of one row. *)
Lemma X7_witness :
  let j := {| LinkRunner.job_id := cp "7";
              LinkRunner.job_title := Some (cp "Finance lead");
              LinkRunner.job_company_name := None;
              LinkRunner.job_role_category := Some (cp "CFO");
              LinkRunner.job_full_description :=
                Some (cp "Our part-time CFO joins in May") |} in
  let r := {| LinkRunner.id := cp "7";
              LinkRunner.title := Some (cp "Finance lead");
              LinkRunner.company_name := None;
              LinkRunner.role_category := Some (cp "CFO");
              LinkRunner.full_description :=
                Some (cp "Our part-time CFO joins in May");
              LinkRunner.is_active := Some true |} in
  let u := cp "Our [part-time CFO](/fractional-jobs?role=CFO) joins in May" in
  LinkRunner.where_unlinked r = true ∧
  ∀ r', r' ∈ (LinkRunner.process_jobs ascii_only_word ascii_only_fold
                ascii_only_upper false [j] [r]).1 →
        LinkRunner.id r' = cp "7" →
        LinkRunner.full_description r' = Some u ∧
        LinkRunner.where_unlinked r' = false.
Proof.
  intros j r u. split; [by vm_compute|].
  apply (X7_linked_text_stored ascii_only_word ascii_only_fold ascii_only_upper
           [j] [r] j u).
  - apply NoDup_singleton.
  - repeat constructor. by eexists.
  - apply list_elem_of_here.
  - by vm_compute.
Defined.

(** X8 on a run of three jobs, the second without title. *)
Lemma X8_witness :
  let j := {| LinkRunner.job_id := cp "7";
              LinkRunner.job_title := Some (cp "Finance lead");
              LinkRunner.job_company_name := None;
              LinkRunner.job_role_category := None;
              LinkRunner.job_full_description :=
                Some (cp "Our part-time CFO joins in May") |} in
  let bad := {| LinkRunner.job_id := cp "8";
                LinkRunner.job_title := None;
                LinkRunner.job_company_name := None;
                LinkRunner.job_role_category := None;
                LinkRunner.job_full_description := Some (cp "A fractional role") |} in
  let r := {| LinkRunner.id := cp "7";
              LinkRunner.title := Some (cp "Finance lead");
              LinkRunner.company_name := None;
              LinkRunner.role_category := None;
              LinkRunner.full_description :=
                Some (cp "Our part-time CFO joins in May");
              LinkRunner.is_active := Some true |} in
  LinkRunner.process_jobs ascii_only_word ascii_only_fold ascii_only_upper
    false [j; bad; j] [r]
  = ((LinkRunner.process_jobs ascii_only_word ascii_only_fold ascii_only_upper
        false [j] [r]).1, LinkRunner.Crashed).
Proof.
  intros j bad r.
  apply (X8_crash_keeps_commits ascii_only_word ascii_only_fold ascii_only_upper
           false [j] bad [j] [r]).
  - repeat constructor. by eexists.
  - done.
Defined.

(** ** The batch run of the AI linker *)

Section AiLinkRunnerFacts.

Import LinkRunner.
Import AiLinkRunner.

Variable add_links_to_job : nat → job → option linked_description.

Local Abbreviation process_loop := (AiLinkRunner.process_loop add_links_to_job).
Local Abbreviation process_jobs := (AiLinkRunner.process_jobs add_links_to_job).

Lemma ai_process_jobs_loop force_all jobs db :
  process_jobs force_all jobs db = process_loop force_all 0 jobs db 0 0.
Proof. by destruct jobs. Qed.

Lemma ai_process_loop_cons force_all i j jobs db s e :
  process_loop force_all i (j :: jobs) db s e =
    match job_title j with
    | None => (db, AiLinkRunner.Crashed)
    | Some _ =>
        if skipped force_all j
        then process_loop force_all (S i) jobs db s e
        else
          match add_links_to_job i j with
          | Some result =>
              if py_in link_marker (updated_description result)
              then process_loop force_all (S i) jobs
                     (update_job_description db (job_id j) (updated_description result))
                     (s + 1) e
              else process_loop force_all (S i) jobs db s (e + 1)
          | None => process_loop force_all (S i) jobs db s (e + 1)
          end
    end.
Proof. done. Qed.

Lemma ai_process_loop_outcome force_all i jobs db s e :
  match (process_loop force_all i jobs db s e).2 with
  | AiLinkRunner.Completed s' e' =>
      Forall (λ j, is_Some (job_title j)) jobs ∧
      s' + e' = s + e + length (filter (λ j, skipped force_all j = false) jobs)
  | AiLinkRunner.Crashed => Exists (λ j, job_title j = None) jobs
  end.
Proof.
  revert i db s e. induction jobs as [|j jobs IH]; intros i db s e.
  - simpl. split; [constructor|lia].
  - rewrite ai_process_loop_cons. destruct (job_title j) as [ti|] eqn:Ht;
      [|by apply Exists_cons_hd].
    rewrite filter_cons.
    assert (∀ i' db' s' e',
              s' + e' = s + e + (if skipped force_all j then 0 else 1) →
              match (process_loop force_all i' jobs db' s' e').2 with
              | AiLinkRunner.Completed s'' e'' =>
                  Forall (λ j, is_Some (job_title j)) (j :: jobs) ∧
                  s'' + e'' =
                  s + e + length (if decide (skipped force_all j = false)
                                  then j :: filter (λ j, skipped force_all j = false) jobs
                                  else filter (λ j, skipped force_all j = false) jobs)
              | AiLinkRunner.Crashed => Exists (λ j, job_title j = None) (j :: jobs)
              end) as Hnext.
    { intros i' db' s' e' Hsum. specialize (IH i' db' s' e').
      destruct (process_loop force_all i' jobs db' s' e').2 as [s'' e''|];
        [|by apply Exists_cons_tl].
      destruct IH as [Hall Hcount]. split; [constructor; [by eexists|done]|].
      destruct (skipped force_all j); simpl in *; lia. }
    destruct (skipped force_all j) eqn:Hskip; [apply Hnext; lia|].
    destruct (add_links_to_job i j) as [result|]; [|apply Hnext; lia].
    destruct (py_in link_marker (updated_description result)); apply Hnext; lia.
Qed.

(** The rows that the query of [fetch_jobs_without_links] selects are not
    passed over by the loop. *)
Lemma selected_jobs_not_skipped force_all rows :
  Forall (λ r, where_unlinked r = true) rows →
  filter (λ j, skipped force_all j = false) (select_job <$> rows)
  = select_job <$> rows.
Proof.
  induction 1 as [|r rows Hr _ IH]; [done|].
  rewrite fmap_cons, filter_cons, IH, decide_True; [done|].
  unfold where_unlinked in Hr. unfold skipped, select_job.
  cbn [job_full_description].
  destruct (is_active r) as [[]|]; try done.
  destruct (full_description r) as [[|c d]|]; try done.
  apply negb_true_iff in Hr.
  change (default [] (Some (c :: d))) with (c :: d).
  rewrite Hr. apply andb_false_r.
Qed.

(** X9: the AI run ends with the [TypeError] of its first [print] exactly
    when some job has a NULL title.  Otherwise the two counters together
    count every job that was not passed over as already linked, whatever
    the agent answered; with [--all] no job is passed over, and neither is
    any job that the query of [fetch_jobs_without_links] selects. *)
Theorem X9_ai_run_outcome force_all jobs db :
  match (process_jobs force_all jobs db).2 with
  | AiLinkRunner.Completed success_count error_count =>
      Forall (λ j, is_Some (job_title j)) jobs ∧
      success_count + error_count
      = length (filter (λ j, skipped force_all j = false) jobs) ∧
      (force_all = true → success_count + error_count = length jobs) ∧
      (∀ rows, jobs = select_job <$> rows →
               Forall (λ r, where_unlinked r = true) rows →
               success_count + error_count = length jobs)
  | AiLinkRunner.Crashed => Exists (λ j, job_title j = None) jobs
  end.
Proof.
  rewrite ai_process_jobs_loop.
  pose proof (ai_process_loop_outcome force_all 0 jobs db 0 0) as H.
  destruct (process_loop force_all 0 jobs db 0 0).2 as [s e|]; [|done].
  destruct H as [Hall Hcount]. split; [done|]. split; [done|]. split.
  - intros ->. rewrite Hcount. simpl. f_equal.
    clear. induction jobs as [|j jobs IH]; [done|].
    rewrite filter_cons. unfold skipped at 1. simpl. by rewrite IH.
  - intros rows -> Hrows. rewrite Hcount. simpl.
    by rewrite selected_jobs_not_skipped.
Qed.

Lemma ai_process_loop_rows (P : row → row → Prop) force_all i jobs db0 db s e :
  (∀ j i' result r r1,
     j ∈ jobs → skipped force_all j = false →
     add_links_to_job i' j = Some result →
     py_in link_marker (updated_description result) = true →
     P r r1 →
     P r (if bool_decide (id r1 = job_id j)
          then {| id := id r1; title := title r1; company_name := company_name r1;
                  role_category := role_category r1;
                  full_description := Some (updated_description result);
                  is_active := is_active r1 |}
          else r1)) →
  Forall2 P db0 db → Forall2 P db0 (process_loop force_all i jobs db s e).1.
Proof.
  revert i db s e. induction jobs as [|j jobs IH]; intros i db s e Hstep H; [done|].
  rewrite ai_process_loop_cons. destruct (job_title j); [|done].
  assert (∀ j' i' result r r1,
     j' ∈ jobs → skipped force_all j' = false →
     add_links_to_job i' j' = Some result →
     py_in link_marker (updated_description result) = true →
     P r r1 →
     P r (if bool_decide (id r1 = job_id j')
          then {| id := id r1; title := title r1; company_name := company_name r1;
                  role_category := role_category r1;
                  full_description := Some (updated_description result);
                  is_active := is_active r1 |}
          else r1)) as Hstep'.
  { intros j' i' result r r1 Hj'. apply Hstep. by apply list_elem_of_further. }
  destruct (skipped force_all j) eqn:Hskip; [by apply IH|].
  destruct (add_links_to_job i j) as [result|] eqn:Hres; [|by apply IH].
  destruct (py_in link_marker (updated_description result)) eqn:Hm; [|by apply IH].
  apply IH; [done|]. apply update_row_kept; [|done].
  intros r r1. apply (Hstep j i result); [apply list_elem_of_here|done..].
Qed.

(** X10: whatever the agent answers, the AI run keeps the rows of the
    table, in their order, with their id, title, company name, role
    category and activity flag; the description of a row is what it was,
    or an answer of the agent for a job of the run with the id of the row
    that was not passed over, and that answer contains the link marker:
    an answer without a link is never stored. *)
Theorem X10_ai_rows_after_run force_all jobs db :
  Forall2 (λ r r',
             id r' = id r ∧ title r' = title r ∧
             company_name r' = company_name r ∧
             role_category r' = role_category r ∧
             is_active r' = is_active r ∧
             (full_description r' = full_description r ∨
              ∃ j i result,
                j ∈ jobs ∧ job_id j = id r ∧ skipped force_all j = false ∧
                add_links_to_job i j = Some result ∧
                full_description r' = Some (updated_description result) ∧
                py_in link_marker (updated_description result) = true))
          db (process_jobs force_all jobs db).1.
Proof.
  rewrite ai_process_jobs_loop. apply ai_process_loop_rows.
  - intros j i result r r1 Hj Hskip Hres Hm (Hid & Hti & Hco & Hro & Hac & Hde).
    case_bool_decide as Hr; [|done]. simpl. repeat split; try done.
    right. exists j, i, result. repeat split; [done|congruence|done..].
  - apply Forall_Forall2_diag, Forall_forall. intros r _. repeat split. by left.
Qed.

End AiLinkRunnerFacts.

(** X9 on one selected row, with an agent that always fails. *)
Lemma X9_witness :
  let r := {| LinkRunner.id := cp "7";
              LinkRunner.title := Some (cp "Finance lead");
              LinkRunner.company_name := None;
              LinkRunner.role_category := None;
              LinkRunner.full_description := Some (cp "A fractional role");
              LinkRunner.is_active := Some true |} in
  let agent (i : nat) (j : LinkRunner.job) : option AiLinkRunner.linked_description :=
    None in
  Forall (λ r, LinkRunner.where_unlinked r = true) [r] ∧
  AiLinkRunner.process_jobs agent false [LinkRunner.select_job r] [r]
  = ([r], AiLinkRunner.Completed 0 1) ∧
  0 + 1 = length [LinkRunner.select_job r].
Proof.
  intros r agent.
  assert (Forall (λ r, LinkRunner.where_unlinked r = true) [r]) as Hrows.
  { repeat constructor. }
  split; [exact Hrows|]. split; [by vm_compute|].
  exact (proj2 (proj2 (proj2
           (X9_ai_run_outcome agent false [LinkRunner.select_job r] [r])))
           [r] eq_refl Hrows).
Defined.

(** ** The batch run of the Brand.dev fetcher *)

Section BrandRunnerFacts.

Import BrandRunner.

Variable str_lower : text → text.
Variable fetch_brand : nat → text → option (option raw_brand).

Local Abbreviation extract_brand_data := (BrandDev.extract_brand_data str_lower).
Local Abbreviation main_loop := (BrandRunner.main_loop str_lower fetch_brand).
Local Abbreviation main := (BrandRunner.main str_lower fetch_brand).

(** One turn of the loop. *)
Lemma main_loop_cons dry_run i c companies db s k e :
  main_loop dry_run i (c :: companies) db s k e =
    match fetch_brand i (company_domain c) with
    | Some (Some raw) =>
        match extract_brand_data raw with
        | Some brand_data =>
            main_loop dry_run (S i) companies
              (if dry_run then db
               else save_brand_to_database db (company_domain c) (company_name c)
                      brand_data (cp "branddev"))
              (s + 1) k e
        | None => main_loop dry_run (S i) companies db s k (e + 1)
        end
    | _ => main_loop dry_run (S i) companies db s (k + 1) e
    end.
Proof. done. Qed.

Lemma main_loop_counts dry_run i companies db s k e :
  let '(s', k', e') := (main_loop dry_run i companies db s k e).2 in
  s' + k' + e' = s + k + e + length companies.
Proof.
  revert i db s k e. induction companies as [|c companies IH]; intros i db s k e.
  - simpl. lia.
  - rewrite main_loop_cons.
    assert (∀ db1 s1 k1 e1,
              s1 + k1 + e1 = s + k + e + 1 →
              let '(s', k', e') := (main_loop dry_run (S i) companies db1 s1 k1 e1).2 in
              s' + k' + e' = s + k + e + length (c :: companies)) as Hnext.
    { intros db1 s1 k1 e1 Hsum. specialize (IH (S i) db1 s1 k1 e1).
      destruct (main_loop _ _ _ _ _ _ _).2 as [[s' k'] e']. simpl. lia. }
    destruct (fetch_brand i (company_domain c)) as [[raw|]|];
      [destruct (extract_brand_data raw)|..]; apply Hnext; lia.
Qed.

(** X11: without an API key the run does nothing.  With one, every
    company of the run is counted in exactly one of the three counters:
    fetched, skipped or error; the companies of the run are the domains
    given on the command line or, when there is none, the pending ones. *)
Theorem X11_every_company_counted api_key dry_run domains pending db :
  match (main api_key dry_run domains pending db).2 with
  | Some (success_count, skip_count, error_count) =>
      truthy api_key = true ∧
      success_count + skip_count + error_count
      = match domains with
        | [] => length pending
        | _ :: _ => length domains
        end
  | None =>
      truthy api_key = false ∧ (main api_key dry_run domains pending db).1 = db
  end.
Proof.
  unfold BrandRunner.main. destruct api_key as [[|a key]|]; [done| |done].
  match goal with
  | |- context [main_loop dry_run 0 ?cs db 0 0 0] =>
      pose proof (main_loop_counts dry_run 0 cs db 0 0 0) as H;
      destruct (main_loop dry_run 0 cs db 0 0 0) as [db' [[s k] e]]
  end.
  simpl in *. split; [done|]. rewrite H.
  destruct domains; [done|]. by rewrite length_fmap.
Qed.

Lemma main_loop_dry i companies db s k e :
  (main_loop true i companies db s k e).1 = db ∧
  ∀ db', (main_loop true i companies db s k e).2
         = (main_loop false i companies db' s k e).2.
Proof.
  revert i db s k e. induction companies as [|c companies IH]; intros i db s k e;
    [done|].
  split; [|intros db']; rewrite !main_loop_cons;
    (destruct (fetch_brand i (company_domain c)) as [[raw|]|];
     [destruct (extract_brand_data raw)|..]); apply IH.
Qed.

(** X12: a dry run leaves [company_brands] as it is and reports the
    counters of the real run. *)
Theorem X12_brand_dry_run api_key domains pending db :
  (main api_key true domains pending db).1 = db ∧
  (main api_key true domains pending db).2
  = (main api_key false domains pending db).2.
Proof.
  unfold BrandRunner.main. destruct api_key as [[|a key]|]; [done| |done].
  match goal with
  | |- context [main_loop true 0 ?cs db 0 0 0] =>
      destruct (main_loop_dry 0 cs db 0 0 0) as [H1 H2]; specialize (H2 db);
      destruct (main_loop true 0 cs db 0 0 0) as [db1 c1];
      destruct (main_loop false 0 cs db 0 0 0) as [db2 c2]
  end.
  simpl in *. by subst.
Qed.

Lemma main_loop_rows (all : list company) (dry_run : bool) (i : nat)
    (companies : list company) (db0 db : gmap text brand_row) (s k e : nat)
    (d : text) :
  let written (db' : gmap text brand_row) :=
    db' !! d = db0 !! d ∨
    ∃ c j raw brand_data,
      c ∈ all ∧ company_domain c = d ∧
      fetch_brand j d = Some (Some raw) ∧
      extract_brand_data raw = Some brand_data ∧
      db' !! d = Some {| row_company_name := company_name c;
                         row_data := brand_data;
                         row_provider := cp "branddev" |} in
  (∀ c, c ∈ companies → c ∈ all) →
  written db → written (main_loop dry_run i companies db s k e).1.
Proof.
  intros written. revert i db s k e.
  induction companies as [|c companies IH]; intros i db s k e Hall H; [done|].
  assert (∀ c', c' ∈ companies → c' ∈ all) as Hall'.
  { intros c' Hc'. by apply Hall, list_elem_of_further. }
  rewrite main_loop_cons.
  destruct (fetch_brand i (company_domain c)) as [[raw|]|] eqn:Hf;
    [|by apply IH..].
  destruct (extract_brand_data raw) as [brand_data|] eqn:He; [|by apply IH].
  apply IH; [done|]. destruct dry_run; [done|].
  unfold save_brand_to_database.
  destruct (decide (company_domain c = d)) as [Hd|Hd].
  - right. exists c, i, raw, brand_data. rewrite <- Hd.
    repeat split; [apply Hall, list_elem_of_here|done..|by rewrite lookup_insert_eq].
  - unfold written. by rewrite lookup_insert_ne.
Qed.


End BrandRunnerFacts.

(** ** More on the Brand.dev normaliser *)

Lemma calculate_brightness_short h :
  length (lstrip_hash h) ≤ 4 → calculate_brightness h = None.
Proof.
  intros H. unfold calculate_brightness, slice.
  rewrite (drop_ge (lstrip_hash h) 4) by done.
  change (int16 (take (6 - 4) [])) with (@None Z).
  destruct (int16 (take (2 - 0) _)) as [r|]; simpl; [|done].
  by destruct (int16 _) as [g|].
Qed.

Lemma lstrip_hash_take n h :
  lstrip_hash (take n (lstrip_hash h)) = take n (lstrip_hash h).
Proof.
  induction h as [|c h IH]; [by destruct n|].
  change (lstrip_hash (c :: h))
    with (if (c =? chr "#")%N then lstrip_hash h else c :: h).
  destruct (c =? chr "#")%N eqn:Hc; [done|].
  destruct n as [|n]; [done|]. simpl take.
  change (lstrip_hash (c :: take n h))
    with (if (c =? chr "#")%N then lstrip_hash (take n h) else c :: take n h).
  by rewrite Hc.
Qed.

Lemma slice_take i j n (s : text) : j ≤ n → slice i j (take n s) = slice i j s.
Proof.
  intros H. unfold slice. rewrite skipn_firstn_comm, take_take. f_equal. lia.
Qed.

(** X14: only the first six characters after the leading [#] are read:
    what follows them, an alpha channel for instance, has no effect on the
    brightness, nor on whether it can be computed. *)
Theorem X14_brightness_reads_six_characters h :
  calculate_brightness h = calculate_brightness (take 6 (lstrip_hash h)).
Proof.
  unfold calculate_brightness. rewrite lstrip_hash_take.
  by rewrite !slice_take by lia.
Qed.

(** X15: a grey, three times the same pair of hexadecimal digits, has the
    value of the pair as brightness: the three weights add up to 1000. *)
Theorem X15_grey_brightness k c1 c2 d1 d2 :
  hex_digit c1 = Some d1 → hex_digit c2 = Some d2 →
  calculate_brightness (replicate k (chr "#") ++ [c1; c2; c1; c2; c1; c2])
  = Some (16 * d1 + d2)%Z.
Proof.
  intros H1 H2.
  destruct (hex_digit_range _ _ H1) as [? _], (hex_digit_range _ _ H2) as [? _].
  unfold calculate_brightness. rewrite (lstrip_hash_replicate k c1 _ d1 H1).
  change (slice 0 2 [c1; c2; c1; c2; c1; c2]) with [c1; c2].
  change (slice 2 4 [c1; c2; c1; c2; c1; c2]) with [c1; c2].
  change (slice 4 6 [c1; c2; c1; c2; c1; c2]) with [c1; c2].
  rewrite (int16_pair _ _ _ _ H1 H2). simpl. f_equal.
  set (v := (16 * d1 + d2)%Z).
  replace (v * 299 + v * 587 + v * 114)%Z with (v * 1000)%Z by lia.
  by apply Z.quot_mul.
Qed.

(** X15 on the grey [#8c8c8c]. *)
Lemma X15_witness :
  hex_digit (chr "8") = Some 8%Z ∧ hex_digit (chr "c") = Some 12%Z ∧
  calculate_brightness (cp "#8c8c8c") = Some 140%Z.
Proof.
  split; [done|]. split; [done|].
  exact (X15_grey_brightness 1 (chr "8") (chr "c") 8 12 eq_refl eq_refl).
Defined.



Section BrandDevMore.

Variable str_lower : text → text.

Local Abbreviation classify_colors := (BrandDev.classify_colors str_lower).
Local Abbreviation extract_colors := (BrandDev.extract_colors str_lower).
Local Abbreviation extract_brand_data := (BrandDev.extract_brand_data str_lower).

Lemma classify_colors_short l c :
  c ∈ l →
  length (lstrip_hash (default (cp "#888888") (raw_hex c))) ≤ 4 →
  classify_colors l = None.
Proof.
  intros Hin Hlen. induction l as [|c' l IH]; [by apply elem_of_nil in Hin|].
  apply elem_of_cons in Hin as [<-|Hin]; simpl.
  - by rewrite calculate_brightness_short.
  - destruct (calculate_brightness _); [|done]. simpl. by rewrite IH.
Qed.

(** X16: one colour whose string has fewer than five characters after the
    leading [#], the three digit shorthand for instance, makes the
    brightness fail and with it the normalisation of the whole brand. *)
Theorem X16_short_colour_rejects_brand b c :
  c ∈ raw_colors b →
  length (lstrip_hash (default (cp "#888888") (raw_hex c))) ≤ 4 →
  calculate_brightness (default (cp "#888888") (raw_hex c)) = None ∧
  extract_brand_data b = None.
Proof.
  intros Hin Hlen. split; [by apply calculate_brightness_short|].
  unfold BrandDev.extract_brand_data, BrandDev.extract_colors.
  by rewrite (classify_colors_short _ c Hin Hlen).
Qed.

Lemma classify_colors_length l cs :
  classify_colors l = Some cs → length cs = length l.
Proof.
  revert cs. induction l as [|c l IH]; intros cs; simpl; [by intros [= <-]|].
  destruct (calculate_brightness _); [|done]. simpl.
  destruct (classify_colors l) as [rest|]; [|done]. simpl.
  intros [= <-]. simpl. f_equal. by apply IH.
Qed.

Lemma insert_color_filter (b : Z) (c : color) (l : list color) :
  filter (λ x, brightness x = b) (insert_color c l)
  = filter (λ x, brightness x = b) (c :: l).
Proof.
  induction l as [|d l IH]; simpl; [done|].
  destruct (Z.leb_spec (brightness c) (brightness d)) as [Hle|Hgt]; [done|].
  rewrite (filter_cons _ d), IH, !filter_cons.
  destruct (decide (brightness d = b)), (decide (brightness c = b)); try done. lia.
Qed.

Lemma sort_colors_filter (b : Z) (l : list color) :
  filter (λ x, brightness x = b) (sort_colors l) = filter (λ x, brightness x = b) l.
Proof.
  induction l as [|c l IH]; [done|]. simpl.
  by rewrite insert_color_filter, !filter_cons, IH.
Qed.

Lemma filter_brightness_hex (b : Z) (l : list color) :
  hex <$> filter (λ x, brightness x = b) l
  = fst <$> filter (λ p : text * Z, p.2 = b) ((λ c, (hex c, brightness c)) <$> l).
Proof.
  induction l as [|c l IH]; [done|]. rewrite fmap_cons, !filter_cons.
  cbn [snd]. destruct (decide (brightness c = b));
    [rewrite !fmap_cons; cbn [fst]|]; by rewrite IH.
Qed.

(** X17: the sort is stable: colours of the same brightness come out in
    the order of the input.  Of two colours of equal brightness, the first
    of the input ends as dark and the second as light. *)
Theorem X17_equal_brightness_keeps_order raw cs :
  classify_colors raw = Some cs →
  ∃ out,
    extract_colors raw = Some out ∧
    (∀ b, hex <$> filter (λ c, brightness c = b) out
          = hex <$> filter (λ c, brightness c = b) cs) ∧
    (∀ c1 c2, cs = [c1; c2] → brightness c1 = brightness c2 →
              out = [set_type dark c1; set_type light c2]).
Proof.
  intros Hcs. exists (override_types (sort_colors cs)).
  split; [unfold BrandDev.extract_colors; by rewrite Hcs|]. split.
  - intros b. rewrite !filter_brightness_hex.
    rewrite (override_types_fmap (λ c, (hex c, brightness c))) by done.
    by rewrite <- !filter_brightness_hex, sort_colors_filter.
  - intros c1 c2 -> Heq. simpl. rewrite Heq, Z.leb_refl. done.
Qed.

End BrandDevMore.

(** X16 on the shorthand [#fff]. *)
Lemma X16_witness :
  let c := {| raw_hex := Some (cp "#fff"); raw_name := None |} in
  let b := {| raw_colors := [c]; raw_logos := []; raw_backdrops := [];
              raw_description := None;
              raw_addr := {| addr_city := None; addr_country := None |};
              raw_eic := [] |} in
  calculate_brightness (cp "#fff") = None ∧
  BrandDev.extract_brand_data ascii_only_lower b = None.
Proof.
  intros c b.
  apply (X16_short_colour_rejects_brand ascii_only_lower b c).
  - apply list_elem_of_here.
  - vm_compute. lia.
Defined.

(** X17 on two colours of brightness 0. *)
Lemma X17_witness :
  let raw := [ {| raw_hex := Some (cp "#000001"); raw_name := Some (cp "light") |};
               {| raw_hex := Some (cp "#000000"); raw_name := Some (cp "dark") |} ] in
  ∃ out,
    BrandDev.extract_colors ascii_only_lower raw = Some out ∧
    (hex <$> out = [cp "#000001"; cp "#000000"]) ∧
    (type <$> out = [dark; light]).
Proof.
  intros raw.
  destruct (X17_equal_brightness_keeps_order ascii_only_lower raw
              [ {| hex := cp "#000001"; type := dark; brightness := 0 |};
                {| hex := cp "#000000"; type := dark; brightness := 0 |} ]
              eq_refl) as (out & Hout & _ & Htwo).
  exists out. split; [done|].
  by rewrite (Htwo _ _ eq_refl eq_refl).
Defined.

(** ** Logos and completeness (Brand.dev), fonts (Brandfetch) *)

Lemma branddev_logos_snoc (l : list raw_logo) (g : raw_logo) :
  BrandDev.extract_logos (l ++ [g])
  = <[BrandRunner.logo_key g := logo_url g]> (BrandDev.extract_logos l).
Proof. unfold BrandDev.extract_logos. by rewrite foldl_app. Qed.

(** X18: the URL kept under a key is the one of the last logo of the list
    with that key, and a key without logo is absent; the mode
    [has_opaque_background] gives the key of the mode [dark], which is
    also the key of a logo without mode. *)
Theorem X18_last_logo_per_key :
  (∀ (l : list raw_logo) (k : text),
      BrandDev.extract_logos l !! k
      = logo_url <$> last (filter (λ g, BrandRunner.logo_key g = k) l)) ∧
  (∀ ty u,
      BrandRunner.logo_key
        {| logo_type := ty; logo_mode := Some (cp "has_opaque_background");
           logo_url := u |}
      = BrandRunner.logo_key
          {| logo_type := ty; logo_mode := Some (cp "dark"); logo_url := u |} ∧
      BrandRunner.logo_key
        {| logo_type := ty; logo_mode := None; logo_url := u |}
      = BrandRunner.logo_key
          {| logo_type := ty; logo_mode := Some (cp "dark"); logo_url := u |}).
Proof.
  split; [|done].
  intros l k. induction l as [|g l IH] using rev_ind; [done|].
  rewrite branddev_logos_snoc, filter_app, filter_cons, filter_nil.
  destruct (decide (BrandRunner.logo_key g = k)) as [<-|Hk].
  - by rewrite lookup_insert_eq, last_snoc.
  - by rewrite lookup_insert_ne, app_nil_r.
Qed.

Section Completeness.

Variable str_lower : text → text.

Local Abbreviation classify_colors := (BrandDev.classify_colors str_lower).
Local Abbreviation extract_colors := (BrandDev.extract_colors str_lower).
Local Abbreviation extract_brand_data := (BrandDev.extract_brand_data str_lower).

Lemma extract_colors_nonempty raw out :
  extract_colors raw = Some out → nonempty out = nonempty raw.
Proof.
  unfold BrandDev.extract_colors. destruct (classify_colors raw) as [cs|] eqn:Hcs; [|done].
  intros [= <-]. apply (classify_colors_length str_lower) in Hcs.
  assert (length (override_types (sort_colors cs)) = length raw) as Hlen.
  { rewrite <- Hcs, <- (Permutation_length (sort_colors_perm cs)).
    rewrite <- (length_fmap brightness), override_types_fmap by done.
    by rewrite length_fmap. }
  simpl. destruct (override_types (sort_colors cs)), raw; done.
Qed.

Lemma branddev_logos_empty (l : list raw_logo) :
  bool_decide (BrandDev.extract_logos l = ∅) = negb (nonempty l).
Proof.
  destruct l as [|g l _] using rev_ind; [done|].
  rewrite branddev_logos_snoc. rewrite bool_decide_eq_false_2 by apply insert_non_empty.
  by destruct l.
Qed.

Lemma extract_banners_empty (backdrops : list (option text)) :
  bool_decide (extract_banners backdrops = ∅) = negb (nonempty backdrops).
Proof.
  destruct backdrops as [|b l]; [done|]. simpl.
  apply bool_decide_eq_false_2. unfold extract_banners. apply insert_non_empty.
Qed.

Lemma extract_industries_nonempty (eic : list (option text)) :
  nonempty (extract_industries eic) = existsb truthy eic.
Proof.
  induction eic as [|i eic IH]; [done|]. unfold extract_industries in *. simpl.
  destruct (truthy i) eqn:Hi; simpl; [|done].
  by destruct i as [[|]|].
Qed.

(** X19: in terms of the payload, the quality score of a brand is 1 exactly
    when it has a colour, a logo, a backdrop, a non-empty description, a
    non-empty city and an industry with a non-empty name, and 0 exactly
    when it has none of them; a logo or a backdrop without URL counts. *)
Theorem X19_complete_brand_scores_one b rec :
  extract_brand_data b = Some rec →
  let present :=
    [ nonempty (raw_colors b); nonempty (raw_logos b); nonempty (raw_backdrops b);
      truthy (raw_description b); truthy (addr_city (raw_addr b));
      existsb truthy (raw_eic b) ] in
  (quality_score rec = (100 # 100)%Q ↔ Forall (λ x, x = true) present) ∧
  (quality_score rec = (0 # 100)%Q ↔ Forall (λ x, x = false) present).
Proof.
  unfold BrandDev.extract_brand_data.
  destruct (extract_colors (raw_colors b)) as [out|] eqn:Hout; [|done].
  cbn [mbind option_bind]. intros [= <-]. cbn [quality_score].
  unfold quality_factors.
  rewrite (extract_colors_nonempty _ _ Hout), branddev_logos_empty,
    extract_banners_empty, extract_industries_nonempty, !negb_involutive.
  generalize (nonempty (raw_colors b)), (nonempty (raw_logos b)),
    (nonempty (raw_backdrops b)), (truthy (raw_description b)),
    (truthy (addr_city (raw_addr b))), (existsb truthy (raw_eic b)).
  intros b1 b2 b3 b4 b5 b6.
  rewrite !Forall_cons, !Forall_nil.
  destruct b1, b2, b3, b4, b5, b6; vm_compute; split; split; intros H;
    try discriminate H; try done;
    by repeat match goal with H : _ ∧ _ |- _ => destruct H end.
Qed.

(** X20: with at most three colours the roles depend on the number of
    colours only: dark for one, dark and light for two, dark, accent and
    light for three, in the order of brightness; the names play no part,
    and the role brand is given in palettes of four colours or more
    only. *)
Theorem X20_small_palette_roles raw out :
  extract_colors raw = Some out →
  (length raw = 1 → type <$> out = [dark]) ∧
  (length raw = 2 → type <$> out = [dark; light]) ∧
  (length raw = 3 → type <$> out = [dark; accent; light]) ∧
  (brand ∈ type <$> out → 4 ≤ length raw).
Proof.
  unfold BrandDev.extract_colors.
  destruct (classify_colors raw) as [cs|] eqn:Hcs; [|done]. intros [= <-].
  apply (classify_colors_length str_lower) in Hcs.
  rewrite <- Hcs, <- (Permutation_length (sort_colors_perm cs)).
  unfold compose. destruct (sort_colors cs) as [|a [|b [|c [|d l]]]].
  - repeat split; try done. by intros ?%elem_of_nil.
  - repeat split; try done. intros H. apply list_elem_of_In in H. simpl in H.
    destruct H as [|[]]; done.
  - repeat split; try done. intros H. apply list_elem_of_In in H. simpl in H.
    destruct H as [|[|[]]]; done.
  - repeat split; try done. intros H. apply list_elem_of_In in H. simpl in H.
    destruct H as [|[|[|[]]]]; done.
  - repeat split; try done. intros _. simpl. lia.
Qed.

End Completeness.

(** X19 on a brand with nothing but a logo without URL. *)
Lemma X19_witness :
  let b := {| raw_colors := [];
              raw_logos := [ {| logo_type := None; logo_mode := None;
                                logo_url := None |} ];
              raw_backdrops := [];
              raw_description := None;
              raw_addr := {| addr_city := None; addr_country := None |};
              raw_eic := [] |} in
  ∃ rec, BrandDev.extract_brand_data ascii_only_lower b = Some rec ∧
         quality_score rec ≠ (0 # 100)%Q.
Proof.
  intros b. eexists. split; [reflexivity|].
  intros H.
  apply (proj1 (proj2 (X19_complete_brand_scores_one ascii_only_lower b _ eq_refl)))
    in H.
  apply Forall_cons in H as [_ H]. apply Forall_cons in H as [H _]. discriminate H.
Defined.

(** X20 on a palette of three colours named after other roles. *)
Lemma X20_witness :
  let raw := [ {| raw_hex := Some (cp "#808080"); raw_name := Some (cp "primary") |};
               {| raw_hex := Some (cp "#101010"); raw_name := Some (cp "brand") |};
               {| raw_hex := Some (cp "#404040"); raw_name := Some (cp "brand") |} ] in
  ∃ out, BrandDev.extract_colors ascii_only_lower raw = Some out ∧
         length raw = 3 ∧
         type <$> out = [dark; accent; light].
Proof.
  intros raw. eexists. split; [reflexivity|]. split; [done|].
  exact (proj1 (proj2 (proj2
           (X20_small_palette_roles ascii_only_lower raw _ eq_refl))) eq_refl).
Defined.

(** X21: of the fonts of a Brandfetch response, the title font kept is the
    last one of type [title] and the body font the last one of type
    [body]; a last one without name leaves no name, and without a font of
    the type there is none. *)
Theorem X21_last_font_per_type (fonts : list Brandfetch.raw_font) :
  Brandfetch.extract_fonts fonts
  = (last (filter (λ f, Brandfetch.font_type f = Some (cp "title")) fonts)
       ≫= Brandfetch.font_name,
     last (filter (λ f, Brandfetch.font_type f = Some (cp "body")) fonts)
       ≫= Brandfetch.font_name).
Proof.
  induction fonts as [|f fonts IH] using rev_ind; [done|].
  unfold Brandfetch.extract_fonts in *. rewrite foldl_app, IH. simpl foldl.
  rewrite !filter_app, !filter_cons, !filter_nil.
  case_bool_decide as Ht.
  - rewrite decide_True by done. rewrite decide_False by (rewrite Ht; discriminate).
    by rewrite last_snoc, app_nil_r.
  - rewrite (decide_False (P := Brandfetch.font_type f = Some (cp "title"))) by done.
    rewrite app_nil_r. case_bool_decide as Hb.
    + rewrite decide_True by done. by rewrite last_snoc.
    + rewrite decide_False by done. by rewrite app_nil_r.
Qed.
